(** * Worker.js: a shallow embedding of the background task executor

    The worker script is embedded as Rocq functions.

    - A JavaScript number that carries data (array elements, results of
      arithmetic, progress percentages) is an IEEE-754 binary64 value and is
      modelled by Rocq's primitive [float], whose operations are the same
      binary64 operations (round to nearest, ties to even).
    - A JavaScript number that the code uses as a counter, an index, a length
      or an integer bound ([i], [j], [n], [limit], [steps], [arr.length]) is
      modelled by [Z] or [nat]; below 2^53 double arithmetic on integers is
      exact.  Such a number is turned into a [float] ([num_of_Z]) where the
      code divides it.
    - [self.postMessage] appends a response to the list of emissions, [throw]
      ends a handler with an exception, [setInterval] registers a timer in the
      worker state.  The [timestamp], [stack], [duration] and [dummyResult]
      fields depend on the clock or on text formatting and are left out of the
      responses. *)

From Stdlib Require Import ZArith List Floats Lia String Ascii Bool.
From Stdlib Require Import Permutation Sorted Znumtheory.
From stdpp Require Import base list gmap.
Import ListNotations.

Open Scope Z_scope.

(* ===================================================================== *)
(** * JavaScript numbers *)
(* ===================================================================== *)

Definition number := float.

(** [a < b] and [a > b] on numbers: false as soon as one side is NaN. *)
Definition js_lt (a b : number) : bool := (a <? b)%float.
Definition js_gt (a b : number) : bool := (b <? a)%float.

(** The double nearest to an integer (exact for every |z| <= 2^53): the
    primitive conversion from a 63-bit integer where it applies, the
    specification's rounding beyond. *)
Definition num_of_Z (z : Z) : number :=
  if Z.abs z <? 9223372036854775808  (* 2^63 *)
  then if z <? 0 then (- of_uint63 (Uint63.of_Z (- z)))%float
       else of_uint63 (Uint63.of_Z z)
  else SF2Prim (binary_normalize prec emax z 0 false).

(** The integer a double stands for, when it is one. *)
Definition num_to_Z (x : number) : option Z :=
  match Prim2SF x with
  | S754_zero _ => Some 0
  | S754_finite s m e =>
      if 0 <=? e then Some (cond_Zopp s (Z.shiftl (Zpos m) e))
      else if Z.shiftl (Z.shiftr (Zpos m) (- e)) (- e) =? Zpos m
           then Some (cond_Zopp s (Z.shiftr (Zpos m) (- e)))
           else None
  | _ => None
  end.

(** 2^52: from there on every double is an integer. *)
Definition two52 : number := Eval vm_compute in num_of_Z (2 ^ 52).

(** [Math.floor].  NaN, the zeros, the infinities and every double of
    magnitude 2^52 or more are returned as they are.  Below 2^52, adding and
    then subtracting 2^52 (with the sign of [x]) rounds [x] to the nearest
    integer [r]; the floor is [r], or [r - 1] when [r] lies above [x]. *)
Definition Math_floor (x : number) : number :=
  if is_nan x || is_zero x then x
  else if (abs x <? two52)%float then
    let r := if (x <? 0)%float then ((x - two52) + two52)%float
             else ((x + two52) - two52)%float in
    if (x <? r)%float then (r - 1)%float else r
  else x.

(** The same function read off the binary representation: the mantissa is
    shifted right, rounding towards minus infinity.  It is slower to
    evaluate; [Math_floor] is compared with it on sample values below. *)
Definition Math_floor_bits (x : number) : number :=
  match Prim2SF x with
  | S754_finite s m e =>
      if 0 <=? e then x
      else num_of_Z (Z.shiftr (cond_Zopp s (Zpos m)) (- e))
  | _ => x
  end.

Definition Math_abs (x : number) : number := abs x.
Definition Math_sqrt (x : number) : number := sqrt x.

(** [Math.max(...numbers)]: starts from -Infinity, NaN is absorbing, and +0
    is larger than -0. *)
Definition max_step (highest x : number) : number :=
  if is_nan highest || is_nan x then nan
  else if js_lt highest x then x
  else if is_zero x && is_zero highest && get_sign highest && negb (get_sign x) then x
  else highest.

Definition Math_max (numbers : list number) : number :=
  fold_left max_step numbers neg_infinity.

(** [Math.min(...numbers)]: starts from +Infinity, NaN is absorbing, and -0
    is smaller than +0. *)
Definition min_step (lowest x : number) : number :=
  if is_nan lowest || is_nan x then nan
  else if js_lt x lowest then x
  else if is_zero x && is_zero lowest && get_sign x && negb (get_sign lowest) then x
  else lowest.

Definition Math_min (numbers : list number) : number :=
  fold_left min_step numbers infinity.

(** [Number.isFinite]. *)
Definition Number_isFinite (x : number) : bool := is_finite x.

(** [a % b === 0] for integer-valued [a] and [b]: the remainder by zero is
    NaN, which is not zero. *)
Definition rem_is_zero (a b : Z) : bool :=
  if b =? 0 then false else Z.rem a b =? 0.

(** [Math.floor((a / b) * 100)] for integer-valued [a] and [b]. *)
Definition percent (a b : Z) : number :=
  Math_floor ((num_of_Z a / num_of_Z b) * 100)%float.

(** [Math.floor(a / 10)] for an integer-valued [a], as an integer when the
    result is one ([None] otherwise: an infinity or NaN). *)
Definition floor_div10 (a : Z) : option Z :=
  num_to_Z (Math_floor (num_of_Z a / 10)%float).

Example num_of_Z_3 : num_of_Z 3 = 3%float.
Proof. reflexivity. Qed.
Example floor_neg_half : Math_floor (-0.5)%float = (-1)%float.
Proof. reflexivity. Qed.
Example floor_2_75 : Math_floor 2.75%float = 2%float.
Proof. reflexivity. Qed.
Example percent_29_100 : percent 29 100 = 28%float.
Proof. reflexivity. Qed.
Example percent_1_0 : percent 1 0 = infinity.
Proof. reflexivity. Qed.
Example floor_div10_1000 : floor_div10 1000 = Some 100.
Proof. reflexivity. Qed.
Example floor_div10_29 : floor_div10 29 = Some 2.
Proof. reflexivity. Qed.

(** [Math_floor] agrees with [Math_floor_bits] on a grid of quotients
    [a / b] scaled by 100, of both signs, and on special values. *)
Definition floor_samples : list number :=
  flat_map (fun a => flat_map (fun b =>
      [ (num_of_Z a / num_of_Z b * 100)%float;
        (num_of_Z (- a) / num_of_Z b * 100)%float;
        (num_of_Z a / num_of_Z b)%float;
        (num_of_Z (a * 1000003) / num_of_Z (b * 7))%float ])
    (map Z.of_nat (seq 1 40))) (map Z.of_nat (seq 0 40))
  ++ [ nan; infinity; neg_infinity; 0; -0; 0.5; -0.5; 1.5; -1.5; 2.5; -2.5;
       4503599627370495.5; -4503599627370495.5; 4503599627370496;
       9007199254740994; -9007199254740994; 0x1p+996; -0x1p+996; 0x1p-1074 ]%float.

Example Math_floor_samples :
  forallb (fun x => Leibniz.eqb (Math_floor x) (Math_floor_bits x)) floor_samples = true.
Proof. vm_compute. reflexivity. Qed.

(* ===================================================================== *)
(** * SortingAlgorithms *)
(* ===================================================================== *)

(** [for (let i = start; i < start + count; i++) s = body(i, s)]. *)
Fixpoint for_loop {St : Type} (count : nat) (i : nat) (body : nat -> St -> St) (s : St) : St :=
  match count with
  | O => s
  | S count' => for_loop count' (S i) body (body i s)
  end.

(** ** quickSort *)

(** The [for (const element of arr)] loop: every element is pushed to
    [left], [right] or [equal], in the order of [arr] ([left_] and [right_]
    here: [left] and [right] are constructors of the prelude). *)
Fixpoint partition3 (pivot : number) (arr : list number)
  : list number * list number * list number :=
  match arr with
  | [] => ([], [], [])
  | element :: rest =>
      let '(left_, right_, equal) := partition3 pivot rest in
      if js_lt element pivot then (element :: left_, right_, equal)
      else if js_gt element pivot then (left_, element :: right_, equal)
      else (left_, right_, element :: equal)
  end.

(** The recursion is on shorter arrays; [fuel] bounds its depth. *)
Fixpoint quickSort_rec (fuel : nat) (arr : list number) : list number :=
  if (length arr <=? 1)%nat then arr
  else match fuel with
       | O => arr
       | S fuel' =>
           match arr !! (length arr / 2)%nat with
           | None => arr
           | Some pivot =>
               let '(left_, right_, equal) := partition3 pivot arr in
               quickSort_rec fuel' left_ ++ equal ++ quickSort_rec fuel' right_
           end
       end.

Definition quickSort (arr : list number) : list number :=
  quickSort_rec (length arr) arr.

(** ** mergeSort *)

(** The [while] loop compares the heads [left[i]] and [right[j]]; what is
    left of either side is appended when the other is exhausted. *)
Fixpoint merge (left right : list number) : list number :=
  match left with
  | [] => right
  | x :: left' =>
      (fix merge_right (right : list number) : list number :=
         match right with
         | [] => left
         | y :: right' =>
             if js_lt x y then x :: merge left' right
             else y :: merge_right right'
         end) right
  end.

Fixpoint mergeSort_rec (fuel : nat) (arr : list number) : list number :=
  if (length arr <=? 1)%nat then arr
  else match fuel with
       | O => arr
       | S fuel' =>
           let mid := (length arr / 2)%nat in
           let left := mergeSort_rec fuel' (take mid arr) in
           let right := mergeSort_rec fuel' (drop mid arr) in
           merge left right
       end.

Definition mergeSort (arr : list number) : list number :=
  mergeSort_rec (length arr) arr.

(** ** bubbleSort *)

(** The body of the inner loop: [arr[j]] and [arr[j + 1]] are exchanged when
    the first is greater.  A missing element is [undefined], which is
    greater than nothing. *)
Definition swap_if_gt (j : nat) (arr : list number) : list number :=
  match arr !! j, arr !! (S j) with
  | Some a, Some b => if js_gt a b then <[S j := a]> (<[j := b]> arr) else arr
  | _, _ => arr
  end.

(** The array is sorted in place: every pass rewrites the same array. *)
Definition bubbleSort (arr : list number) : list number :=
  let n := length arr in
  for_loop (n - 1) 0 (fun i arr => for_loop (n - i - 1) 0 swap_if_gt arr) arr.

(** ** The reference: an ascending insertion sort by [<=] *)

Fixpoint insert_sorted (x : number) (l : list number) : list number :=
  match l with
  | [] => [x]
  | y :: l' => if (x <=? y)%float then x :: l else y :: insert_sorted x l'
  end.

Definition refSort (l : list number) : list number :=
  fold_right insert_sorted [] l.

Example quickSort_ex : quickSort [3; 1; 2; 1; 5; 4]%float = [1; 1; 2; 3; 4; 5]%float.
Proof. reflexivity. Qed.
Example mergeSort_ex : mergeSort [3; 1; 2; 1; 5; 4]%float = [1; 1; 2; 3; 4; 5]%float.
Proof. reflexivity. Qed.
Example bubbleSort_ex : bubbleSort [3; 1; 2; 1; 5; 4]%float = [1; 1; 2; 3; 4; 5]%float.
Proof. reflexivity. Qed.
Example refSort_ex : refSort [3; 1; 2; 1; 5; 4]%float = [1; 1; 2; 3; 4; 5]%float.
Proof. reflexivity. Qed.
Example quickSort_nan : quickSort [2; nan; 1]%float = [2; nan; 1]%float.
Proof. reflexivity. Qed.
Example mergeSort_nan : mergeSort [2; nan; 1]%float = [1; nan; 2]%float.
Proof. reflexivity. Qed.
Example bubbleSort_nan : bubbleSort [2; nan; 1]%float = [2; nan; 1]%float.
Proof. reflexivity. Qed.
Example mergeSort_zeros : mergeSort [0; -0]%float = [-0; 0]%float.
Proof. reflexivity. Qed.
Example quickSort_zeros : quickSort [0; -0]%float = [0; -0]%float.
Proof. reflexivity. Qed.

(** ** The fallback: [array.sort((a, b) => a - b)] *)

(** The built-in sort is stable and orders [a] after [b] when the comparator
    returns a positive number; a NaN result counts as zero.  With NaN among
    the elements the comparator is inconsistent and the order is left to the
    implementation: this is one such implementation. *)
Fixpoint insert_by_difference (a : number) (l : list number) : list number :=
  match l with
  | [] => [a]
  | b :: l' => if js_gt (a - b)%float 0%float then b :: insert_by_difference a l'
               else a :: l
  end.

Definition nativeSort (l : list number) : list number :=
  fold_right insert_by_difference [] l.

(* ===================================================================== *)
(** * Requests and responses *)
(* ===================================================================== *)

Open Scope string_scope.

(** The [id] of a request as the handlers receive it: [None] is [undefined]. *)
Definition jsid := option string.

(** The payload [data] of a request: the fields the handlers read.  A field
    with a default in the source is optional. *)
Record payload := Payload {
  data_operation : option string;
  data_numbers : list number;
  data_dataset : list number;
  data_transform : option string;
  data_duration : option number;
  data_steps : option Z;
  data_n : option Z;
  data_limit : option Z;
  data_array : option (list number);   (* [None]: not an array *)
  data_algorithm : option string
}.

Definition no_data : payload :=
  Payload None [] [] None None None None None None None.

Record request := Request {
  req_command : option string;
  req_data : payload;
  req_id : jsid
}.

(** What a success response carries besides [id] and [command]. *)
Inductive success_body :=
| CalculateResult (result : number) (operation : string)
| ProcessDataResult (result : list number) (originalLength : Z)
| SimulateWorkResult (result : string) (totalDuration : number)
| FibonacciResult (result : list number) (length_ : Z) (nthValue : option number)
| PrimeNumbersResult (result : list Z) (count : Z) (limit : Z)
| SortArrayResult (result : list number) (algorithm : string) (originalLength : Z).

Inductive response :=
| Ready (id : string) (message : string) (supportedCommands : list string)
| Progress (id : jsid) (progress : number) (counters : list (string * Z))
| Success (id : jsid) (command : string) (body : success_body)
| Error (id : jsid) (error : string) (detail : option string).

Definition response_id (r : response) : jsid :=
  match r with
  | Ready id _ _ => Some id
  | Progress id _ _ => id
  | Success id _ _ => id
  | Error id _ _ => id
  end.

Definition is_progress (r : response) : bool :=
  match r with Progress _ _ _ => true | _ => false end.

(** The terminal messages: success and error. *)
Definition is_terminal (r : response) : bool :=
  match r with Success _ _ _ | Error _ _ _ => true | _ => false end.

Definition is_ready (r : response) : bool :=
  match r with Ready _ _ _ => true | _ => false end.

(** A template literal prints a missing value as [undefined]. *)
Definition template (s : option string) : string :=
  match s with Some s => s | None => "undefined" end.

(** [value === 'label'] for a value that is a string or missing. *)
Definition same (value : option string) (label : string) : bool :=
  match value with
  | Some s => String.eqb s label
  | None => false
  end.

(** [id || 'unknown']: the fallback is taken for a missing id and for the
    empty string, which is falsy. *)
Definition id_or_unknown (id : jsid) : string :=
  match id with
  | Some s => if String.eqb s "" then "unknown" else s
  | None => "unknown"
  end.

(* ===================================================================== *)
(** * The handler monad: emissions and exceptions *)
(* ===================================================================== *)

(** A handler emits responses and then returns, or throws an [Error] with a
    message.  What was emitted before a [throw] stays emitted. *)
Definition handler (A : Type) : Type := (list response * (string + A))%type.

Definition ret {A} (a : A) : handler A := ([], inr a).

Definition bind {A B} (m : handler A) (k : A -> handler B) : handler B :=
  match m with
  | (out, inl error) => (out, inl error)
  | (out, inr a) => let '(out', r) := k a in ((out ++ out')%list, r)
  end.

Definition postMessage (r : response) : handler unit := ([r], inr tt).

Definition throw {A} (message : string) : handler A := ([], inl message).

Notation "x <- m ;; k" := (bind m (fun x => k))
  (at level 100, m at next level, right associativity).
Notation "m ;;; k" := (bind m (fun _ => k))
  (at level 100, right associativity).

(** [for (let i = start; i < start + count; i++) s = body(i, s)] in the
    monad. *)
Fixpoint for_loopM {St : Type} (count : nat) (i : Z) (body : Z -> St -> handler St) (s : St)
  : handler St :=
  match count with
  | O => ret s
  | S count' => s' <- body i s ;; for_loopM count' (i + 1)%Z body s'
  end.

(** The progress condition shared by three handlers:
    [size > threshold && i % Math.floor(size / 10) === 0]. *)
Definition progress_due (threshold size i : Z) : bool :=
  (threshold <? size)%Z &&
  match floor_div10 size with
  | Some every => rem_is_zero i every
  | None => false
  end.

(* ===================================================================== *)
(** * TaskHandlers *)
(* ===================================================================== *)

(** ** handleCalculate *)

Definition handleCalculate (data : payload) (id : jsid) : handler unit :=
  let operation := data_operation data in
  let numbers := data_numbers data in
  result <-
    (if same operation "sum" then
       ret (fold_left (fun acc num => acc + num)%float numbers 0%float)
     else if same operation "average" then
       ret (fold_left (fun acc num => acc + num)%float numbers 0%float
            / num_of_Z (Z.of_nat (length numbers)))%float
     else if same operation "max" then ret (Math_max numbers)
     else if same operation "min" then ret (Math_min numbers)
     else if same operation "multiply" then
       ret (fold_left (fun acc num => acc * num)%float numbers 1%float)
     else throw ("不支持的操作: " ++ template operation)) ;;
  postMessage (Success id "calculate" (CalculateResult result (template operation))).

(** ** handleProcessData *)

Section ProcessData.

(** [Number(value.toFixed(4))]: the decimal formatting of a double and its
    parsing are not modelled; any function may stand for them. *)
Variable toFixed4 : number -> number.

Definition apply_transform (transform : option string) (dataset : list number) (value : number)
  : number :=
  if same transform "double" then (value * 2)%float
  else if same transform "square" then (value * value)%float
  else if same transform "sqrt" then Math_sqrt (Math_abs value)
  else if same transform "normalize" then
    let max := Math_max (map Math_abs dataset) in
    if negb (max =? 0)%float then (value / max)%float else 0%float
  else value.

Definition handleProcessData (data : payload) (id : jsid) : handler unit :=
  let dataset := data_dataset data in
  let transform := data_transform data in
  let total := Z.of_nat (length dataset) in
  processed <-
    for_loopM (length dataset) 0
      (fun i processed =>
         match dataset !! Z.to_nat i with
         | None => ret processed
         | Some value =>
             let value := apply_transform transform dataset value in
             let processed := (processed ++ [toFixed4 value])%list in
             (if progress_due 10 total i
              then postMessage (Progress id (percent i total)
                                  [("processed", (i + 1)%Z); ("total", total)])
              else ret tt) ;;;
             ret processed
         end)
      [] ;;
  postMessage (Success id "processData" (ProcessDataResult processed total)).

End ProcessData.

(** ** handleSimulateWork *)

(** The state the interval callback closes over. *)
Record interval := Interval {
  iv_id : jsid;
  iv_duration : number;
  iv_steps : Z;
  iv_stepDuration : number;
  iv_currentStep : Z
}.

(** The worker: its running intervals, by the handle [setInterval] returned. *)
Record worker := Worker {
  timers : gmap nat interval;
  next_timer : nat
}.

Definition setInterval (w : worker) (iv : interval) : worker :=
  Worker (<[next_timer w := iv]> (timers w)) (S (next_timer w)).

Definition clearInterval (w : worker) (intervalId : nat) : worker :=
  Worker (delete intervalId (timers w)) (next_timer w).

Definition handleSimulateWork (w : worker) (data : payload) (id : jsid) : worker :=
  let duration := default 3000%float (data_duration data) in
  let steps := default 100%Z (data_steps data) in
  let stepDuration := (duration / num_of_Z steps)%float in
  setInterval w (Interval id duration steps stepDuration 0).

(** One run of the interval callback. *)
Definition interval_callback (w : worker) (intervalId : nat) (iv : interval)
  : worker * list response :=
  let currentStep := (iv_currentStep iv + 1)%Z in
  let progress := percent currentStep (iv_steps iv) in
  let report :=
    Progress (iv_id iv) progress
      [("currentStep", currentStep); ("totalSteps", iv_steps iv)] in
  if (iv_steps iv <=? currentStep)%Z then
    (clearInterval w intervalId,
     [report;
      Success (iv_id iv) "simulateWork"
        (SimulateWorkResult "模拟工作完成" (iv_duration iv))])
  else
    (Worker (<[intervalId :=
               Interval (iv_id iv) (iv_duration iv) (iv_steps iv) (iv_stepDuration iv)
                        currentStep]> (timers w)) (next_timer w),
     [report]).

(** ** handleFibonacci *)

(** The inner function [fib]. *)
Definition fib (num : Z) : number :=
  if (num <=? 1)%Z then num_of_Z num
  else snd (for_loop (Z.to_nat (num - 1)) 2
              (fun _ '(a, b) => (b, (a + b)%float)) (0%float, 1%float)).

Definition handleFibonacci (data : payload) (id : jsid) : handler unit :=
  let n := default 20%Z (data_n data) in
  if ((n <? 0) || (1000 <? n))%Z then throw "n必须在0到1000之间"
  else
    sequence <-
      for_loopM (Z.to_nat (n + 1)) 0
        (fun i sequence =>
           let sequence := (sequence ++ [fib i])%list in
           (if progress_due 10 n i
            then postMessage (Progress id (percent i n) [("current", i); ("total", n)])
            else ret tt) ;;;
           ret sequence)
        [] ;;
    postMessage (Success id "fibonacci"
                   (FibonacciResult sequence (Z.of_nat (length sequence))
                      (sequence !! Z.to_nat n))).

(** ** handlePrimeNumbers *)

(** [for (let j = start; j <= limit; j += i) isPrime[j] = false].  The loop
    runs at most [limit] times when [i] is positive; [fuel] bounds it. *)
Fixpoint mark_multiples (fuel : nat) (j i limit : Z) (isPrime : list bool) : list bool :=
  if (j <=? limit)%Z then
    match fuel with
    | O => isPrime
    | S fuel' => mark_multiples fuel' (j + i)%Z i limit (<[Z.to_nat j := false]> isPrime)
    end
  else isPrime.

Definition handlePrimeNumbers (data : payload) (id : jsid) : handler unit :=
  let limit := default 100%Z (data_limit data) in
  if ((limit <? 2) || (100000 <? limit))%Z then throw "limit必须在2到100000之间"
  else
    let isPrime := <[1%nat := false]> (<[0%nat := false]> (replicate (Z.to_nat (limit + 1)) true)) in
    sieved <-
      for_loopM (Z.to_nat (limit - 1)) 2
        (fun i '(isPrime, primes) =>
           let '(isPrime, primes) :=
             match isPrime !! Z.to_nat i with
             | Some true =>
                 (mark_multiples (Z.to_nat limit) (i * i)%Z i limit isPrime,
                  (primes ++ [i])%list)
             | _ => (isPrime, primes)
             end in
           (if progress_due 100 limit i
            then postMessage (Progress id (percent i limit)
                                [("current", i); ("total", limit);
                                 ("primesFound", Z.of_nat (length primes))])
            else ret tt) ;;;
           ret (isPrime, primes))
        (isPrime, []) ;;
    let primes := snd sieved in
    postMessage (Success id "primeNumbers"
                   (PrimeNumbersResult primes (Z.of_nat (length primes)) limit)).

(** ** handleSortArray *)

(** The [switch (algorithm)] on the contents of the copy. *)
Definition sort_switch (algorithm : string) (array : list number) : list number :=
  if same (Some algorithm) "quick" then quickSort array
  else if same (Some algorithm) "merge" then mergeSort array
  else if same (Some algorithm) "bubble" then bubbleSort array
  else nativeSort array.

(** The handler sorts a copy [[...array]].  Here arrays are their contents,
    and a copy is the array itself; the store, where the copy is another
    object than [array], is modelled below. *)
Definition handleSortArray (data : payload) (id : jsid) : handler unit :=
  let algorithm := default "quick" (data_algorithm data) in
  match data_array data with
  | None => throw "输入必须是一个数组"
  | Some array =>
      let sortedArray := sort_switch algorithm array in
      postMessage (Success id "sortArray"
                     (SortArrayResult sortedArray algorithm (Z.of_nat (length array))))
  end.

(* ===================================================================== *)
(** * Arrays in the store *)
(* ===================================================================== *)

(** An array is an object in the store; a variable holds its address.  The
    functions above work on the contents; the ones below work on addresses,
    so that a write through one reference is seen through every other. *)
Abbreviation heap := (gmap nat (list number)).

Definition contents_of (h : heap) (arr : nat) : list number :=
  default [] (h !! arr).

(** A new array: its address is not in use. *)
Definition alloc (h : heap) (contents : list number) : heap * nat :=
  let address := fresh (dom h) in (<[address := contents]> h, address).

(** [arr[j]]: [None] is [undefined]. *)
Definition read (h : heap) (arr j : nat) : option number :=
  h !! arr ≫= (fun contents => contents !! j).

(** [arr[j] = v], for an index within the array (bubbleSort writes nowhere
    else: it writes after reading both elements). *)
Definition write (h : heap) (arr j : nat) (v : number) : heap :=
  alter (fun contents => <[j := v]> contents) arr h.

(** bubbleSort rewrites the array it is given and returns the same address. *)
Definition swap_if_gt_in (arr : nat) (j : nat) (h : heap) : heap :=
  match read h arr j, read h arr (S j) with
  | Some a, Some b => if js_gt a b then write (write h arr j b) arr (S j) a else h
  | _, _ => h
  end.

Definition bubbleSort_in (arr : nat) (h : heap) : heap * nat :=
  let n := length (contents_of h arr) in
  (for_loop (n - 1) 0 (fun i h => for_loop (n - i - 1) 0 (swap_if_gt_in arr) h) h, arr).

(** quickSort only reads [arr].  It returns [arr] itself when there is at
    most one element; otherwise [left], [right], [equal] and the result are
    new arrays (allocated here with the contents the loop gives them). *)
Fixpoint quickSort_in (fuel : nat) (arr : nat) (h : heap) : heap * nat :=
  let contents := contents_of h arr in
  if (length contents <=? 1)%nat then (h, arr)
  else match fuel with
       | O => (h, arr)
       | S fuel' =>
           match contents !! (length contents / 2)%nat with
           | None => (h, arr)
           | Some pivot =>
               let '(left_, right_, equal) := partition3 pivot contents in
               let '(h, left_at) := alloc h left_ in
               let '(h, right_at) := alloc h right_ in
               let '(h, equal_at) := alloc h equal in
               let '(h, sorted_left) := quickSort_in fuel' left_at h in
               let '(h, sorted_right) := quickSort_in fuel' right_at h in
               alloc h (contents_of h sorted_left ++ contents_of h equal_at
                        ++ contents_of h sorted_right)
           end
       end.

(** [merge] reads both arrays and returns a new one. *)
Definition merge_in (left_at right_at : nat) (h : heap) : heap * nat :=
  alloc h (merge (contents_of h left_at) (contents_of h right_at)).

(** mergeSort only reads [arr]: [slice] makes new arrays. *)
Fixpoint mergeSort_in (fuel : nat) (arr : nat) (h : heap) : heap * nat :=
  let contents := contents_of h arr in
  if (length contents <=? 1)%nat then (h, arr)
  else match fuel with
       | O => (h, arr)
       | S fuel' =>
           let mid := (length contents / 2)%nat in
           let '(h, left_slice) := alloc h (take mid contents) in
           let '(h, left_at) := mergeSort_in fuel' left_slice h in
           let '(h, right_slice) := alloc h (drop mid contents) in
           let '(h, right_at) := mergeSort_in fuel' right_slice h in
           merge_in left_at right_at h
       end.

(** The built-in [sort] sorts the array it is called on and returns it. *)
Definition nativeSort_in (arr : nat) (h : heap) : heap * nat :=
  (<[arr := nativeSort (contents_of h arr)]> h, arr).

(** The [switch] of handleSortArray on the store: every branch is given the
    copy [[...array]], a new array with the contents of [array], and returns
    the address of [sortedArray]. *)
Definition sortArray_in (algorithm : string) (array : nat) (h : heap) : heap * nat :=
  let '(h, copy) := alloc h (contents_of h array) in
  let n := length (contents_of h copy) in
  if same (Some algorithm) "quick" then quickSort_in n copy h
  else if same (Some algorithm) "merge" then mergeSort_in n copy h
  else if same (Some algorithm) "bubble" then bubbleSort_in copy h
  else nativeSort_in copy h.

(* ===================================================================== *)
(** * MessageRouter and LifecycleNotifier *)
(* ===================================================================== *)

Inductive handler_name :=
| Calculate | ProcessData | SimulateWork | Fibonacci | PrimeNumbers | SortArray.

(** The [switch (command)]: the six [case] labels, [None] for [default]. *)
Definition dispatch (command : option string) : option handler_name :=
  if same command "calculate" then Some Calculate
  else if same command "processData" then Some ProcessData
  else if same command "simulateWork" then Some SimulateWork
  else if same command "fibonacci" then Some Fibonacci
  else if same command "primeNumbers" then Some PrimeNumbers
  else if same command "sortArray" then Some SortArray
  else None.

Section Worker.

Variable toFixed4 : number -> number.

(** The ['message'] listener. *)
Definition onmessage (w : worker) (e : request) : worker * list response :=
  let command := req_command e in
  let data := req_data e in
  let id := req_id e in
  let '(w', (out, r)) :=
    match dispatch command with
    | Some Calculate => (w, handleCalculate data id)
    | Some ProcessData => (w, handleProcessData toFixed4 data id)
    | Some SimulateWork => (handleSimulateWork w data id, ret tt)
    | Some Fibonacci => (w, handleFibonacci data id)
    | Some PrimeNumbers => (w, handlePrimeNumbers data id)
    | Some SortArray => (w, handleSortArray data id)
    | None =>
        (w, postMessage (Error (Some (id_or_unknown id))
                           ("未知命令: " ++ template command) None))
    end in
  match r with
  | inl error => (w', (out ++ [Error (Some (id_or_unknown id)) error None])%list)
  | inr _ => (w', out)
  end.

(** What the event loop delivers to the worker. *)
Inductive event :=
| Message (e : request)
| Timer (intervalId : nat)
| ErrorEvent (message : string)
| UnhandledRejection (reason : string).

Definition step (w : worker) (ev : event) : worker * list response :=
  match ev with
  | Message e => onmessage w e
  | Timer intervalId =>
      match timers w !! intervalId with
      | Some iv => interval_callback w intervalId iv
      | None => (w, [])
      end
  | ErrorEvent message =>
      (w, [Error (Some "system") "Worker内部错误" (Some message)])
  | UnhandledRejection reason =>
      (w, [Error (Some "system") "未处理的Promise拒绝" (Some reason)])
  end.

Fixpoint run (w : worker) (events : list event) : list response :=
  match events with
  | [] => []
  | ev :: events' => let '(w', out) := step w ev in (out ++ run w' events')%list
  end.

(** The top level of the script: the listeners are registered and the
    ready message is posted, before any event is delivered. *)
Definition supported_commands : list string :=
  ["calculate"; "processData"; "simulateWork"; "fibonacci"; "primeNumbers"; "sortArray"].

Definition startup : worker * list response :=
  (Worker ∅ 1, [Ready "init" "Worker已初始化，等待任务" supported_commands]).

Definition execute (events : list event) : list response :=
  let '(w, out) := startup in (out ++ run w events)%list.

End Worker.

Close Scope string_scope.

(* ===================================================================== *)
(** * The order of the numbers that are not NaN *)
(* ===================================================================== *)

Module NumOrder.

Definition not_nan (x : number) : Prop := is_nan x = false.
Definition fle (x y : number) : Prop := (x <=? y)%float = true.
Definition feq (x y : number) : Prop := (x =? y)%float = true.

Lemma SFcompare_refl f : f <> S754_nan -> SFcompare f f = Some Eq.
Proof.
  destruct f as [s|s| |s m e]; simpl; try congruence; intros _; destruct s; try reflexivity;
  rewrite Z.compare_refl; fold (Pos.compare m m); rewrite Pos.compare_refl; reflexivity.
Qed.

Lemma SFcompare_antisym f g c : SFcompare f g = Some c -> SFcompare g f = Some (CompOpp c).
Proof.
  destruct f as [s|s| |s m e], g as [s'|s'| |s' m' e']; simpl; try congruence;
  try (destruct s; try destruct s'; intros [= <-]; reflexivity).
  try (destruct s'; intros [= <-]; reflexivity).
  try (destruct s'; intros [= <-]; reflexivity).
  fold (Pos.compare m m'). fold (Pos.compare m' m).
  rewrite (Z.compare_antisym e e'), (Pos.compare_antisym m m').
  destruct s, s'; intros [= <-]; try reflexivity;
  destruct (e ?= e'); simpl; try reflexivity; destruct (m ?= m')%positive; reflexivity.
Qed.

Lemma SFcompare_some f g : f <> S754_nan -> g <> S754_nan -> exists c, SFcompare f g = Some c.
Proof. destruct f, g; simpl; try congruence; eauto. Qed.

Lemma SFcompare_some_inv f g c : SFcompare f g = Some c -> f <> S754_nan /\ g <> S754_nan.
Proof. destruct f, g; simpl; try congruence; intros _; split; congruence. Qed.

Lemma SFleb_trans f g h : SFleb f g = true -> SFleb g h = true -> SFleb f h = true.
Proof.
  unfold SFleb.
  destruct f as [s|s| |s m e], g as [s'|s'| |s' m' e'], h as [t|t| |t n k]; simpl; try congruence;
    try (destruct s; try destruct s'; try destruct t; congruence).
  all: try (destruct s'; try destruct t; congruence).
  fold (Pos.compare m m'). fold (Pos.compare m' n). fold (Pos.compare m n).
  destruct s, s', t; try congruence;
  destruct (Z.compare_spec e e'), (Z.compare_spec e' k), (Z.compare_spec e k); try lia; try congruence; subst;
  destruct (Pos.compare_spec m m'), (Pos.compare_spec m' n), (Pos.compare_spec m n); simpl; try lia; try congruence.
Qed.

(** The key of a number: its representation, the sign of zero forgotten. *)
Definition sf_key (f : spec_float) : spec_float :=
  match f with S754_zero _ => S754_zero false | _ => f end.

Definition key (x : number) : spec_float := sf_key (Prim2SF x).

Lemma SFcompare_key f g : SFcompare (sf_key f) (sf_key g) = SFcompare f g.
Proof. destruct f, g; reflexivity. Qed.

Lemma SFcompare_eq_key f g : SFcompare f g = Some Eq -> sf_key f = sf_key g.
Proof.
  destruct f as [s|s| |s m e], g as [s'|s'| |s' m' e']; simpl; try congruence;
  try (destruct s; try destruct s'; congruence).
  try (destruct s'; congruence).
  fold (Pos.compare m m').
  destruct s, s'; try congruence;
  destruct (Z.compare_spec e e'); try congruence;
  destruct (Pos.compare_spec m m'); simpl; try congruence.
Qed.

Lemma not_nan_spec x : not_nan x <-> Prim2SF x <> S754_nan.
Proof.
  unfold not_nan, is_nan. rewrite FloatAxioms.eqb_spec. unfold SFeqb. split.
  - intros H E. rewrite E in H. discriminate.
  - intros H. rewrite (SFcompare_refl _ H). reflexivity.
Qed.

Lemma fle_not_nan x y : fle x y -> not_nan x /\ not_nan y.
Proof.
  unfold fle. rewrite FloatAxioms.leb_spec. unfold SFleb.
  destruct (SFcompare (Prim2SF x) (Prim2SF y)) eqn:E; [|discriminate].
  intros _. apply SFcompare_some_inv in E. rewrite !not_nan_spec. exact E.
Qed.

Lemma fle_refl x : not_nan x -> fle x x.
Proof.
  intros H. unfold fle. rewrite FloatAxioms.leb_spec. unfold SFleb.
  rewrite SFcompare_refl; [reflexivity|]. now apply not_nan_spec.
Qed.

Lemma fle_trans x y z : fle x y -> fle y z -> fle x z.
Proof. unfold fle. rewrite !FloatAxioms.leb_spec. apply SFleb_trans. Qed.

Lemma lt_fle x y : js_lt x y = true -> fle x y.
Proof.
  unfold js_lt, fle. rewrite FloatAxioms.ltb_spec, FloatAxioms.leb_spec. unfold SFltb, SFleb.
  destruct (SFcompare (Prim2SF x) (Prim2SF y)) as [[]|]; congruence.
Qed.

Lemma not_lt_fle x y : not_nan x -> not_nan y -> js_lt x y = false -> fle y x.
Proof.
  rewrite !not_nan_spec. intros Hx Hy. unfold js_lt, fle.
  rewrite FloatAxioms.ltb_spec, FloatAxioms.leb_spec. unfold SFltb, SFleb.
  destruct (SFcompare_some _ _ Hx Hy) as [c E]. rewrite E.
  rewrite (SFcompare_antisym _ _ _ E). destruct c; simpl; congruence.
Qed.

Lemma gt_fle x y : js_gt x y = true -> fle y x.
Proof. apply lt_fle. Qed.

Lemma not_gt_fle x y : not_nan x -> not_nan y -> js_gt x y = false -> fle x y.
Proof. intros Hx Hy. apply not_lt_fle; assumption. Qed.

Lemma fle_antisym_feq x y : fle x y -> fle y x -> feq x y.
Proof.
  unfold fle, feq. rewrite !FloatAxioms.leb_spec, FloatAxioms.eqb_spec. unfold SFleb, SFeqb.
  destruct (SFcompare (Prim2SF x) (Prim2SF y)) as [c|] eqn:E; [|discriminate].
  rewrite (SFcompare_antisym _ _ _ E). destruct c; simpl; congruence.
Qed.

Lemma fle_antisym_key x y : fle x y -> fle y x -> key x = key y.
Proof.
  unfold fle, key. rewrite !FloatAxioms.leb_spec. unfold SFleb. intros H1 H2.
  apply SFcompare_eq_key.
  destruct (SFcompare (Prim2SF x) (Prim2SF y)) as [c|] eqn:E; [|discriminate].
  rewrite (SFcompare_antisym _ _ _ E) in H2. destruct c; simpl in *; congruence.
Qed.

Lemma key_eq_feq x y : not_nan x -> key x = key y -> feq x y.
Proof.
  intros Hx E. unfold feq. rewrite FloatAxioms.eqb_spec. unfold SFeqb.
  rewrite <- SFcompare_key. fold (key x) (key y). rewrite <- E.
  unfold key. rewrite SFcompare_key, SFcompare_refl; [reflexivity|].
  now apply not_nan_spec.
Qed.

End NumOrder.

Import NumOrder.

(* ===================================================================== *)
(** * Correctness of the sorting functions *)
(* ===================================================================== *)

Section ListFacts.
Context {A : Type}.

Lemma for_loop_invariant {St : Type} (Inv : nat -> St -> Prop) (body : nat -> St -> St) :
  forall count start s,
    (forall i st, (start <= i < start + count)%nat -> Inv i st -> Inv (S i) (body i st)) ->
    Inv start s -> Inv (start + count)%nat (for_loop count start body s).
Proof.
  induction count as [|c IH]; intros start s Hstep H0; simpl.
  - now rewrite Nat.add_0_r.
  - replace (start + S c)%nat with (S start + c)%nat by lia.
    apply IH.
    + intros i st Hi. apply Hstep. lia.
    + apply Hstep; [lia | exact H0].
Qed.

Lemma lookup_middle (pre : list A) x rest : (pre ++ x :: rest) !! length pre = Some x.
Proof. induction pre; simpl; auto. Qed.

Lemma insert_middle (pre : list A) x v rest :
  <[length pre := v]> (pre ++ x :: rest) = pre ++ v :: rest.
Proof. induction pre; simpl; [reflexivity | now f_equal]. Qed.

(** Two sorted permutations of one list are equal when the order is
    antisymmetric on its elements. *)
Lemma sorted_perm_unique (R : A -> A -> Prop) :
  forall l1 l2 : list A,
    (forall x y, In x l1 -> In y l1 -> R x y -> R y x -> x = y) ->
    StronglySorted R l1 -> StronglySorted R l2 -> Permutation l1 l2 -> l1 = l2.
Proof.
  induction l1 as [|a l1 IH]; intros l2 Hanti S1 S2 HP.
  - apply Permutation_nil in HP. now subst.
  - destruct l2 as [|b l2].
    { symmetry in HP. apply Permutation_nil in HP. discriminate. }
    apply StronglySorted_inv in S1 as [S1 Fa].
    apply StronglySorted_inv in S2 as [S2 Fb].
    assert (a = b) as ->.
    { assert (Ha : In a (b :: l2)) by (eapply Permutation_in; [exact HP | now left]).
      assert (Hb : In b (a :: l1)) by (eapply Permutation_in; [symmetry; exact HP | now left]).
      destruct Ha as [->|Ha]; [reflexivity|].
      destruct Hb as [->|Hb]; [reflexivity|].
      rewrite List.Forall_forall in Fa, Fb.
      apply Hanti; [now left | now right | now apply Fa | now apply Fb]. }
    f_equal. apply IH; auto.
    + intros x y Hx Hy. apply Hanti; now right.
    + eapply Permutation_cons_inv; exact HP.
Qed.

End ListFacts.

(** ** Sorted lists of numbers *)

Definition ascending (l : list number) : Prop := StronglySorted fle l.
Definition no_nan (l : list number) : Prop := Forall not_nan l.

Lemma no_nan_perm l l' : Permutation l l' -> no_nan l -> no_nan l'.
Proof. intros HP H. unfold no_nan in *. rewrite List.Forall_forall in *. intros x Hx. apply H. eapply Permutation_in; [symmetry; exact HP | exact Hx]. Qed.

Lemma ascending_app l1 l2 :
  ascending l1 -> ascending l2 ->
  (forall x y, In x l1 -> In y l2 -> fle x y) -> ascending (l1 ++ l2).
Proof.
  unfold ascending. induction l1 as [|a l1 IH]; simpl; intros S1 S2 H; [exact S2|].
  apply StronglySorted_inv in S1 as [S1 Fa]. constructor.
  - apply IH; auto.
  - rewrite List.Forall_forall in *. intros y Hy. apply in_app_or in Hy as [Hy|Hy]; auto.
Qed.

(** Sorted permutations of a NaN-free list agree element by element. *)
Lemma ascending_perm_feq l1 l2 :
  no_nan l1 -> ascending l1 -> ascending l2 -> Permutation l1 l2 -> Forall2 feq l1 l2.
Proof.
  intros Hn S1 S2 HP.
  assert (E : map key l1 = map key l2).
  { apply (sorted_perm_unique (fun k1 k2 => SFleb k1 k2 = true)).
    - intros k1 k2 H1 H2 L1 L2.
      apply in_map_iff in H1 as (x & <- & _). apply in_map_iff in H2 as (y & <- & _).
      apply fle_antisym_key; unfold fle; rewrite FloatAxioms.leb_spec.
      + unfold key in L1. unfold SFleb in *. now rewrite SFcompare_key in L1.
      + unfold key in L2. unfold SFleb in *. now rewrite SFcompare_key in L2.
    - clear -S1. induction S1; simpl; constructor; auto.
      rewrite List.Forall_forall in *. intros k Hk. apply in_map_iff in Hk as (y & <- & Hy).
      unfold key, SFleb. rewrite SFcompare_key. specialize (H _ Hy). unfold fle in H.
      now rewrite FloatAxioms.leb_spec in H.
    - clear -S2. induction S2; simpl; constructor; auto.
      rewrite List.Forall_forall in *. intros k Hk. apply in_map_iff in Hk as (y & <- & Hy).
      unfold key, SFleb. rewrite SFcompare_key. specialize (H _ Hy). unfold fle in H.
      now rewrite FloatAxioms.leb_spec in H.
    - now apply Permutation_map. }
  clear S1 S2 HP. revert l2 E. induction Hn as [|x l1 Hx Hn IH]; intros [|y l2] E; simpl in E; try discriminate.
  - constructor.
  - injection E as E1 E2. constructor; [now apply key_eq_feq | now apply IH].
Qed.

(** ** bubbleSort *)

(** One pass, carried along the list: [x] is the element the pass holds. *)
Fixpoint bubble (x : number) (l : list number) : list number :=
  match l with
  | [] => [x]
  | y :: l' => if js_gt x y then y :: bubble x l' else x :: bubble y l'
  end.

Lemma swap_if_gt_middle pre x y rest :
  swap_if_gt (length pre) (pre ++ x :: y :: rest) =
  if js_gt x y then pre ++ y :: x :: rest else pre ++ x :: y :: rest.
Proof.
  unfold swap_if_gt. rewrite lookup_middle.
  replace (S (length pre)) with (length (pre ++ [x])) by (rewrite length_app; simpl; lia).
  replace (pre ++ x :: y :: rest) with ((pre ++ [x]) ++ y :: rest) by (now rewrite <- app_assoc).
  rewrite lookup_middle. destruct (js_gt x y); [|reflexivity].
  rewrite <- app_assoc. simpl.
  replace (length (pre ++ [x])) with (S (length pre)) by (rewrite length_app; simpl; lia).
  rewrite insert_middle.
  replace (pre ++ y :: y :: rest) with ((pre ++ [y]) ++ y :: rest) by (now rewrite <- app_assoc).
  replace (S (length pre)) with (length (pre ++ [y])) by (rewrite length_app; simpl; lia).
  rewrite insert_middle. now rewrite <- app_assoc.
Qed.

Lemma inner_loop_bubble : forall c pre x rest,
  (c <= length rest)%nat ->
  for_loop c (length pre) swap_if_gt (pre ++ x :: rest) =
  pre ++ bubble x (take c rest) ++ drop c rest.
Proof.
  induction c as [|c IH]; intros pre x rest Hc.
  - simpl. now rewrite drop_0.
  - destruct rest as [|y rest]; [simpl in Hc; lia|]. simpl in Hc.
    cbn [for_loop]. rewrite swap_if_gt_middle. cbn [take drop bubble firstn skipn].
    destruct (js_gt x y).
    + replace (pre ++ y :: x :: rest) with ((pre ++ [y]) ++ x :: rest) by (now rewrite <- app_assoc).
      replace (S (length pre)) with (length (pre ++ [y])) by (rewrite length_app; simpl; lia).
      rewrite IH by lia. now rewrite <- app_assoc.
    + replace (pre ++ x :: y :: rest) with ((pre ++ [x]) ++ y :: rest) by (now rewrite <- app_assoc).
      replace (S (length pre)) with (length (pre ++ [x])) by (rewrite length_app; simpl; lia).
      rewrite IH by lia. now rewrite <- app_assoc.
Qed.

Lemma bubble_perm x l : Permutation (bubble x l) (x :: l).
Proof.
  revert x. induction l as [|y l IH]; intros x; simpl; [reflexivity|].
  destruct (js_gt x y).
  - rewrite IH. apply perm_swap.
  - now rewrite IH.
Qed.

Lemma bubble_last x l :
  no_nan (x :: l) ->
  exists pre mx, bubble x l = pre ++ [mx] /\ Forall (fun a => fle a mx) pre.
Proof.
  revert x. induction l as [|y l IH]; intros x Hn; simpl.
  - exists [], x. split; [reflexivity | constructor].
  - unfold no_nan in Hn. apply List.Forall_cons_iff in Hn as [Hx Hn].
    pose proof Hn as Hn'. apply List.Forall_cons_iff in Hn' as [Hy Hl].
    destruct (js_gt x y) eqn:G.
    + destruct (IH x) as (pre & mx & E & F); [constructor; assumption|].
      exists (y :: pre), mx. rewrite E. split; [reflexivity|].
      constructor; [|exact F].
      (* y <= x <= mx *)
      apply fle_trans with x; [now apply gt_fle|].
      assert (In x (pre ++ [mx])).
      { rewrite <- E. eapply Permutation_in; [symmetry; apply bubble_perm | now left]. }
      apply in_app_or in H as [H|[<-|[]]]; [|now apply fle_refl].
      rewrite List.Forall_forall in F. now apply F.
    + destruct (IH y Hn) as (pre & mx & E & F).
      exists (x :: pre), mx. rewrite E. split; [reflexivity|].
      constructor; [|exact F].
      apply fle_trans with y; [now apply not_gt_fle|].
      assert (In y (pre ++ [mx])).
      { rewrite <- E. eapply Permutation_in; [symmetry; apply bubble_perm | now left]. }
      apply in_app_or in H as [H|[<-|[]]]; [|now apply fle_refl].
      rewrite List.Forall_forall in F. now apply F.
Qed.

(** After [i] passes the last [i] elements are in place. *)
Definition bubble_inv (arr : list number) (i : nat) (a : list number) : Prop :=
  Permutation a arr /\
  exists pre suf, a = pre ++ suf /\ length suf = i /\ ascending suf /\
                  (forall p s, In p pre -> In s suf -> fle p s).

Lemma bubble_pass_inv arr i a :
  no_nan arr -> (i < length arr - 1)%nat ->
  bubble_inv arr i a ->
  bubble_inv arr (S i) (for_loop (length arr - i - 1) 0 swap_if_gt a).
Proof.
  intros Hn Hi (HP & pre & suf & -> & Hlen & Hs & Hle).
  assert (Hl : length (pre ++ suf) = length arr) by (now apply Permutation_length).
  rewrite length_app in Hl.
  destruct pre as [|x rest]; [simpl in Hl; lia|]. simpl in Hl.
  replace (length arr - i - 1)%nat with (length rest) by lia.
  pose proof (inner_loop_bubble (length rest) [] x (rest ++ suf)) as E0.
  simpl in E0. simpl. rewrite E0 by (rewrite length_app; lia). clear E0.
  rewrite take_app_length, drop_app_length.
  assert (Hnp : no_nan (x :: rest)).
  { apply (no_nan_perm _ _ (Permutation_sym HP)) in Hn. unfold no_nan in *.
    simpl in Hn. apply List.Forall_cons_iff in Hn as [Hx Hr]. constructor; [exact Hx|].
    apply List.Forall_app in Hr. tauto. }
  destruct (bubble_last x rest Hnp) as (pre' & mx & E & F). rewrite E.
  assert (Hin : forall z, In z (pre' ++ [mx]) -> In z (x :: rest)).
  { intros z Hz. rewrite <- E in Hz. eapply Permutation_in; [apply bubble_perm | exact Hz]. }
  split.
  - rewrite <- E. rewrite bubble_perm. exact HP.
  - exists pre', (mx :: suf). split; [now rewrite <- app_assoc|].
    split; [simpl; lia|]. split.
    + constructor; [exact Hs|]. rewrite List.Forall_forall. intros s Hs'.
      apply Hle; [|exact Hs']. apply Hin. apply in_or_app. right. now left.
    + intros p s Hp [<-|Hs'].
      * rewrite List.Forall_forall in F. now apply F.
      * apply Hle; [|exact Hs']. apply Hin. apply in_or_app. now left.
Qed.

Lemma bubbleSort_inv arr :
  no_nan arr -> bubble_inv arr (length arr - 1) (bubbleSort arr).
Proof.
  intros Hn. unfold bubbleSort.
  apply (for_loop_invariant (bubble_inv arr)
           (fun i a => for_loop (length arr - i - 1) 0 swap_if_gt a) (length arr - 1) 0%nat arr).
  - intros i st Hi Hinv. apply bubble_pass_inv; [exact Hn | lia | exact Hinv].
  - split; [reflexivity|]. exists arr, []. rewrite app_nil_r. repeat split; [constructor | intros p s _ []].
Qed.

Lemma bubbleSort_perm arr : no_nan arr -> Permutation (bubbleSort arr) arr.
Proof. intros Hn. apply (bubbleSort_inv arr Hn). Qed.

Lemma bubbleSort_ascending arr : no_nan arr -> ascending (bubbleSort arr).
Proof.
  intros Hn. destruct (bubbleSort_inv arr Hn) as (HP & pre & suf & E & Hlen & Hs & Hle).
  rewrite E. apply ascending_app; auto.
  assert (Hl : length (pre ++ suf) = length arr) by (rewrite <- E; now apply Permutation_length).
  rewrite length_app in Hl.
  destruct pre as [|x [|y pre]]; [constructor | | simpl in Hl; lia].
  constructor; constructor.
Qed.

(** ** quickSort *)

Lemma js_lt_irrefl x : js_lt x x = false.
Proof.
  unfold js_lt. rewrite FloatAxioms.ltb_spec. unfold SFltb.
  destruct (Prim2SF x) as [s|s| |s m e] eqn:E; simpl; try reflexivity; destruct s; try reflexivity;
    rewrite Z.compare_refl; fold (Pos.compare m m); now rewrite Pos.compare_refl.
Qed.

Lemma partition3_perm pivot arr :
  let '(l, r, e) := partition3 pivot arr in Permutation (l ++ e ++ r) arr.
Proof.
  induction arr as [|x arr IH]; simpl; [reflexivity|].
  destruct (partition3 pivot arr) as [[l r] e].
  destruct (js_lt x pivot); [|destruct (js_gt x pivot)]; simpl.
  - now constructor.
  - rewrite <- IH. rewrite !app_assoc. symmetry. apply Permutation_middle.
  - rewrite <- IH. symmetry. apply Permutation_middle.
Qed.

Lemma partition3_spec pivot arr :
  let '(l, r, e) := partition3 pivot arr in
  Forall (fun x => js_lt x pivot = true) l /\
  Forall (fun x => js_gt x pivot = true) r /\
  Forall (fun x => js_lt x pivot = false /\ js_gt x pivot = false) e.
Proof.
  induction arr as [|x arr IH]; simpl; [repeat split; constructor|].
  destruct (partition3 pivot arr) as [[l r] e]. destruct IH as (Hl & Hr & He).
  destruct (js_lt x pivot) eqn:L; [|destruct (js_gt x pivot) eqn:G]; repeat split; auto.
Qed.

Lemma partition3_length pivot arr :
  let '(l, r, e) := partition3 pivot arr in
  (length l + length r + length e = length arr)%nat /\
  (In pivot arr -> 1 <= length e)%nat.
Proof.
  induction arr as [|x arr IH]; simpl; [split; [reflexivity | intros []]|].
  destruct (partition3 pivot arr) as [[l r] e]. destruct IH as (Hlen & Hin).
  destruct (js_lt x pivot) eqn:L; [|destruct (js_gt x pivot) eqn:G]; simpl; split; try lia.
  - intros [->|H]; [|auto]. rewrite js_lt_irrefl in L. discriminate.
  - intros [->|H]; [|auto]. unfold js_gt in G. fold (js_lt pivot pivot) in G.
    rewrite js_lt_irrefl in G. discriminate.
Qed.

Lemma lookup_In {A} (l : list A) i x : l !! i = Some x -> In x l.
Proof.
  revert i. induction l as [|a l IH]; intros [|i]; simpl; try discriminate.
  - intros [= ->]. now left.
  - intros H. right. eapply IH. exact H.
Qed.

(** The fuel [length arr] is enough: more fuel changes nothing. *)
Lemma quickSort_rec_fuel : forall f1 f2 arr,
  (length arr <= f1)%nat -> (length arr <= f2)%nat ->
  quickSort_rec f1 arr = quickSort_rec f2 arr.
Proof.
  induction f1 as [|f1 IH]; intros f2 arr H1 H2.
  - destruct arr; [|simpl in H1; lia]. destruct f2; reflexivity.
  - destruct f2 as [|f2].
    { destruct arr; [|simpl in H2; lia]. reflexivity. }
    cbn [quickSort_rec]. destruct (length arr <=? 1)%nat eqn:E; [reflexivity|].
    destruct (arr !! (length arr / 2)%nat) as [pivot|] eqn:Ep; [|reflexivity].
    pose proof (partition3_length pivot arr) as Hp.
    destruct (partition3 pivot arr) as [[l r] e]. destruct Hp as (Hlen & Hin).
    specialize (Hin (lookup_In _ _ _ Ep)).
    rewrite (IH f2 l), (IH f2 r) by lia. reflexivity.
Qed.

Lemma quickSort_unfold arr :
  quickSort arr =
  if (length arr <=? 1)%nat then arr
  else match arr !! (length arr / 2)%nat with
       | None => arr
       | Some pivot =>
           let '(l, r, e) := partition3 pivot arr in
           quickSort l ++ e ++ quickSort r
       end.
Proof.
  unfold quickSort. destruct arr as [|x arr]; [reflexivity|].
  cbn [length quickSort_rec].
  destruct (S (length arr) <=? 1)%nat eqn:E; [reflexivity|].
  destruct ((x :: arr) !! (S (length arr) / 2)%nat) as [pivot|] eqn:Ep; [|reflexivity].
  pose proof (partition3_length pivot (x :: arr)) as Hp.
  destruct (partition3 pivot (x :: arr)) as [[l r] e]. destruct Hp as (Hlen & Hin).
  specialize (Hin (lookup_In _ _ _ Ep)). cbn [length] in Hlen.
  rewrite (quickSort_rec_fuel (length arr) (length l) l), (quickSort_rec_fuel (length arr) (length r) r) by lia.
  reflexivity.
Qed.

Lemma quickSort_perm : forall arr, Permutation (quickSort arr) arr.
Proof.
  intros arr. remember (length arr) as n eqn:Hn. revert arr Hn.
  induction n as [n IH] using lt_wf_ind. intros arr Hn.
  rewrite quickSort_unfold.
  destruct (length arr <=? 1)%nat eqn:E; [reflexivity|].
  destruct (arr !! (length arr / 2)%nat) as [pivot|] eqn:Ep; [|reflexivity].
  pose proof (partition3_length pivot arr) as Hp.
  pose proof (partition3_perm pivot arr) as Hperm.
  destruct (partition3 pivot arr) as [[l r] e]. destruct Hp as (Hlen & Hin).
  specialize (Hin (lookup_In _ _ _ Ep)).
  rewrite (IH (length l)), (IH (length r)); try reflexivity; try lia.
  exact Hperm.
Qed.

Lemma quickSort_ascending : forall arr, no_nan arr -> ascending (quickSort arr).
Proof.
  intros arr. remember (length arr) as n eqn:Hn. revert arr Hn.
  induction n as [n IH] using lt_wf_ind. intros arr Hn Hnan.
  rewrite quickSort_unfold.
  destruct (length arr <=? 1)%nat eqn:E.
  { apply Nat.leb_le in E. destruct arr as [|x [|y arr]]; [constructor | | simpl in E; lia].
    constructor; constructor. }
  destruct (arr !! (length arr / 2)%nat) as [pivot|] eqn:Ep.
  2:{ apply lookup_ge_None in Ep. apply Nat.leb_gt in E.
      assert (length arr / 2 < length arr)%nat by (apply Nat.div_lt; lia). lia. }
  pose proof (partition3_length pivot arr) as Hp.
  pose proof (partition3_perm pivot arr) as Hperm.
  pose proof (partition3_spec pivot arr) as Hspec.
  destruct (partition3 pivot arr) as [[l r] e]. destruct Hp as (Hlen & Hin).
  destruct Hspec as (Hl & Hr & He).
  pose proof (lookup_In _ _ _ Ep) as Hpin. specialize (Hin Hpin).
  assert (Hnp : not_nan pivot).
  { unfold no_nan in Hnan. rewrite List.Forall_forall in Hnan. now apply Hnan. }
  assert (Hnl : no_nan (l ++ e ++ r)) by (eapply no_nan_perm; [symmetry; exact Hperm | exact Hnan]).
  unfold no_nan in Hnl. apply List.Forall_app in Hnl as [Hnl Hne].
  apply List.Forall_app in Hne as [Hne Hnr].
  rewrite List.Forall_forall in Hl, Hr, He, Hnl, Hne, Hnr.
  assert (Hle_e : forall x, In x e -> fle x pivot /\ fle pivot x).
  { intros x Hx. destruct (He x Hx) as [L G]. split.
    - apply not_gt_fle; auto.
    - apply not_lt_fle; auto. }
  apply ascending_app; [| apply ascending_app |].
  - apply (IH (length l)); [lia | reflexivity |]. unfold no_nan. now rewrite List.Forall_forall.
  - clear -Hle_e. induction e as [|x e IHe]; [constructor|].
    constructor.
    + apply IHe. intros y Hy. apply Hle_e. now right.
    + rewrite List.Forall_forall. intros y Hy.
      apply fle_trans with pivot; [apply Hle_e; now left | apply Hle_e; now right].
  - apply (IH (length r)); [lia | reflexivity |]. unfold no_nan. now rewrite List.Forall_forall.
  - intros x y Hx Hy. apply fle_trans with pivot; [now apply Hle_e|].
    apply gt_fle. apply Hr. eapply Permutation_in; [apply quickSort_perm | exact Hy].
  - intros x y Hx Hy. apply fle_trans with pivot.
    + apply lt_fle. apply Hl. eapply Permutation_in; [apply quickSort_perm | exact Hx].
    + apply in_app_or in Hy as [Hy|Hy]; [now apply Hle_e|].
      apply gt_fle. apply Hr. eapply Permutation_in; [apply quickSort_perm | exact Hy].
Qed.

(** ** mergeSort *)

Lemma merge_nil_r l : merge l [] = l.
Proof. destruct l; reflexivity. Qed.

Lemma merge_cons x l y r :
  merge (x :: l) (y :: r) =
  if js_lt x y then x :: merge l (y :: r) else y :: merge (x :: l) r.
Proof. reflexivity. Qed.

Lemma merge_perm : forall l r, Permutation (merge l r) (l ++ r).
Proof.
  induction l as [|x l IHl]; intros r; [reflexivity|].
  induction r as [|y r IHr]; [rewrite merge_nil_r, app_nil_r; reflexivity|].
  rewrite merge_cons. destruct (js_lt x y).
  - simpl. constructor. apply IHl.
  - rewrite IHr. simpl. rewrite <- Permutation_middle. apply perm_swap.
Qed.

Lemma merge_ascending : forall l r,
  no_nan l -> no_nan r -> ascending l -> ascending r -> ascending (merge l r).
Proof.
  induction l as [|x l IHl]; intros r Hnl Hnr Sl Sr; [exact Sr|].
  induction r as [|y r IHr]; [rewrite merge_nil_r; exact Sl|].
  rewrite merge_cons.
  unfold no_nan in *.
  pose proof Hnl as Hnl'. pose proof Hnr as Hnr'.
  apply List.Forall_cons_iff in Hnl' as [Hx Hnl']. apply List.Forall_cons_iff in Hnr' as [Hy Hnr'].
  pose proof Sl as Sl'. pose proof Sr as Sr'.
  apply StronglySorted_inv in Sl' as [Sl' Fx]. apply StronglySorted_inv in Sr' as [Sr' Fy].
  rewrite List.Forall_forall in Fx, Fy.
  destruct (js_lt x y) eqn:L.
  - constructor; [apply IHl; auto|].
    rewrite List.Forall_forall. intros z Hz.
    eapply Permutation_in in Hz; [|apply merge_perm].
    apply in_app_or in Hz as [Hz|[<-|Hz]]; [now apply Fx | now apply lt_fle |].
    apply fle_trans with y; [now apply lt_fle | now apply Fy].
  - constructor; [apply IHr; auto|].
    rewrite List.Forall_forall. intros z Hz.
    eapply Permutation_in in Hz; [|apply merge_perm].
    assert (Hyx : fle y x) by (apply not_lt_fle; auto).
    apply in_app_or in Hz as [[<-|Hz]|Hz]; [exact Hyx | | now apply Fy].
    apply fle_trans with x; [exact Hyx | now apply Fx].
Qed.

Lemma mergeSort_rec_fuel : forall f1 f2 arr,
  (length arr <= f1)%nat -> (length arr <= f2)%nat ->
  mergeSort_rec f1 arr = mergeSort_rec f2 arr.
Proof.
  induction f1 as [|f1 IH]; intros f2 arr H1 H2.
  - destruct arr; [|simpl in H1; lia]. destruct f2; reflexivity.
  - destruct f2 as [|f2].
    { destruct arr; [|simpl in H2; lia]. reflexivity. }
    cbn [mergeSort_rec]. destruct (length arr <=? 1)%nat eqn:E; [reflexivity|].
    apply Nat.leb_gt in E. cbv zeta.
    assert (0 < length arr / 2 < length arr)%nat.
    { split; [apply Nat.div_str_pos; lia | apply Nat.div_lt; lia]. }
    rewrite (IH f2 (take _ arr)), (IH f2 (drop _ arr)); try reflexivity;
      rewrite ?length_take, ?length_drop; lia.
Qed.

Lemma mergeSort_unfold arr :
  mergeSort arr =
  if (length arr <=? 1)%nat then arr
  else let mid := (length arr / 2)%nat in
       merge (mergeSort (take mid arr)) (mergeSort (drop mid arr)).
Proof.
  unfold mergeSort. destruct arr as [|x arr]; [reflexivity|].
  cbn [length mergeSort_rec].
  destruct (S (length arr) <=? 1)%nat eqn:E; [reflexivity|].
  apply Nat.leb_gt in E.
  assert (0 < S (length arr) / 2 < S (length arr))%nat.
  { split; [apply Nat.div_str_pos; lia | apply Nat.div_lt; lia]. }
  cbv zeta.
  rewrite (mergeSort_rec_fuel (length arr) (length (take (S (length arr) / 2) (x :: arr)))),
          (mergeSort_rec_fuel (length arr) (length (drop (S (length arr) / 2) (x :: arr))));
    try reflexivity; rewrite ?length_take, ?length_drop; cbn [length]; lia.
Qed.

Lemma mergeSort_perm : forall arr, Permutation (mergeSort arr) arr.
Proof.
  intros arr. remember (length arr) as n eqn:Hn. revert arr Hn.
  induction n as [n IH] using lt_wf_ind. intros arr Hn.
  rewrite mergeSort_unfold.
  destruct (length arr <=? 1)%nat eqn:E; [reflexivity|].
  apply Nat.leb_gt in E. cbv zeta.
  assert (0 < length arr / 2 < length arr)%nat.
  { split; [apply Nat.div_str_pos; lia | apply Nat.div_lt; lia]. }
  rewrite merge_perm.
  rewrite (IH (length (take (length arr / 2) arr))), (IH (length (drop (length arr / 2) arr)));
    try reflexivity; rewrite ?length_take, ?length_drop; try lia.
  now rewrite take_drop.
Qed.

Lemma mergeSort_ascending : forall arr, no_nan arr -> ascending (mergeSort arr).
Proof.
  intros arr. remember (length arr) as n eqn:Hn. revert arr Hn.
  induction n as [n IH] using lt_wf_ind. intros arr Hn Hnan.
  rewrite mergeSort_unfold.
  destruct (length arr <=? 1)%nat eqn:E.
  { apply Nat.leb_le in E. destruct arr as [|x [|y arr]]; [constructor | | simpl in E; lia].
    constructor; constructor. }
  apply Nat.leb_gt in E. cbv zeta.
  assert (0 < length arr / 2 < length arr)%nat.
  { split; [apply Nat.div_str_pos; lia | apply Nat.div_lt; lia]. }
  assert (Hsplit : no_nan (take (length arr / 2) arr) /\ no_nan (drop (length arr / 2) arr)).
  { unfold no_nan in *. rewrite <- (take_drop (length arr / 2) arr) in Hnan at 1.
    now apply List.Forall_app in Hnan. }
  destruct Hsplit as [Ht Hd].
  apply merge_ascending.
  - eapply no_nan_perm; [symmetry; apply mergeSort_perm | exact Ht].
  - eapply no_nan_perm; [symmetry; apply mergeSort_perm | exact Hd].
  - apply (IH (length (take (length arr / 2) arr))); auto. rewrite length_take. lia.
  - apply (IH (length (drop (length arr / 2) arr))); auto. rewrite length_drop. lia.
Qed.

(** ** The reference sort *)

Lemma insert_sorted_perm x l : Permutation (insert_sorted x l) (x :: l).
Proof.
  induction l as [|y l IH]; simpl; [reflexivity|].
  destruct (x <=? y)%float; [reflexivity|]. rewrite IH. apply perm_swap.
Qed.

Lemma refSort_perm l : Permutation (refSort l) l.
Proof.
  induction l as [|x l IH]; simpl; [reflexivity|].
  rewrite insert_sorted_perm. now constructor.
Qed.

Lemma leb_false_fle x y : not_nan x -> not_nan y -> (x <=? y)%float = false -> fle y x.
Proof.
  rewrite !not_nan_spec. intros Hx Hy. unfold fle.
  rewrite !FloatAxioms.leb_spec. unfold SFleb.
  destruct (SFcompare_some _ _ Hx Hy) as [c E]. rewrite E.
  rewrite (SFcompare_antisym _ _ _ E). destruct c; simpl; congruence.
Qed.

Lemma insert_sorted_ascending x l :
  not_nan x -> no_nan l -> ascending l -> ascending (insert_sorted x l).
Proof.
  intros Hx. induction l as [|y l IH]; intros Hn Hs; simpl.
  - constructor; constructor.
  - unfold no_nan in Hn. apply List.Forall_cons_iff in Hn as [Hy Hn].
    pose proof Hs as Hs'. apply StronglySorted_inv in Hs' as [Hs' Fy].
    destruct (x <=? y)%float eqn:L.
    + constructor; [exact Hs|]. constructor; [exact L|].
      rewrite List.Forall_forall in *. intros z Hz. apply fle_trans with y; [exact L | now apply Fy].
    + constructor; [now apply IH|].
      rewrite List.Forall_forall in *. intros z Hz.
      eapply Permutation_in in Hz; [|apply insert_sorted_perm].
      destruct Hz as [<-|Hz]; [now apply leb_false_fle | now apply Fy].
Qed.

Lemma refSort_ascending l : no_nan l -> ascending (refSort l).
Proof.
  induction l as [|x l IH]; intros Hn; simpl; [constructor|].
  unfold no_nan in Hn. apply List.Forall_cons_iff in Hn as [Hx Hn].
  apply insert_sorted_ascending; auto.
  eapply no_nan_perm; [symmetry; apply refSort_perm | exact Hn].
Qed.

(* ===================================================================== *)
(** * The sort functions against the reference (C1, C3) *)
(* ===================================================================== *)

(** [res] is the ascending arrangement of [arr]: sorted, a permutation, and
    equal to the reference element by element under [==]. *)
Definition sorted_like_reference (arr res : list number) : Prop :=
  ascending res /\ Permutation res arr /\ Forall2 feq res (refSort arr).

Lemma sorted_like_reference_intro arr res :
  no_nan arr -> ascending res -> Permutation res arr -> sorted_like_reference arr res.
Proof.
  intros Hn Hs Hp. split; [exact Hs|]. split; [exact Hp|].
  apply ascending_perm_feq.
  - eapply no_nan_perm; [symmetry; exact Hp | exact Hn].
  - exact Hs.
  - now apply refSort_ascending.
  - rewrite Hp. symmetry. apply refSort_perm.
Qed.

(** C1, amended: on every sequence of numbers none of which is NaN, each of
    quickSort, mergeSort and bubbleSort returns an ascending permutation of
    the input that equals the reference sort element by element (under
    [==], which identifies +0 and -0); the reference itself is an ascending
    permutation of the input. *)
Theorem sorts_agree_with_reference (arr : list number) :
  no_nan arr ->
  sorted_like_reference arr (quickSort arr) /\
  sorted_like_reference arr (mergeSort arr) /\
  sorted_like_reference arr (bubbleSort arr) /\
  ascending (refSort arr) /\ Permutation (refSort arr) arr.
Proof.
  intros Hn.
  split; [apply sorted_like_reference_intro; auto using quickSort_ascending, quickSort_perm|].
  split; [apply sorted_like_reference_intro; auto using mergeSort_ascending, mergeSort_perm|].
  split; [apply sorted_like_reference_intro; auto using bubbleSort_ascending, bubbleSort_perm|].
  split; [now apply refSort_ascending | apply refSort_perm].
Qed.

Lemma sorts_agree_with_reference_witness :
  no_nan [3; 1; 2; 1; -0; 0; infinity; 5; 4]%float /\
  (sorted_like_reference [3; 1; 2; 1; -0; 0; infinity; 5; 4]%float
     (quickSort [3; 1; 2; 1; -0; 0; infinity; 5; 4]%float) /\
   sorted_like_reference [3; 1; 2; 1; -0; 0; infinity; 5; 4]%float
     (mergeSort [3; 1; 2; 1; -0; 0; infinity; 5; 4]%float) /\
   sorted_like_reference [3; 1; 2; 1; -0; 0; infinity; 5; 4]%float
     (bubbleSort [3; 1; 2; 1; -0; 0; infinity; 5; 4]%float) /\
   ascending (refSort [3; 1; 2; 1; -0; 0; infinity; 5; 4]%float) /\
   Permutation (refSort [3; 1; 2; 1; -0; 0; infinity; 5; 4]%float)
     [3; 1; 2; 1; -0; 0; infinity; 5; 4]%float).
Proof.
  assert (H : no_nan [3; 1; 2; 1; -0; 0; infinity; 5; 4]%float)
    by (repeat constructor).
  split; [exact H | exact (sorts_agree_with_reference _ H)].
Defined.

(** C1 as stated fails on a sequence that holds NaN: quickSort and
    bubbleSort return [2, NaN, 1] unchanged, mergeSort returns [1, NaN, 2];
    the three do not agree, and [2, NaN, 1] is not ascending. *)
Lemma sorts_disagree_on_nan :
  quickSort [2; nan; 1]%float = [2; nan; 1]%float /\
  mergeSort [2; nan; 1]%float = [1; nan; 2]%float /\
  bubbleSort [2; nan; 1]%float = [2; nan; 1]%float /\
  ~ (exists ref, quickSort [2; nan; 1]%float = ref /\ mergeSort [2; nan; 1]%float = ref) /\
  ~ ascending (quickSort [2; nan; 1]%float).
Proof.
  repeat split; try reflexivity.
  - intros (ref & H1 & H2). rewrite <- H2 in H1. vm_compute in H1.
    apply (f_equal (fun l => match l with x :: _ => (x <? 2)%float | [] => false end)) in H1.
    vm_compute in H1. discriminate.
  - intros H. vm_compute in H. apply StronglySorted_inv in H as [_ H].
    apply List.Forall_cons_iff in H as [H _]. vm_compute in H. discriminate.
Qed.

Lemma feq_not_lt x y : feq x y -> js_lt x y = false.
Proof.
  unfold feq, js_lt. rewrite FloatAxioms.eqb_spec, FloatAxioms.ltb_spec.
  unfold SFeqb, SFltb. destruct (SFcompare _ _) as [[]|]; congruence.
Qed.

(** C3, amended: when the heads of the two halves compare equal, [merge]
    takes the head of the right half first; mergeSort therefore exchanges
    two equal neighbours and is not stable. *)
Theorem merge_tie_takes_right (x y : number) (l r : list number) :
  feq x y ->
  merge (x :: l) (y :: r) = y :: merge (x :: l) r /\
  mergeSort [x; y] = [y; x].
Proof.
  intros H. apply feq_not_lt in H. split.
  - rewrite merge_cons, H. reflexivity.
  - rewrite mergeSort_unfold. cbn -[merge]. rewrite merge_cons, H. reflexivity.
Qed.

Lemma merge_tie_takes_right_witness :
  feq 0%float (-0)%float /\
  merge [0; 1]%float [-0; 2]%float = (-0)%float :: merge [0; 1]%float [2]%float /\
  mergeSort [0; -0]%float = [-0; 0]%float.
Proof.
  assert (H : feq 0%float (-0)%float) by reflexivity.
  split; [exact H | exact (merge_tie_takes_right 0%float (-0)%float [1]%float [2]%float H)].
Defined.

(** C3 as stated fails: +0 and -0 compare equal, [merge] takes the right
    one first, and mergeSort returns them in the opposite order. *)
Lemma merge_not_stable :
  feq 0%float (-0)%float /\
  merge [0]%float [-0]%float = [-0; 0]%float /\
  mergeSort [0; -0]%float = [-0; 0]%float /\
  [-0; 0]%float <> [0; -0]%float.
Proof.
  repeat split.
  intros H.
  apply (f_equal (fun l => match l with x :: _ => (1 / x <? 0)%float | [] => false end)) in H.
  vm_compute in H. discriminate.
Qed.

(* ===================================================================== *)
(** * What a handler emits *)
(* ===================================================================== *)

Definition progress_for (id : jsid) (r : response) : Prop :=
  exists progress counters, r = Progress id progress counters.

Definition success_for (id : jsid) (command : string) (r : response) : Prop :=
  exists body, r = Success id command body.

(** The handler returns after progress messages and one success message. *)
Definition completes (id : jsid) (command : string) (m : handler unit) : Prop :=
  exists reports s,
    m = ((reports ++ [s])%list, inr tt) /\
    Forall (progress_for id) reports /\ success_for id command s.

(** The handler throws before it has emitted anything. *)
Definition fails_first (m : handler unit) : Prop :=
  exists error, m = ([], inl error).

(** The percentages of the progress messages of a trace, in order. *)
Definition progress_values (out : list response) : list number :=
  flat_map (fun r => match r with Progress _ p _ => [p] | _ => [] end) out.

Lemma progress_values_app out1 out2 :
  progress_values (out1 ++ out2) = (progress_values out1 ++ progress_values out2)%list.
Proof. unfold progress_values. now rewrite flat_map_app. Qed.

(** The state a loop ends in when its body is [next]. *)
Fixpoint loop_state {St : Type} (count : nat) (i : Z) (next : Z -> St -> St) (s : St) : St :=
  match count with
  | O => s
  | S count' => loop_state count' (i + 1) next (next i s)
  end.

(** A loop whose body updates its state and reports progress when due never
    throws; it reports at the due indices, in increasing order. *)
Lemma for_loopM_reports {St : Type} (id : jsid) (due : Z -> bool) (value : Z -> number)
    (next : Z -> St -> St) (body : Z -> St -> handler St) :
  forall count i s,
    (forall j s, i <= j < i + Z.of_nat count -> exists counters,
        body j s = ((if due j then [Progress id (value j) counters] else []), inr (next j s))) ->
    exists out,
      for_loopM count i body s = (out, inr (loop_state count i next s)) /\
      Forall (progress_for id) out /\
      progress_values out = map value (filter (fun j => due j = true) (seqZ i (Z.of_nat count))).
Proof.
  induction count as [|count IH]; intros i s Hbody.
  - exists []. repeat split; constructor.
  - cbn [for_loopM loop_state]. destruct (Hbody i s) as (counters & E1); [lia|].
    destruct (IH (i + 1) (next i s)) as (out & E & F & V).
    { intros j s2 Hj. apply Hbody. lia. }
    unfold bind. rewrite E1, E.
    eexists. split; [reflexivity|].
    replace (Z.of_nat (S count)) with (Z.succ (Z.of_nat count)) by lia.
    rewrite seqZ_cons by lia. replace (Z.succ i) with (i + 1) by lia.
    replace (Z.pred (Z.succ (Z.of_nat count))) with (Z.of_nat count) by lia.
    rewrite progress_values_app, V.
    destruct (due i) eqn:D; simpl.
    + rewrite filter_cons_True by exact D. split; [|reflexivity].
      constructor; [eexists _, _; reflexivity | exact F].
    + rewrite filter_cons_False by (rewrite D; discriminate). split; [exact F | reflexivity].
Qed.

Lemma bind_ret_l {A B} (a : A) (k : A -> handler B) : bind (ret a) k = k a.
Proof. unfold bind, ret. destruct (k a) as [out r]. reflexivity. Qed.

Lemma report_step {St : Type} id (due : bool) (p : number) counters (s' : St) :
  ((if due then postMessage (Progress id p counters) else ret tt) ;;; ret s') =
  ((if due then [Progress id p counters] else []), inr s').
Proof. destruct due; reflexivity. Qed.

(** ** The synchronous handlers *)

Lemma handleCalculate_outcome data id :
  completes id "calculate" (handleCalculate data id) \/ fails_first (handleCalculate data id).
Proof.
  unfold handleCalculate.
  repeat match goal with
         | |- context [if ?c then _ else _] => destruct c
         end;
    try (left; eexists [], _; split; [reflexivity|]; split; [constructor | eexists; reflexivity]).
  right. eexists. reflexivity.
Qed.

(** What the loop of handleProcessData does to [processed]. *)
Definition processData_next (toFixed4 : number -> number) (data : payload)
    (i : Z) (processed : list number) : list number :=
  match data_dataset data !! Z.to_nat i with
  | None => processed
  | Some value =>
      (processed ++
       [toFixed4 (apply_transform (data_transform data) (data_dataset data) value)])%list
  end.

Lemma handleProcessData_trace toFixed4 data id :
  let total := Z.of_nat (length (data_dataset data)) in
  exists reports processed,
    handleProcessData toFixed4 data id =
      ((reports ++ [Success id "processData" (ProcessDataResult processed total)])%list, inr tt) /\
    Forall (progress_for id) reports /\
    progress_values reports =
      map (fun i => percent i total)
          (filter (fun i => progress_due 10 total i = true) (seqZ 0 total)).
Proof.
  intros total. unfold handleProcessData. fold total.
  match goal with
  | |- context [for_loopM ?cnt ?start ?bd ?st] =>
      destruct (for_loopM_reports id (progress_due 10 total) (fun i => percent i total)
                  (processData_next toFixed4 data) bd cnt start st) as (out & E & F & V)
  end.
  { intros j s Hj. unfold processData_next.
    destruct (data_dataset data !! Z.to_nat j) as [v|] eqn:L.
    - eexists. cbv zeta. apply report_step.
    - apply lookup_ge_None in L. lia. }
  eexists out, _. rewrite E. split; [reflexivity|]. split; [exact F | exact V].
Qed.

(** ** handleFibonacci *)

Lemma fib_loop_state : forall count i (s : list number),
  loop_state count i (fun i sequence => (sequence ++ [fib i])%list) s =
  (s ++ map fib (seqZ i (Z.of_nat count)))%list.
Proof.
  induction count as [|count IH]; intros i s.
  - simpl. now rewrite app_nil_r.
  - cbn [loop_state]. rewrite IH.
    replace (Z.of_nat (S count)) with (Z.succ (Z.of_nat count)) by lia.
    rewrite (seqZ_cons i) by lia. replace (Z.succ i) with (i + 1) by lia.
    replace (Z.pred (Z.succ (Z.of_nat count))) with (Z.of_nat count) by lia.
    simpl. now rewrite <- app_assoc.
Qed.

Lemma handleFibonacci_trace data id :
  let n := default 20 (data_n data) in
  0 <= n <= 1000 ->
  exists reports,
    handleFibonacci data id =
      ((reports ++ [Success id "fibonacci"
                      (FibonacciResult (map fib (seqZ 0 (n + 1))) (n + 1) (Some (fib n)))])%list,
       inr tt) /\
    Forall (progress_for id) reports /\
    progress_values reports =
      map (fun i => percent i n)
          (filter (fun i => progress_due 10 n i = true) (seqZ 0 (n + 1))).
Proof.
  intros n Hn. unfold handleFibonacci. fold n.
  replace ((n <? 0) || (1000 <? n)) with false
    by (destruct (Z.ltb_spec n 0), (Z.ltb_spec 1000 n); try lia; reflexivity).
  match goal with
  | |- context [for_loopM ?cnt ?start ?bd ?st] =>
      destruct (for_loopM_reports id (progress_due 10 n) (fun i => percent i n)
                  (fun i sequence => (sequence ++ [fib i])%list) bd cnt start st)
        as (out & E & F & V)
  end.
  { intros j s Hj. eexists. apply report_step. }
  rewrite fib_loop_state in E. rewrite Z2Nat.id in E, V by lia. simpl in E.
  exists out. rewrite E. split; [|split; [exact F | exact V]].
  cbn [bind postMessage]. repeat f_equal.
  - rewrite length_map, length_seqZ. lia.
  - rewrite list_lookup_fmap. rewrite lookup_seqZ_lt by lia. simpl. f_equal. f_equal. lia.
Qed.

Lemma handleFibonacci_throws data id :
  let n := default 20 (data_n data) in
  n < 0 \/ 1000 < n ->
  handleFibonacci data id = ([], inl "n必须在0到1000之间"%string).
Proof.
  intros n Hn. unfold handleFibonacci. fold n.
  replace ((n <? 0) || (1000 <? n)) with true; [reflexivity|].
  destruct (Z.ltb_spec n 0), (Z.ltb_spec 1000 n); try lia; reflexivity.
Qed.

(* ===================================================================== *)
(** * The sieve of handlePrimeNumbers (C8) *)
(* ===================================================================== *)

Lemma loop_state_invariant {St : Type} (Inv : Z -> St -> Prop) (next : Z -> St -> St) :
  forall count i s,
    (forall j st, i <= j < i + Z.of_nat count -> Inv j st -> Inv (j + 1) (next j st)) ->
    Inv i s -> Inv (i + Z.of_nat count) (loop_state count i next s).
Proof.
  induction count as [|count IH]; intros i s Hstep H0.
  - simpl. now rewrite Z.add_0_r.
  - cbn [loop_state]. replace (i + Z.of_nat (S count)) with ((i + 1) + Z.of_nat count) by lia.
    apply IH.
    + intros j st Hj. apply Hstep. lia.
    + apply Hstep; [lia | exact H0].
Qed.

(** ** Prime divisors *)

Lemma prime_or_divisor k : 1 < k -> Z.prime k \/ exists n, 1 < n < k /\ (n | k).
Proof.
  intros Hk. destruct (prime_dec k) as [P|N].
  - left. now apply prime_alt.
  - right. now apply not_prime_divide.
Qed.

Lemma prime_divisor_exists : forall k, 1 < k -> exists p, Z.prime p /\ (p | k).
Proof.
  intros k. remember (Z.to_nat k) as m eqn:Hm. revert k Hm.
  induction m as [m IH] using lt_wf_ind. intros k Hm Hk.
  destruct (prime_or_divisor k Hk) as [P|(n & Hn & D)].
  - exists k. split; [exact P | apply Z.divide_refl].
  - destruct (IH (Z.to_nat n)) with (k := n) as (p & Pp & Dp); [lia | reflexivity | lia |].
    exists p. split; [exact Pp | now apply Z.divide_trans with n].
Qed.

(** A composite number has a prime divisor that is at most its square root. *)
Lemma composite_small_prime_divisor k :
  1 < k -> ~ Z.prime k -> exists p, Z.prime p /\ p * p <= k /\ (p | k).
Proof.
  intros Hk N. destruct (prime_or_divisor k Hk) as [P|(n & Hn & [m Hm])]; [contradiction|].
  assert (1 < m) by nia.
  destruct (Z.le_ge_cases n m) as [L|L].
  - destruct (prime_divisor_exists n) as (p & Pp & Dp); [lia|].
    exists p. split; [exact Pp|]. split.
    + assert (p <= n) by (apply Z.divide_pos_le; [lia | exact Dp]).
      pose proof (Z.prime_ge_2 p Pp). nia.
    + apply Z.divide_trans with n; [exact Dp | exists m; lia].
  - destruct (prime_divisor_exists m) as (p & Pp & Dp); [lia|].
    exists p. split; [exact Pp|]. split.
    + assert (p <= m) by (apply Z.divide_pos_le; [lia | exact Dp]).
      pose proof (Z.prime_ge_2 p Pp). nia.
    + apply Z.divide_trans with m; [exact Dp | exists n; lia].
Qed.

(** ** The inner loop *)

Lemma mark_multiples_spec i limit : 0 < i ->
  forall fuel j isPrime,
    0 <= j -> (Z.to_nat (limit + 1 - j) <= fuel)%nat ->
    (Z.to_nat limit < length isPrime)%nat ->
    length (mark_multiples fuel j i limit isPrime) = length isPrime /\
    forall k, 0 <= k <= limit ->
      (j <= k /\ (i | k - j) ->
       mark_multiples fuel j i limit isPrime !! Z.to_nat k = Some false) /\
      (~ (j <= k /\ (i | k - j)) ->
       mark_multiples fuel j i limit isPrime !! Z.to_nat k = isPrime !! Z.to_nat k).
Proof.
  intros Hi. induction fuel as [|fuel IH]; intros j isPrime Hj Hfuel Hlen.
  - assert (limit < j) by lia. simpl.
    replace (j <=? limit) with false by (symmetry; apply Z.leb_gt; lia).
    split; [reflexivity|]. intros k Hk. split; [lia | reflexivity].
  - cbn [mark_multiples]. destruct (Z.leb_spec j limit) as [L|L].
    + destruct (IH (j + i) (<[Z.to_nat j := false]> isPrime)) as [Hl Hk];
        [lia | lia | rewrite length_insert; lia |].
      rewrite length_insert in Hl. split; [exact Hl|].
      intros k Hkl. destruct (Hk k Hkl) as [Hyes Hno].
      destruct (decide (k = j)) as [->|Hne].
      * split; [|intros N; exfalso; apply N; split; [lia | exists 0; lia]].
        intros _. rewrite Hno by lia. apply list_lookup_insert_eq. lia.
      * split.
        -- intros [H1 [q Hq]]. apply Hyes. assert (0 < q) by nia.
           split; [nia | exists (q - 1); lia].
        -- intros N. rewrite Hno.
           ++ apply list_lookup_insert_ne. lia.
           ++ intros [H1 [q Hq]]. apply N. split; [lia | exists (q + 1); lia].
    + split; [reflexivity|]. intros k Hk. split; [lia | reflexivity].
Qed.

(** ** The outer loop *)

Definition sieve_next (limit i : Z) (st : list bool * list Z) : list bool * list Z :=
  match fst st !! Z.to_nat i with
  | Some true =>
      (mark_multiples (Z.to_nat limit) (i * i) i limit (fst st), (snd st ++ [i])%list)
  | _ => st
  end.

(** [k] has been crossed out before the loop reaches [i]. *)
Definition crossed (i k : Z) : Prop :=
  k < 2 \/ exists p, Z.prime p /\ p < i /\ p * p <= k /\ (p | k).

Definition sieve_inv (limit i : Z) (st : list bool * list Z) : Prop :=
  length (fst st) = Z.to_nat (limit + 1) /\
  (forall k, 0 <= k <= limit ->
     exists b, fst st !! Z.to_nat k = Some b /\ (b = false <-> crossed i k)) /\
  StronglySorted Z.lt (snd st) /\
  (forall p, In p (snd st) <-> Z.prime p /\ p < i).

Lemma crossed_not_prime i k : k <= i -> crossed i k -> ~ Z.prime k.
Proof.
  intros Hk [H|(p & Pp & Hp & Hsq & D)] [H1 H2]; [lia|].
  pose proof (Z.prime_ge_2 p Pp). apply (H2 p); [nia | exact D].
Qed.

Lemma not_crossed_prime i : 2 <= i -> ~ crossed i i -> Z.prime i.
Proof.
  intros Hi N. destruct (prime_dec i) as [P|NP]; [now apply prime_alt|].
  exfalso. apply N. right.
  destruct (composite_small_prime_divisor i) as (p & Pp & Hsq & D).
  - lia.
  - now rewrite prime_alt.
  - exists p. pose proof (Z.prime_ge_2 p Pp). split; [exact Pp|].
    split; [nia|]. split; [exact Hsq | exact D].
Qed.

Lemma crossed_mono i j k : i <= j -> crossed i k -> crossed j k.
Proof.
  intros Hij [H|(p & Pp & Hp & Hsq & Dp)]; [now left|]. right.
  exists p. split; [exact Pp|]. split; [lia|]. split; [exact Hsq | exact Dp].
Qed.

Lemma crossed_succ i k :
  crossed (i + 1) k -> crossed i k \/ (Z.prime i /\ i * i <= k /\ (i | k)).
Proof.
  intros [H|(p & Pp & Hp & Hsq & Dp)]; [left; now left|].
  destruct (decide (p = i)) as [->|Hne]; [right; tauto|].
  left. right. exists p. split; [exact Pp|]. split; [lia|]. split; [exact Hsq | exact Dp].
Qed.

Lemma sieve_step limit i st :
  2 <= i <= limit -> sieve_inv limit i st -> sieve_inv limit (i + 1) (sieve_next limit i st).
Proof.
  intros Hi (Hlen & Hmark & Hsorted & Hin).
  destruct (Hmark i) as (b & Eb & Hb); [lia|].
  unfold sieve_next. rewrite Eb. destruct b.
  - (* [i] is prime: record it and cross out its multiples *)
    assert (Pi : Z.prime i).
    { apply not_crossed_prime; [lia|]. intros C. apply Hb in C. discriminate. }
    destruct (mark_multiples_spec i limit ltac:(lia) (Z.to_nat limit) (i * i) (fst st))
      as [Hl Hk]; [nia | nia | lia |].
    unfold sieve_inv. cbn [fst snd]. split; [now rewrite Hl|]. split; [|split].
    + intros k Hkl. destruct (Hk k Hkl) as [Hyes Hno].
      destruct (Hmark k Hkl) as (bk & Ebk & Hbk).
      assert (Hmult : (i | k - i * i) <-> (i | k)).
      { split; intros [q Hq]; [exists (q + i) | exists (q - i)]; lia. }
      destruct (Z_le_dec (i * i) k) as [H1|H1];
        [destruct (Z.BoolSpec_divide i (k - i * i)) as [D|D]|].
      * exists false. split; [now apply Hyes|]. split; [|reflexivity]. intros _. right.
        exists i. split; [exact Pi|]. split; [lia|]. split; [exact H1 | now apply Hmult].
      * exists bk. rewrite Hno by tauto. split; [exact Ebk|]. rewrite Hbk. split.
        -- apply crossed_mono. lia.
        -- intros C. apply crossed_succ in C as [C|(_ & _ & Dp)]; [exact C|].
           exfalso. apply D. now apply Hmult.
      * exists bk. rewrite Hno by tauto. split; [exact Ebk|]. rewrite Hbk. split.
        -- apply crossed_mono. lia.
        -- intros C. apply crossed_succ in C as [C|(_ & Hsq & _)]; [exact C | lia].
    + assert (F : Forall (fun p => p < i) (snd st)).
      { rewrite List.Forall_forall. intros p Hp. now apply Hin in Hp. }
      clear -Hsorted F. induction Hsorted as [|a l S IH Fa]; simpl.
      * constructor; constructor.
      * apply List.Forall_cons_iff in F as [Ha F]. constructor; [now apply IH|].
        apply List.Forall_app. split; [exact Fa | constructor; [exact Ha | constructor]].
    + intros p. rewrite in_app_iff, Hin. simpl. split.
      * intros [[Pp Hp]|[<-|[]]]; split; auto; lia.
      * intros [Pp Hp]. destruct (decide (p = i)) as [->|Hne]; [right; now left|].
        left. split; [exact Pp | lia].
  - (* [i] was crossed out: it is not prime *)
    assert (Ci : crossed i i) by (now apply Hb).
    assert (Ni : ~ Z.prime i) by (apply (crossed_not_prime i i); [lia | exact Ci]).
    split; [exact Hlen|]. split; [|split; [exact Hsorted|]].
    + intros k Hkl. destruct (Hmark k Hkl) as (bk & Ebk & Hbk).
      exists bk. split; [exact Ebk|]. rewrite Hbk. split.
      * apply crossed_mono. lia.
      * intros C. apply crossed_succ in C as [C|(Pi & _)]; [exact C | contradiction].
    + intros p. rewrite Hin. split.
      * intros [Pp Hp]. split; [exact Pp | lia].
      * intros [Pp Hp]. destruct (decide (p = i)) as [->|Hne]; [contradiction|].
        split; [exact Pp | lia].
Qed.

(** The array the sieve starts from: 0 and 1 are crossed out. *)
Definition sieve_start (limit : Z) : list bool * list Z :=
  (<[1%nat := false]> (<[0%nat := false]> (replicate (Z.to_nat (limit + 1)) true)), []).

Lemma sieve_start_inv limit : 2 <= limit -> sieve_inv limit 2 (sieve_start limit).
Proof.
  intros Hl. unfold sieve_start, sieve_inv. cbn [fst snd].
  split; [now rewrite !length_insert, length_replicate|]. split; [|split].
  - intros k Hk. destruct (decide (k = 1)) as [->|H1]; [|destruct (decide (k = 0)) as [->|H0]].
    + exists false. split; [|split; [left; lia | reflexivity]].
      apply list_lookup_insert_eq. rewrite length_insert, length_replicate. lia.
    + exists false. split; [|split; [left; lia | reflexivity]].
      rewrite list_lookup_insert_ne by lia.
      apply list_lookup_insert_eq. rewrite length_replicate. lia.
    + exists true. split.
      * rewrite !list_lookup_insert_ne by lia. apply lookup_replicate_2. lia.
      * split; [discriminate|]. intros [H|(p & Pp & Hp & _)]; [lia|].
        pose proof (Z.prime_ge_2 p Pp). lia.
  - constructor.
  - intros p. split; [intros []|]. intros [Pp Hp]. pose proof (Z.prime_ge_2 p Pp). lia.
Qed.

Lemma sieve_primes limit :
  2 <= limit ->
  let primes := snd (loop_state (Z.to_nat (limit - 1)) 2 (sieve_next limit) (sieve_start limit)) in
  StronglySorted Z.lt primes /\ (forall p, In p primes <-> Z.prime p /\ p <= limit).
Proof.
  intros Hl primes.
  pose proof (loop_state_invariant (sieve_inv limit) (sieve_next limit)
                (Z.to_nat (limit - 1)) 2 (sieve_start limit)) as H.
  destruct H as (_ & _ & S & I).
  - intros j st Hj. apply sieve_step. lia.
  - now apply sieve_start_inv.
  - split; [exact S|]. intros p. fold primes in I. rewrite I. split; intros [Pp Hp]; split; auto; lia.
Qed.

Lemma handlePrimeNumbers_trace data id :
  let limit := default 100 (data_limit data) in
  2 <= limit <= 100000 ->
  exists reports primes,
    handlePrimeNumbers data id =
      ((reports ++ [Success id "primeNumbers"
                      (PrimeNumbersResult primes (Z.of_nat (length primes)) limit)])%list,
       inr tt) /\
    Forall (progress_for id) reports /\
    progress_values reports =
      map (fun i => percent i limit)
          (filter (fun i => progress_due 100 limit i = true) (seqZ 2 (limit - 1))) /\
    StronglySorted Z.lt primes /\
    (forall p, In p primes <-> Z.prime p /\ p <= limit).
Proof.
  intros limit Hl. unfold handlePrimeNumbers. fold limit.
  replace ((limit <? 2) || (100000 <? limit)) with false
    by (destruct (Z.ltb_spec limit 2), (Z.ltb_spec 100000 limit); try lia; reflexivity).
  match goal with
  | |- context [for_loopM ?cnt ?start ?bd ?st] =>
      destruct (for_loopM_reports id (progress_due 100 limit) (fun i => percent i limit)
                  (sieve_next limit) bd cnt start st) as (out & E & F & V)
  end.
  { intros j [isPrime primes] Hj. unfold sieve_next. cbn [fst snd].
    destruct (isPrime !! Z.to_nat j) as [[|]|]; eexists; apply report_step. }
  rewrite Z2Nat.id in V by lia.
  eexists out, _. rewrite E. split; [reflexivity|]. split; [exact F|]. split; [exact V|].
  apply (sieve_primes limit). lia.
Qed.

Lemma handlePrimeNumbers_throws data id :
  let limit := default 100 (data_limit data) in
  limit < 2 \/ 100000 < limit ->
  handlePrimeNumbers data id = ([], inl "limit必须在2到100000之间"%string).
Proof.
  intros limit Hn. unfold handlePrimeNumbers. fold limit.
  replace ((limit <? 2) || (100000 <? limit)) with true; [reflexivity|].
  destruct (Z.ltb_spec limit 2), (Z.ltb_spec 100000 limit); try lia; reflexivity.
Qed.

(* ===================================================================== *)
(** * Checks over a range of integers *)
(* ===================================================================== *)

(** [start, start + 1, ..., start + count - 1]. *)
Fixpoint range (count : nat) (start : Z) : list Z :=
  match count with
  | O => []
  | S count' => start :: range count' (start + 1)
  end.

Lemma forallb_range (P : Z -> bool) : forall count start,
  forallb P (range count start) = true ->
  forall z, start <= z < start + Z.of_nat count -> P z = true.
Proof.
  induction count as [|count IH]; intros start H z Hz; [lia|].
  simpl in H. apply andb_true_iff in H as [H0 H].
  destruct (Z.eq_dec z start) as [->|Hne]; [exact H0|].
  apply (IH (start + 1) H). lia.
Qed.

(* ===================================================================== *)
(** * The Fibonacci numbers (C7) *)
(* ===================================================================== *)

(** The Fibonacci numbers over the integers: F(0) = 0, F(1) = 1 and
    F(k + 2) = F(k + 1) + F(k). *)
Fixpoint fibonacci_pair (k : nat) : Z * Z :=
  match k with
  | O => (0, 1)
  | S k' => let '(a, b) := fibonacci_pair k' in (b, a + b)
  end.

Definition fibonacci_number (k : Z) : Z := fst (fibonacci_pair (Z.to_nat k)).

Lemma fibonacci_recurrence k :
  0 <= k -> fibonacci_number (k + 2) = fibonacci_number (k + 1) + fibonacci_number k.
Proof.
  intros Hk. unfold fibonacci_number.
  replace (Z.to_nat (k + 2)) with (S (S (Z.to_nat k))) by lia.
  replace (Z.to_nat (k + 1)) with (S (Z.to_nat k)) by lia.
  simpl. destruct (fibonacci_pair (Z.to_nat k)) as [a b]. simpl. lia.
Qed.

(** Up to index 78 the doubles computed by [fib] are the Fibonacci numbers. *)
Lemma fib_exact_upto_78 i : 0 <= i <= 78 -> num_to_Z (fib i) = Some (fibonacci_number i).
Proof.
  intros Hi.
  assert (H : forallb (fun i => match num_to_Z (fib i) with
                                | Some z => z =? fibonacci_number i
                                | None => false
                                end) (range 79 0) = true) by (vm_compute; reflexivity).
  pose proof (forallb_range _ _ _ H i ltac:(lia)) as Hi'. cbv beta in Hi'.
  destruct (num_to_Z (fib i)); [|discriminate]. apply Z.eqb_eq in Hi'. now subst.
Qed.

(* ===================================================================== *)
(** * The message listener on one request *)
(* ===================================================================== *)

Section Router.

Variable toFixed4 : number -> number.

Lemma onmessage_fibonacci w data id :
  onmessage toFixed4 w (Request (Some "fibonacci"%string) data id) =
  match handleFibonacci data id with
  | (out, inl error) => (w, (out ++ [Error (Some (id_or_unknown id)) error None])%list)
  | (out, inr _) => (w, out)
  end.
Proof. unfold onmessage. cbn. destruct (handleFibonacci data id) as [out [e|[]]]; reflexivity. Qed.

Lemma onmessage_primeNumbers w data id :
  onmessage toFixed4 w (Request (Some "primeNumbers"%string) data id) =
  match handlePrimeNumbers data id with
  | (out, inl error) => (w, (out ++ [Error (Some (id_or_unknown id)) error None])%list)
  | (out, inr _) => (w, out)
  end.
Proof. unfold onmessage. cbn. destruct (handlePrimeNumbers data id) as [out [e|[]]]; reflexivity. Qed.

End Router.

(** C7, amended: for every integer n in [0, 1000] the listener answers a
    Fibonacci request with progress messages followed by one success
    response whose result is [fib 0 .. fib n], the values of the code's
    double-precision recurrence, whose length is n + 1 and whose nthValue is
    [fib n]; [fib i] is the Fibonacci number F(i) for every i up to 78 (so
    the result is F(0) .. F(n) for n up to 78).  For n outside [0, 1000] the
    only response is one error, emitted before any progress or success. *)
Theorem fibonacci_response (toFixed4 : number -> number) (w : worker) (data : payload) (id : jsid) :
  let n := default 20 (data_n data) in
  let request := Request (Some "fibonacci"%string) data id in
  (0 <= n <= 1000 ->
   exists reports,
     onmessage toFixed4 w request =
       (w, (reports ++
            [Success id "fibonacci"
               (FibonacciResult (map fib (seqZ 0 (n + 1))) (n + 1) (Some (fib n)))])%list) /\
     Forall (progress_for id) reports /\
     (forall i, 0 <= i <= n -> i <= 78 -> num_to_Z (fib i) = Some (fibonacci_number i))) /\
  (n < 0 \/ 1000 < n ->
   onmessage toFixed4 w request =
     (w, [Error (Some (id_or_unknown id)) "n必须在0到1000之间" None])).
Proof.
  intros n request. split.
  - intros Hn. destruct (handleFibonacci_trace data id Hn) as (reports & E & F & _).
    exists reports. unfold request. rewrite onmessage_fibonacci. fold n in E. rewrite E.
    split; [reflexivity|]. split; [exact F|]. intros i Hi H78. apply fib_exact_upto_78. lia.
  - intros Hn. unfold request. rewrite onmessage_fibonacci.
    rewrite (handleFibonacci_throws data id Hn). reflexivity.
Qed.

Definition fibonacci_data (n : Z) : payload :=
  Payload None [] [] None None None (Some n) None None None.

Lemma fibonacci_response_witness :
  (exists reports,
     onmessage (fun x => x) (Worker ∅ 1)
       (Request (Some "fibonacci"%string) (fibonacci_data 10) (Some "x"%string)) =
       (Worker ∅ 1,
        (reports ++
         [Success (Some "x"%string) "fibonacci"
            (FibonacciResult (map fib (seqZ 0 11)) 11 (Some (fib 10)))])%list) /\
     Forall (progress_for (Some "x"%string)) reports /\
     (forall i, 0 <= i <= 10 -> i <= 78 -> num_to_Z (fib i) = Some (fibonacci_number i))) /\
  onmessage (fun x => x) (Worker ∅ 1)
    (Request (Some "fibonacci"%string) (fibonacci_data 1001) (Some "x"%string)) =
    (Worker ∅ 1, [Error (Some "x"%string) "n必须在0到1000之间" None]).
Proof.
  split.
  - apply (fibonacci_response (fun x => x) (Worker ∅ 1) (fibonacci_data 10) (Some "x"%string)).
    simpl. lia.
  - apply (fibonacci_response (fun x => x) (Worker ∅ 1) (fibonacci_data 1001) (Some "x"%string)).
    simpl. lia.
Defined.

Example fibonacci_10 :
  map fib (seqZ 0 11) = [0; 1; 1; 2; 3; 5; 8; 13; 21; 34; 55]%float.
Proof. reflexivity. Qed.

(** C7 as stated fails at n = 79: the last element of the result and the
    nthValue are the double 14472334024676220, while the Fibonacci number
    F(79) is 14472334024676221. *)
Lemma fibonacci_79_rounded :
  exists reports sequence nthValue,
    handleFibonacci (fibonacci_data 79) (Some "x"%string) =
      ((reports ++
        [Success (Some "x"%string) "fibonacci"
           (FibonacciResult sequence 80 (Some nthValue))])%list, inr tt) /\
    last sequence = Some nthValue /\
    num_to_Z nthValue = Some 14472334024676220 /\
    fibonacci_number 79 = 14472334024676221.
Proof.
  destruct (handleFibonacci_trace (fibonacci_data 79) (Some "x"%string)) as (reports & E & _).
  { simpl. lia. }
  exists reports, (map fib (seqZ 0 80)), (fib 79). split; [exact E|].
  split; [|split]; vm_compute; reflexivity.
Qed.

(* ===================================================================== *)
(** * PrimeNumbers (C8) *)
(* ===================================================================== *)

Definition has_error (out : list response) : Prop :=
  exists id error detail, In (Error id error detail) out.

(** C8: a PrimeNumbers request fails with the range error exactly when limit
    lies outside [2, 100000]; inside the range the listener emits progress
    messages followed by one success response whose result is the
    increasing list of the primes up to limit and whose count is the length
    of that list. *)
Theorem primeNumbers_response (toFixed4 : number -> number) (w : worker) (data : payload) (id : jsid) :
  let limit := default 100 (data_limit data) in
  let request := Request (Some "primeNumbers"%string) data id in
  (limit < 2 \/ 100000 < limit ->
   onmessage toFixed4 w request =
     (w, [Error (Some (id_or_unknown id)) "limit必须在2到100000之间" None])) /\
  (2 <= limit <= 100000 ->
   exists reports primes,
     onmessage toFixed4 w request =
       (w, (reports ++
            [Success id "primeNumbers"
               (PrimeNumbersResult primes (Z.of_nat (length primes)) limit)])%list) /\
     Forall (progress_for id) reports /\
     StronglySorted Z.lt primes /\
     (forall p, In p primes <-> Z.prime p /\ p <= limit)) /\
  (has_error (snd (onmessage toFixed4 w request)) <-> limit < 2 \/ 100000 < limit).
Proof.
  intros limit request.
  assert (Hout : limit < 2 \/ 100000 < limit ->
                 onmessage toFixed4 w request =
                 (w, [Error (Some (id_or_unknown id)) "limit必须在2到100000之间" None])).
  { intros Hl. unfold request. rewrite onmessage_primeNumbers.
    rewrite (handlePrimeNumbers_throws data id Hl). reflexivity. }
  assert (Hin : 2 <= limit <= 100000 ->
                exists reports primes,
                  onmessage toFixed4 w request =
                  (w, (reports ++
                       [Success id "primeNumbers"
                          (PrimeNumbersResult primes (Z.of_nat (length primes)) limit)])%list) /\
                  Forall (progress_for id) reports /\
                  StronglySorted Z.lt primes /\
                  (forall p, In p primes <-> Z.prime p /\ p <= limit)).
  { intros Hl. destruct (handlePrimeNumbers_trace data id Hl) as (reports & primes & E & F & _ & S & I).
    exists reports, primes. unfold request. rewrite onmessage_primeNumbers. fold limit in E.
    rewrite E. auto. }
  split; [exact Hout|]. split; [exact Hin|]. split.
  - intros (eid & error & detail & He).
    destruct (Z_lt_dec limit 2) as [?|?]; [now left|].
    destruct (Z_lt_dec 100000 limit) as [?|?]; [now right|]. exfalso.
    destruct Hin as (reports & primes & E & F & _); [lia|].
    rewrite E in He. cbn [snd] in He. apply in_app_or in He as [He|[He|[]]]; [|discriminate].
    rewrite List.Forall_forall in F. destruct (F _ He) as (p & c & Hp). discriminate.
  - intros Hl. rewrite (Hout Hl). cbn [snd]. eexists _, _, _. now left.
Qed.

Definition primeNumbers_data (limit : Z) : payload :=
  Payload None [] [] None None None None (Some limit) None None.

Example primeNumbers_10 :
  onmessage (fun x => x) (Worker ∅ 1)
    (Request (Some "primeNumbers"%string) (primeNumbers_data 10) (Some "x"%string)) =
  (Worker ∅ 1,
   [Success (Some "x"%string) "primeNumbers" (PrimeNumbersResult [2; 3; 5; 7] 4 10)]).
Proof. reflexivity. Qed.

Lemma primeNumbers_response_witness :
  (exists reports primes,
     onmessage (fun x => x) (Worker ∅ 1)
       (Request (Some "primeNumbers"%string) (primeNumbers_data 10) (Some "x"%string)) =
       (Worker ∅ 1,
        (reports ++
         [Success (Some "x"%string) "primeNumbers"
            (PrimeNumbersResult primes (Z.of_nat (length primes)) 10)])%list) /\
     Forall (progress_for (Some "x"%string)) reports /\
     StronglySorted Z.lt primes /\
     (forall p, In p primes <-> Z.prime p /\ p <= 10)) /\
  onmessage (fun x => x) (Worker ∅ 1)
    (Request (Some "primeNumbers"%string) (primeNumbers_data 100001) (Some "x"%string)) =
    (Worker ∅ 1, [Error (Some "x"%string) "limit必须在2到100000之间" None]).
Proof.
  split.
  - apply (primeNumbers_response (fun x => x) (Worker ∅ 1) (primeNumbers_data 10) (Some "x"%string)).
    simpl. lia.
  - apply (primeNumbers_response (fun x => x) (Worker ∅ 1) (primeNumbers_data 100001) (Some "x"%string)).
    simpl. lia.
Defined.

(* ===================================================================== *)
(** * The outcome of every handler *)
(* ===================================================================== *)

Definition outcome (id : jsid) (command : string) (m : handler unit) : Prop :=
  completes id command m \/ fails_first m.

Lemma handleProcessData_outcome toFixed4 data id :
  outcome id "processData" (handleProcessData toFixed4 data id).
Proof.
  left. destruct (handleProcessData_trace toFixed4 data id) as (reports & processed & E & F & _).
  eexists reports, _. split; [exact E|]. split; [exact F | eexists; reflexivity].
Qed.

Lemma handleFibonacci_outcome data id : outcome id "fibonacci" (handleFibonacci data id).
Proof.
  destruct (Z_lt_dec (default 20 (data_n data)) 0) as [H|H];
    [right; eexists; apply handleFibonacci_throws; lia|].
  destruct (Z_lt_dec 1000 (default 20 (data_n data))) as [H'|H'];
    [right; eexists; apply handleFibonacci_throws; lia|].
  left. destruct (handleFibonacci_trace data id) as (reports & E & F & _); [lia|].
  eexists reports, _. split; [exact E|]. split; [exact F | eexists; reflexivity].
Qed.

Lemma handlePrimeNumbers_outcome data id : outcome id "primeNumbers" (handlePrimeNumbers data id).
Proof.
  destruct (Z_lt_dec (default 100 (data_limit data)) 2) as [H|H];
    [right; eexists; apply handlePrimeNumbers_throws; lia|].
  destruct (Z_lt_dec 100000 (default 100 (data_limit data))) as [H'|H'];
    [right; eexists; apply handlePrimeNumbers_throws; lia|].
  left. destruct (handlePrimeNumbers_trace data id) as (reports & primes & E & F & _); [lia|].
  eexists reports, _. split; [exact E|]. split; [exact F | eexists; reflexivity].
Qed.

Lemma handleSortArray_outcome data id : outcome id "sortArray" (handleSortArray data id).
Proof.
  unfold handleSortArray. destruct (data_array data) as [array|].
  - left. eexists [], _. split; [reflexivity|]. split; [constructor | eexists; reflexivity].
  - right. eexists. reflexivity.
Qed.

(** What the listener emits for a request that is not a SimulateWork
    request: progress messages with the request's id, then one terminal
    message. *)
Definition terminal_for (id : jsid) (r : response) : Prop :=
  (exists command body, r = Success id command body) \/
  (exists error, r = Error (Some (id_or_unknown id)) error None).

Section Listener.

Variable toFixed4 : number -> number.

Lemma outcome_listener id command (m : handler unit) (w : worker) :
  outcome id command m ->
  exists reports t,
    (let '(out, r) := m in
     match r with
     | inl error => (w, (out ++ [Error (Some (id_or_unknown id)) error None])%list)
     | inr _ => (w, out)
     end) = (w, (reports ++ [t])%list) /\
    Forall (progress_for id) reports /\ terminal_for id t.
Proof.
  intros [(reports & s & -> & F & (body & ->))|(error & ->)].
  - exists reports, (Success id command body). split; [reflexivity|]. split; [exact F|].
    left. eexists _, _. reflexivity.
  - exists [], (Error (Some (id_or_unknown id)) error None). split; [reflexivity|].
    split; [constructor|]. right. eexists. reflexivity.
Qed.

Lemma dispatch_cases command :
  (dispatch command = Some Calculate /\ command = Some "calculate"%string) \/
  (dispatch command = Some ProcessData /\ command = Some "processData"%string) \/
  (dispatch command = Some SimulateWork /\ command = Some "simulateWork"%string) \/
  (dispatch command = Some Fibonacci /\ command = Some "fibonacci"%string) \/
  (dispatch command = Some PrimeNumbers /\ command = Some "primeNumbers"%string) \/
  (dispatch command = Some SortArray /\ command = Some "sortArray"%string) \/
  (dispatch command = None /\ forall c, In c supported_commands -> command <> Some c).
Proof.
  unfold dispatch, same. destruct command as [c|].
  2:{ repeat right. split; [reflexivity|]. intros c _. discriminate. }
  destruct (String.eqb_spec c "calculate"); [subst; tauto|].
  destruct (String.eqb_spec c "processData"); [subst; tauto|].
  destruct (String.eqb_spec c "simulateWork"); [subst; tauto|].
  destruct (String.eqb_spec c "fibonacci"); [subst; tauto|].
  destruct (String.eqb_spec c "primeNumbers"); [subst; tauto|].
  destruct (String.eqb_spec c "sortArray"); [subst; tauto|].
  repeat right. split; [reflexivity|]. intros c' Hc' [= <-].
  simpl in Hc'. intuition congruence.
Qed.

Lemma onmessage_simulateWork w e :
  dispatch (req_command e) = Some SimulateWork ->
  onmessage toFixed4 w e = (handleSimulateWork w (req_data e) (req_id e), []).
Proof. intros H. unfold onmessage. rewrite H. reflexivity. Qed.

Lemma onmessage_unknown w e :
  dispatch (req_command e) = None ->
  onmessage toFixed4 w e =
  (w, [Error (Some (id_or_unknown (req_id e)))
         ("未知命令: " ++ template (req_command e))%string None]).
Proof. intros H. unfold onmessage. rewrite H. reflexivity. Qed.

(** Every request other than SimulateWork is answered at once. *)
Lemma onmessage_synchronous w e :
  dispatch (req_command e) <> Some SimulateWork ->
  exists reports t,
    onmessage toFixed4 w e = (w, (reports ++ [t])%list) /\
    Forall (progress_for (req_id e)) reports /\ terminal_for (req_id e) t.
Proof.
  intros Hns. unfold onmessage.
  destruct (dispatch (req_command e)) as [[]|] eqn:D; try congruence.
  - apply (outcome_listener _ "calculate"), handleCalculate_outcome.
  - apply (outcome_listener _ "processData"), handleProcessData_outcome.
  - apply (outcome_listener _ "fibonacci"), handleFibonacci_outcome.
  - apply (outcome_listener _ "primeNumbers"), handlePrimeNumbers_outcome.
  - apply (outcome_listener _ "sortArray"), handleSortArray_outcome.
  - eexists [], _. split; [reflexivity|]. split; [constructor|]. right. eexists. reflexivity.
Qed.

End Listener.

(* ===================================================================== *)
(** * Calculate on an empty sequence (C6, C10) *)
(* ===================================================================== *)

Definition calculate_data (operation : string) (numbers : list number) : payload :=
  Payload (Some operation) numbers [] None None None None None None None.

(** C6: Calculate with operation [average] and no numbers does not fail: the
    zero sum is divided by the zero count and the one response is a success
    whose result is that quotient, NaN, which is not finite. *)
Theorem calculate_average_empty (toFixed4 : number -> number) (w : worker) (id : jsid) :
  onmessage toFixed4 w (Request (Some "calculate"%string) (calculate_data "average" []) id) =
    (w, [Success id "calculate" (CalculateResult (0 / 0)%float "average")]) /\
  (0 / 0)%float = nan /\
  Number_isFinite (0 / 0)%float = false.
Proof. repeat split. Qed.

(** C10: Calculate with operation [max] (or [min]) and no numbers does not
    fail: the one response is a success whose result is -Infinity (or
    +Infinity), the value of [Math.max()] (or [Math.min()]). *)
Theorem calculate_extremum_empty (toFixed4 : number -> number) (w : worker) (id : jsid) :
  onmessage toFixed4 w (Request (Some "calculate"%string) (calculate_data "max" []) id) =
    (w, [Success id "calculate" (CalculateResult neg_infinity "max")]) /\
  onmessage toFixed4 w (Request (Some "calculate"%string) (calculate_data "min" []) id) =
    (w, [Success id "calculate" (CalculateResult infinity "min")]) /\
  Math_max [] = neg_infinity /\ Math_min [] = infinity.
Proof. repeat split. Qed.

(* ===================================================================== *)
(** * Unknown commands (C9) *)
(* ===================================================================== *)

(** C9, amended: a request whose command is none of the six recognized ones
    gets exactly one error response, no handler is selected and the worker
    is left as it was; the message names the command; the response carries
    the request's id when that is a non-empty string, and the fallback
    [unknown] when the id is missing or is the empty string. *)
Theorem unknown_command_response (toFixed4 : number -> number) (w : worker) (e : request) :
  (forall c, In c supported_commands -> req_command e <> Some c) ->
  dispatch (req_command e) = None /\
  onmessage toFixed4 w e =
    (w, [Error (Some (id_or_unknown (req_id e)))
           ("未知命令: " ++ template (req_command e))%string None]) /\
  (forall s, req_id e = Some s -> s <> ""%string -> id_or_unknown (req_id e) = s) /\
  (req_id e = None \/ req_id e = Some ""%string -> id_or_unknown (req_id e) = "unknown"%string).
Proof.
  intros Hc.
  assert (D : dispatch (req_command e) = None).
  { destruct (dispatch_cases (req_command e)) as [[_ H]|[[_ H]|[[_ H]|[[_ H]|[[_ H]|[[_ H]|[H _]]]]]]];
      try exact H; exfalso; (eapply Hc; [|exact H]); simpl; tauto. }
  split; [exact D|]. split; [now apply onmessage_unknown|]. split.
  - intros s -> Hs. simpl. destruct (String.eqb_spec s ""); [contradiction | reflexivity].
  - intros [->| ->]; reflexivity.
Qed.

Lemma unknown_command_response_witness :
  dispatch (Some "bogus"%string) = None /\
  onmessage (fun x => x) (Worker ∅ 1) (Request (Some "bogus"%string) no_data (Some "x"%string)) =
    (Worker ∅ 1, [Error (Some "x"%string) "未知命令: bogus" None]).
Proof.
  assert (H : forall c, In c supported_commands -> Some "bogus"%string <> Some c).
  { intros c Hc. simpl in Hc.
    repeat (destruct Hc as [<-|Hc]; [discriminate|]). destruct Hc. }
  destruct (unknown_command_response (fun x => x) (Worker ∅ 1)
              (Request (Some "bogus"%string) no_data (Some "x"%string)) H) as (D & E & _).
  split; [exact D | exact E].
Defined.

(** C9 as stated fails for a request whose id is the empty string: the id is
    present, and the error response carries [unknown] instead of it. *)
Lemma unknown_command_empty_id :
  onmessage (fun x => x) (Worker ∅ 1) (Request (Some "bogus"%string) no_data (Some ""%string)) =
    (Worker ∅ 1, [Error (Some "unknown"%string) "未知命令: bogus" None]) /\
  Some "unknown"%string <> Some ""%string.
Proof. split; [reflexivity | discriminate]. Qed.

(* ===================================================================== *)
(** * The ready message (C4) *)
(* ===================================================================== *)

Lemma progress_not_ready id r : progress_for id r -> is_ready r = false.
Proof. intros (p & c & ->). reflexivity. Qed.

Lemma terminal_not_ready id r : terminal_for id r -> is_ready r = false.
Proof. intros [(c & b & ->)|(e & ->)]; reflexivity. Qed.

Section Ready.

Variable toFixed4 : number -> number.

Lemma step_not_ready w ev :
  Forall (fun r => is_ready r = false) (snd (step toFixed4 w ev)).
Proof.
  destruct ev as [e|k|m|r]; cbn [step].
  - destruct (dispatch_cases (req_command e)) as [[D _]|[[D _]|[[D _]|[[D _]|[[D _]|[[D _]|[D _]]]]]]].
    3:{ rewrite onmessage_simulateWork by exact D. constructor. }
    all: destruct (onmessage_synchronous toFixed4 w e) as (reports & t & E & F & T);
      [congruence|]; rewrite E; cbn [snd]; apply List.Forall_app; split;
      [eapply Forall_impl; [exact F | intros r; apply progress_not_ready]
      | constructor; [eapply terminal_not_ready; exact T | constructor]].
  - destruct (timers w !! k) as [iv|]; [|constructor].
    unfold interval_callback. destruct (iv_steps iv <=? iv_currentStep iv + 1);
      cbn [snd]; repeat constructor.
  - repeat constructor.
  - repeat constructor.
Qed.

Lemma run_not_ready : forall events w,
  Forall (fun r => is_ready r = false) (run toFixed4 w events).
Proof.
  induction events as [|ev events IH]; intros w; cbn [run]; [constructor|].
  pose proof (step_not_ready w ev) as H. destruct (step toFixed4 w ev) as [w' out].
  apply List.Forall_app. split; [exact H | apply IH].
Qed.

End Ready.

(** C4, amended: whatever events follow, the first emission of the worker
    is the ready response, emitted before any event is handled; its id is
    [init], it lists the six supported command names, and no other ready
    response is ever emitted. *)
Theorem ready_once_at_startup (toFixed4 : number -> number) (events : list event) :
  execute toFixed4 events =
    Ready "init" "Worker已初始化，等待任务"
      ["calculate"; "processData"; "simulateWork"; "fibonacci"; "primeNumbers"; "sortArray"]%string
    :: run toFixed4 (Worker ∅ 1) events /\
  snd startup = [Ready "init" "Worker已初始化，等待任务" supported_commands] /\
  length supported_commands = 6%nat /\
  Forall (fun r => is_ready r = false) (run toFixed4 (Worker ∅ 1) events).
Proof.
  split; [reflexivity|]. split; [reflexivity|]. split; [reflexivity|]. apply run_not_ready.
Qed.

(** C4 as stated fails: the id of the ready response is [init], not
    [ready-token]. *)
Lemma ready_id_is_init :
  map response_id (snd startup) = [Some "init"%string] /\
  Some "init"%string <> Some "ready-token"%string.
Proof. split; [reflexivity | discriminate]. Qed.

(* ===================================================================== *)
(** * handleSortArray leaves its input alone (C5) *)
(* ===================================================================== *)

(** [h'] extends [h]: every array of [h] is in [h'] with the same contents. *)
Definition extends (h h' : heap) : Prop :=
  forall l contents, h !! l = Some contents -> h' !! l = Some contents.

Lemma extends_refl h : extends h h.
Proof. intros l c H. exact H. Qed.

Lemma extends_trans h1 h2 h3 : extends h1 h2 -> extends h2 h3 -> extends h1 h3.
Proof. intros H12 H23 l c H. apply H23, H12, H. Qed.

Lemma alloc_spec (h : heap) contents :
  let '(h', address) := alloc h contents in
  h !! address = None /\ h' !! address = Some contents /\ extends h h'.
Proof.
  unfold alloc. cbv zeta.
  assert (Hf : h !! fresh (dom h) = None).
  { apply not_elem_of_dom. apply is_fresh. }
  split; [exact Hf|]. split; [apply lookup_insert_eq|].
  intros l c Hl. rewrite lookup_insert_ne; [exact Hl|]. intros <-. congruence.
Qed.

Lemma contents_of_lookup (h : heap) arr contents :
  h !! arr = Some contents -> contents_of h arr = contents.
Proof. unfold contents_of. now intros ->. Qed.

(** ** quickSort and mergeSort write to no array that exists already *)

Lemma quickSort_in_spec : forall fuel arr (h : heap) contents,
  h !! arr = Some contents ->
  let '(h', sorted) := quickSort_in fuel arr h in
  h' !! sorted = Some (quickSort_rec fuel contents) /\ extends h h' /\
  (sorted = arr \/ h !! sorted = None).
Proof.
  induction fuel as [|fuel IH]; intros arr h contents Harr; cbn [quickSort_in quickSort_rec];
    rewrite (contents_of_lookup _ _ _ Harr).
  - destruct (length contents <=? 1)%nat; repeat split; auto using extends_refl.
  - destruct (length contents <=? 1)%nat; [repeat split; auto using extends_refl|].
    destruct (contents !! (length contents / 2)%nat) as [pivot|];
      [|repeat split; auto using extends_refl].
    destruct (partition3 pivot contents) as [[l r] e].
    pose proof (alloc_spec h l) as A1. destruct (alloc h l) as [h1 left_at].
    destruct A1 as (_ & L1 & E1).
    pose proof (alloc_spec h1 r) as A2. destruct (alloc h1 r) as [h2 right_at].
    destruct A2 as (_ & L2 & E2).
    pose proof (alloc_spec h2 e) as A3. destruct (alloc h2 e) as [h3 equal_at].
    destruct A3 as (_ & L3 & E3).
    pose proof (IH left_at h3 l (E3 _ _ (E2 _ _ L1))) as Q1.
    destruct (quickSort_in fuel left_at h3) as [h4 sorted_left]. destruct Q1 as (S1 & E4 & _).
    pose proof (IH right_at h4 r (E4 _ _ (E3 _ _ L2))) as Q2.
    destruct (quickSort_in fuel right_at h4) as [h5 sorted_right]. destruct Q2 as (S2 & E5 & _).
    rewrite (contents_of_lookup _ _ _ (E5 _ _ S1)), (contents_of_lookup _ _ _ S2),
            (contents_of_lookup _ _ _ (E5 _ _ (E4 _ _ L3))).
    match goal with |- context [alloc h5 ?c] => pose proof (alloc_spec h5 c) as A6; destruct (alloc h5 c) as [h6 result] end.
    destruct A6 as (F6 & L6 & E6).
    assert (E : extends h h5).
    { intros x c Hx. apply E5, E4, E3, E2, E1, Hx. }
    split; [exact L6|]. split; [apply extends_trans with h5; assumption|].
    right. destruct (h !! result) as [c|] eqn:Hr; [|reflexivity].
    apply E in Hr. congruence.
Qed.

Lemma mergeSort_in_spec : forall fuel arr (h : heap) contents,
  h !! arr = Some contents ->
  let '(h', sorted) := mergeSort_in fuel arr h in
  h' !! sorted = Some (mergeSort_rec fuel contents) /\ extends h h' /\
  (sorted = arr \/ h !! sorted = None).
Proof.
  induction fuel as [|fuel IH]; intros arr h contents Harr; cbn [mergeSort_in mergeSort_rec];
    rewrite (contents_of_lookup _ _ _ Harr).
  - destruct (length contents <=? 1)%nat; repeat split; auto using extends_refl.
  - destruct (length contents <=? 1)%nat; [repeat split; auto using extends_refl|]. cbv zeta.
    match goal with |- context [alloc h ?c] => pose proof (alloc_spec h c) as A1; destruct (alloc h c) as [h1 left_slice] end.
    destruct A1 as (_ & L1 & E1).
    pose proof (IH left_slice h1 _ L1) as M1.
    destruct (mergeSort_in fuel left_slice h1) as [h2 left_at]. destruct M1 as (S1 & E2 & _).
    match goal with |- context [alloc h2 ?c] => pose proof (alloc_spec h2 c) as A3; destruct (alloc h2 c) as [h3 right_slice] end.
    destruct A3 as (_ & L3 & E3).
    pose proof (IH right_slice h3 _ L3) as M2.
    destruct (mergeSort_in fuel right_slice h3) as [h4 right_at]. destruct M2 as (S2 & E4 & _).
    unfold merge_in.
    rewrite (contents_of_lookup _ _ _ (E4 _ _ (E3 _ _ S1))), (contents_of_lookup _ _ _ S2).
    match goal with |- context [alloc h4 ?c] => pose proof (alloc_spec h4 c) as A5; destruct (alloc h4 c) as [h5 result] end.
    destruct A5 as (F5 & L5 & E5).
    assert (E : extends h h4).
    { intros x c Hx. apply E4, E3, E2, E1, Hx. }
    split; [exact L5|]. split; [apply extends_trans with h4; assumption|].
    right. destruct (h !! result) as [c|] eqn:Hr; [|reflexivity].
    apply E in Hr. congruence.
Qed.

(** ** bubbleSort rewrites the array it is given *)

Lemma swap_if_gt_in_spec arr j (h : heap) contents :
  h !! arr = Some contents ->
  swap_if_gt_in arr j h = <[arr := swap_if_gt j contents]> h.
Proof.
  intros Harr. unfold swap_if_gt_in, swap_if_gt, read, write. rewrite Harr. cbn [mbind option_bind].
  destruct (contents !! j) as [a|]; [|now rewrite insert_id].
  destruct (contents !! S j) as [b|]; [|now rewrite insert_id].
  destruct (js_gt a b); [|now rewrite insert_id].
  apply map_eq. intros l. destruct (decide (l = arr)) as [->|Hne].
  - rewrite lookup_insert_eq, !lookup_alter_eq, Harr. reflexivity.
  - rewrite lookup_insert_ne by congruence. rewrite !lookup_alter_ne by congruence. reflexivity.
Qed.

Lemma for_loop_in_place {A : Type} (body_in : nat -> gmap nat A -> gmap nat A)
    (body : nat -> A -> A) (arr : nat) :
  (forall j (h : gmap nat A) x, h !! arr = Some x -> body_in j h = <[arr := body j x]> h) ->
  forall count i (h : gmap nat A) x,
    h !! arr = Some x ->
    for_loop count i body_in h = <[arr := for_loop count i body x]> h.
Proof.
  intros Hbody. induction count as [|count IH]; intros i h x Hx; cbn [for_loop].
  - now rewrite insert_id.
  - rewrite (Hbody i h x Hx).
    rewrite (IH (S i) (<[arr := body i x]> h) (body i x)) by apply lookup_insert_eq.
    apply insert_insert_eq.
Qed.

Lemma bubbleSort_in_spec arr (h : heap) contents :
  h !! arr = Some contents ->
  bubbleSort_in arr h = (<[arr := bubbleSort contents]> h, arr).
Proof.
  intros Harr. unfold bubbleSort_in, bubbleSort. rewrite (contents_of_lookup _ _ _ Harr).
  f_equal.
  apply (for_loop_in_place
           (fun i h => for_loop (length contents - i - 1) 0 (swap_if_gt_in arr) h)
           (fun i a => for_loop (length contents - i - 1) 0 swap_if_gt a)); [|exact Harr].
  intros i h' x Hx. apply (for_loop_in_place (swap_if_gt_in arr) swap_if_gt); [|exact Hx].
  intros j h'' y Hy. now apply swap_if_gt_in_spec.
Qed.

(** bubbleSort on an array of the store changes that array. *)
Example bubbleSort_in_place :
  bubbleSort_in 7 {[ 7%nat := [3; 1; 2]%float ]} = ({[ 7%nat := [1; 2; 3]%float ]}, 7%nat).
Proof.
  rewrite (bubbleSort_in_spec 7 _ [3; 1; 2]%float) by apply lookup_singleton_eq.
  rewrite insert_singleton_eq. reflexivity.
Qed.

(** C5: whatever the algorithm, handleSortArray's [switch] leaves the array
    it is given with the contents it had, and every other array of the
    store too: the sort runs on a copy, a new array.  The contents of the
    array it returns are the [sortedArray] of the response.  bubbleSort
    itself, called on an array, overwrites that array with the sorted
    contents. *)
Theorem sortArray_input_unchanged (algorithm : string) (array : nat) (h : heap)
    (contents : list number) :
  h !! array = Some contents ->
  (let '(h', sortedArray) := sortArray_in algorithm array h in
   h' !! array = Some contents /\
   h !! sortedArray = None /\
   h' !! sortedArray = Some (sort_switch algorithm contents) /\
   extends h h') /\
  bubbleSort_in array h = (<[array := bubbleSort contents]> h, array).
Proof.
  intros Harr. split; [|now apply bubbleSort_in_spec].
  unfold sortArray_in, sort_switch. rewrite (contents_of_lookup _ _ _ Harr).
  pose proof (alloc_spec h contents) as A. destruct (alloc h contents) as [h1 copy].
  destruct A as (Fresh & Hcopy & E1). rewrite (contents_of_lookup _ _ _ Hcopy).
  assert (Hnew : forall sorted, sorted = copy \/ h1 !! sorted = None -> h !! sorted = None).
  { intros sorted [->|Hs]; [exact Fresh|].
    destruct (h !! sorted) as [c|] eqn:Hc; [|reflexivity]. apply E1 in Hc. congruence. }
  assert (Hin_place : forall sorted_contents,
             let h' := <[copy := sorted_contents]> h1 in
             h' !! array = Some contents /\ h !! copy = None /\
             h' !! copy = Some sorted_contents /\ extends h h').
  { intros c. cbv zeta. split; [|split; [exact Fresh | split; [apply lookup_insert_eq|]]].
    - rewrite lookup_insert_ne by congruence. apply E1, Harr.
    - intros l c' Hl. rewrite lookup_insert_ne by congruence. apply E1, Hl. }
  destruct (same (Some algorithm) "quick"); [|destruct (same (Some algorithm) "merge");
    [|destruct (same (Some algorithm) "bubble")]].
  - pose proof (quickSort_in_spec (length contents) copy h1 contents Hcopy) as Q.
    destruct (quickSort_in (length contents) copy h1) as [h2 sorted]. destruct Q as (S & E2 & N).
    split; [apply E2, E1, Harr|]. split; [now apply Hnew|].
    split; [exact S | apply extends_trans with h1; assumption].
  - pose proof (mergeSort_in_spec (length contents) copy h1 contents Hcopy) as Q.
    destruct (mergeSort_in (length contents) copy h1) as [h2 sorted]. destruct Q as (S & E2 & N).
    split; [apply E2, E1, Harr|]. split; [now apply Hnew|].
    split; [exact S | apply extends_trans with h1; assumption].
  - rewrite (bubbleSort_in_spec copy h1 contents Hcopy). apply Hin_place.
  - unfold nativeSort_in. rewrite (contents_of_lookup _ _ _ Hcopy). apply Hin_place.
Qed.

Lemma sortArray_input_unchanged_witness :
  (let '(h', sortedArray) := sortArray_in "bubble" 7 {[ 7%nat := [3; 1; 2]%float ]} in
   h' !! 7%nat = Some [3; 1; 2]%float /\
   ({[ 7%nat := [3; 1; 2]%float ]} : heap) !! sortedArray = None /\
   h' !! sortedArray = Some (sort_switch "bubble" [3; 1; 2]%float) /\
   extends {[ 7%nat := [3; 1; 2]%float ]} h') /\
  bubbleSort_in 7 {[ 7%nat := [3; 1; 2]%float ]} =
    (<[7%nat := bubbleSort [3; 1; 2]%float]> {[ 7%nat := [3; 1; 2]%float ]}, 7%nat).
Proof.
  apply (sortArray_input_unchanged "bubble" 7 {[ 7%nat := [3; 1; 2]%float ]} [3; 1; 2]%float).
  apply lookup_singleton_eq.
Defined.

(* ===================================================================== *)
(** * The emissions of one request (C2) *)
(* ===================================================================== *)

(** ** The interval of SimulateWork *)

(** What the interval callback emits at its [c]-th run. *)
Definition tick_output (id : jsid) (duration : number) (steps c : Z) : list response :=
  Progress id (percent c steps) [("currentStep"%string, c); ("totalSteps"%string, steps)] ::
  (if steps <=? c
   then [Success id "simulateWork" (SimulateWorkResult "模拟工作完成" duration)]
   else []).

(** The callback runs until [currentStep >= steps]: once when [steps] is
    below 1, [steps] times otherwise. *)
Definition last_tick (steps : Z) : Z := Z.max 1 steps.

(** The emissions of the runs [c + 1, ..., c + n] of the callback. *)
Definition interval_trace (id : jsid) (duration : number) (steps c : Z) (n : nat) : list response :=
  flat_map (tick_output id duration steps) (range n (c + 1)).

Lemma interval_callback_eq w k iv :
  interval_callback w k iv =
  (if iv_steps iv <=? iv_currentStep iv + 1
   then clearInterval w k
   else Worker (<[k := Interval (iv_id iv) (iv_duration iv) (iv_steps iv) (iv_stepDuration iv)
                         (iv_currentStep iv + 1)]> (timers w)) (next_timer w),
   tick_output (iv_id iv) (iv_duration iv) (iv_steps iv) (iv_currentStep iv + 1)).
Proof.
  unfold interval_callback, tick_output.
  destruct (iv_steps iv <=? iv_currentStep iv + 1); reflexivity.
Qed.

Section Machine.

Variable toFixed4 : number -> number.

(** The worker after a sequence of events. *)
Fixpoint final (w : worker) (events : list event) : worker :=
  match events with
  | [] => w
  | ev :: events' => final (fst (step toFixed4 w ev)) events'
  end.

Lemma run_app : forall events1 events2 w,
  run toFixed4 w (events1 ++ events2) =
  (run toFixed4 w events1 ++ run toFixed4 (final w events1) events2)%list.
Proof.
  induction events1 as [|ev events1 IH]; intros events2 w; [reflexivity|].
  cbn [app run final]. destruct (step toFixed4 w ev) as [w' out]. cbn [fst].
  now rewrite IH, app_assoc.
Qed.

(** The timer [k] fires [n] times in a row: the callback runs until it has
    cleared the interval, and the later firings find no timer. *)
Lemma run_timer_alone : forall n w k id duration steps stepDuration c,
  timers w !! k = Some (Interval id duration steps stepDuration c) ->
  0 <= c < last_tick steps ->
  run toFixed4 w (repeat (Timer k) n) =
  interval_trace id duration steps c (Nat.min n (Z.to_nat (last_tick steps - c))).
Proof.
  induction n as [|n IH]; intros w k id duration steps stepDuration c Hk Hc; [reflexivity|].
  cbn [repeat run step]. rewrite Hk, interval_callback_eq.
  cbn [iv_id iv_duration iv_steps iv_stepDuration iv_currentStep].
  replace (Z.to_nat (last_tick steps - c)) with (S (Z.to_nat (last_tick steps - (c + 1)))) by lia.
  cbn [Nat.min]. unfold interval_trace. cbn [range flat_map].
  f_equal.
  destruct (Z.leb_spec steps (c + 1)) as [Hdone|Hmore].
  - (* the interval is cleared *)
    assert (last_tick steps = c + 1) by (unfold last_tick in *; lia).
    replace (Z.to_nat (last_tick steps - (c + 1))) with 0%nat by lia.
    rewrite Nat.min_0_r. cbn [range flat_map].
    clear IH. induction n as [|n IHn]; [reflexivity|].
    cbn [repeat run step clearInterval timers]. rewrite lookup_delete_eq. exact IHn.
  - erewrite IH.
    + reflexivity.
    + cbn [timers]. apply lookup_insert_eq.
    + unfold last_tick in *. lia.
Qed.

(** ** One request on its own *)

(** The emissions of the worker when, after startup, it receives the request
    [e] and then its timer, if it has set one, fires [ticks] times. *)
Definition request_run (e : request) (ticks : nat) : list response :=
  run toFixed4 (Worker ∅ 1) (Message e :: repeat (Timer 1) ticks).

Definition ticks_needed (e : request) : nat :=
  match dispatch (req_command e) with
  | Some SimulateWork => Z.to_nat (last_tick (default 100 (data_steps (req_data e))))
  | _ => 0
  end.

(** The emissions of a request handled to its end. *)
Definition request_trace (e : request) : list response :=
  request_run e (ticks_needed e).

Lemma request_run_synchronous e ticks :
  dispatch (req_command e) <> Some SimulateWork ->
  request_run e ticks = snd (onmessage toFixed4 (Worker ∅ 1) e).
Proof.
  intros Hns. unfold request_run. cbn [run step].
  destruct (onmessage_synchronous toFixed4 (Worker ∅ 1) e Hns) as (reports & t & E & _).
  rewrite E. cbn [snd].
  assert (Hidle : run toFixed4 (Worker ∅ 1) (repeat (Timer 1) ticks) = []).
  { induction ticks as [|n IH]; [reflexivity|]. cbn [repeat run step timers].
    rewrite lookup_empty. exact IH. }
  rewrite Hidle. apply app_nil_r.
Qed.

Lemma request_run_simulateWork e ticks :
  dispatch (req_command e) = Some SimulateWork ->
  let steps := default 100 (data_steps (req_data e)) in
  request_run e ticks =
  interval_trace (req_id e) (default 3000%float (data_duration (req_data e))) steps 0
    (Nat.min ticks (Z.to_nat (last_tick steps))).
Proof.
  intros Hs steps. unfold request_run. cbn [run step].
  rewrite (onmessage_simulateWork toFixed4 _ _ Hs). cbn [app].
  unfold handleSimulateWork, setInterval. cbn [next_timer timers].
  erewrite run_timer_alone.
  - fold steps. now rewrite Z.sub_0_r.
  - cbn [timers]. apply lookup_insert_eq.
  - unfold last_tick. lia.
Qed.

End Machine.

(** The interval reports every step and ends with one success. *)
Lemma interval_trace_complete id duration steps :
  interval_trace id duration steps 0 (Z.to_nat (last_tick steps)) =
  (map (fun c => Progress id (percent c steps)
                   [("currentStep"%string, c); ("totalSteps"%string, steps)])
       (range (Z.to_nat (last_tick steps)) 1)
   ++ [Success id "simulateWork" (SimulateWorkResult "模拟工作完成" duration)])%list.
Proof.
  unfold interval_trace.
  assert (H : forall n c, 0 <= c -> c + Z.of_nat (S n) = last_tick steps ->
            flat_map (tick_output id duration steps) (range (S n) (c + 1)) =
            (map (fun c => Progress id (percent c steps)
                             [("currentStep"%string, c); ("totalSteps"%string, steps)])
                 (range (S n) (c + 1))
             ++ [Success id "simulateWork" (SimulateWorkResult "模拟工作完成" duration)])%list).
  { induction n as [|n IH]; intros c Hc Hlast.
    - cbn [range flat_map map tick_output app].
      replace (steps <=? c + 1) with true by (symmetry; apply Z.leb_le; unfold last_tick in *; lia).
      reflexivity.
    - cbn [range flat_map map]. cbn [range flat_map map] in IH.
      rewrite (IH (c + 1)) by lia. unfold tick_output at 1.
      replace (steps <=? c + 1) with false by (symmetry; apply Z.leb_gt; unfold last_tick in *; lia).
      reflexivity. }
  destruct (Z.to_nat (last_tick steps)) as [|n] eqn:E; [unfold last_tick in E; lia|].
  apply (H n 0); lia.
Qed.

(** ** The percentages *)

(** The progress values of a trace are fine when they never decrease and
    lie between 0 and 100. *)
Definition percentages_ok (values : list number) : Prop :=
  StronglySorted fle values /\ Forall (fun p => fle 0%float p /\ fle p 100%float) values.

(** *** The quotient [size / 10] *)

(** [Math.floor(size / 10)] is the integer quotient. *)
Lemma floor_quotient_check :
  forallb (fun a => PrimFloat.Leibniz.eqb (Math_floor (num_of_Z a / 10)%float) (num_of_Z (a / 10)))
          (range (Z.to_nat 100001) 0) = true.
Proof. vm_cast_no_check (eq_refl true). Qed.

Lemma round_trip_check :
  forallb (fun z => match num_to_Z (num_of_Z z) with Some z' => z' =? z | None => false end)
          (range (Z.to_nat 10001) 0) = true.
Proof. vm_cast_no_check (eq_refl true). Qed.

Lemma floor_div10_small size : 0 <= size <= 100000 -> floor_div10 size = Some (size / 10).
Proof.
  intros Hs. unfold floor_div10.
  pose proof (forallb_range _ _ _ floor_quotient_check size ltac:(lia)) as H1. cbv beta in H1.
  apply FloatAxioms.Leibniz.eqb_spec in H1. rewrite H1.
  assert (Hq : 0 <= size / 10 <= 10000).
  { split; [apply Z.div_pos; lia | apply Z.div_le_upper_bound; lia]. }
  pose proof (forallb_range _ _ _ round_trip_check (size / 10) ltac:(lia)) as H2. cbv beta in H2.
  destruct (num_to_Z (num_of_Z (size / 10))); [|discriminate].
  apply Z.eqb_eq in H2. now subst.
Qed.

(** *** The percentages of a loop *)

Lemma percentages_ok_nil : percentages_ok [].
Proof. split; constructor. Qed.

(** The reports of a loop over [a, a + count) whose due indices satisfy
    [Q], for percentages that are monotone and bounded on [Q]. *)
Lemma percentages_ok_filter (g : Z -> number) (due : Z -> bool) (Q : Z -> Prop) :
  (forall x y, Q x -> Q y -> x <= y -> fle (g x) (g y)) ->
  (forall x, Q x -> fle 0%float (g x) /\ fle (g x) 100%float) ->
  forall count a,
    (forall i, a <= i < a + Z.of_nat count -> due i = true -> Q i) ->
    percentages_ok (map g (filter (fun j => due j = true) (seqZ a (Z.of_nat count)))).
Proof.
  intros Hmono Hbound. induction count as [|count IH]; intros a HQ; [apply percentages_ok_nil|].
  replace (Z.of_nat (S count)) with (Z.succ (Z.of_nat count)) by lia.
  rewrite seqZ_cons by lia. replace (Z.succ a) with (a + 1) by lia.
  replace (Z.pred (Z.succ (Z.of_nat count))) with (Z.of_nat count) by lia.
  destruct (IH (a + 1)) as [Hs Hb]; [intros i Hi; apply HQ; lia|].
  destruct (due a) eqn:D.
  - rewrite filter_cons_True by exact D. cbn [map]. split.
    + constructor; [exact Hs|]. rewrite List.Forall_forall. intros p Hp.
      apply in_map_iff in Hp as (j & <- & Hj). apply list_elem_of_In in Hj.
      apply list_elem_of_filter in Hj as [Dj Hj]. apply elem_of_seqZ in Hj.
      apply Hmono; [apply HQ; [lia | exact D] | apply HQ; [lia | exact Dj] | lia].
    + constructor; [apply Hbound, HQ; [lia | exact D] | exact Hb].
  - rewrite filter_cons_False by (rewrite D; discriminate). split; assumption.
Qed.

(** ** One request among others *)

(** The response bears the id [s]. *)
Definition bears (s : string) (r : response) : bool :=
  match response_id r with
  | Some s' => String.eqb s' s
  | None => false
  end.

(** The emissions that bear the id [s], in order. *)
Definition emitted_for (s : string) (out : list response) : list response :=
  List.filter (bears s) out.

(** An event that is not a request with the id [s]. *)
Definition foreign (s : string) (ev : event) : Prop :=
  match ev with
  | Message e => req_id e <> Some s
  | _ => True
  end.

(** An id that is not empty and is none of the ids the worker itself puts on
    responses ([unknown], [system], [init]). *)
Definition usable_id (s : string) : Prop :=
  s <> ""%string /\ s <> "unknown"%string /\ s <> "system"%string /\ s <> "init"%string.

(** Every timer handle in use is below the next one. *)
Definition timers_below (w : worker) : Prop :=
  forall k iv, timers w !! k = Some iv -> (k < next_timer w)%nat.

Lemma emitted_for_app s out1 out2 :
  emitted_for s (out1 ++ out2) = (emitted_for s out1 ++ emitted_for s out2)%list.
Proof. apply List.filter_app. Qed.

Lemma emitted_for_none s out :
  Forall (fun r => response_id r <> Some s) out -> emitted_for s out = [].
Proof.
  induction 1 as [|r out Hr _ IH]; [reflexivity|]. cbn [emitted_for List.filter].
  unfold bears at 1. destruct (response_id r) as [s'|]; [|exact IH].
  destruct (String.eqb_spec s' s); [congruence | exact IH].
Qed.

Lemma emitted_for_all s out :
  Forall (fun r => response_id r = Some s) out -> emitted_for s out = out.
Proof.
  induction 1 as [|r out Hr _ IH]; [reflexivity|]. cbn [emitted_for List.filter].
  unfold bears at 1. rewrite Hr, String.eqb_refl. f_equal. exact IH.
Qed.

Lemma id_or_unknown_cases id :
  id_or_unknown id = "unknown"%string \/ id = Some (id_or_unknown id).
Proof.
  destruct id as [s|]; [|now left]. simpl.
  destruct (String.eqb_spec s ""); [now left | now right].
Qed.

Lemma terminal_id id t : terminal_for id t ->
  response_id t = id \/ response_id t = Some (id_or_unknown id).
Proof. intros [(c & b & ->)|(e & ->)]; [now left | now right]. Qed.

Lemma tick_output_ids id duration steps c :
  Forall (fun r => response_id r = id) (tick_output id duration steps c).
Proof. unfold tick_output. destruct (steps <=? c); repeat constructor. Qed.

Section Interleaving.

Variable toFixed4 : number -> number.
Variable s : string.
Hypothesis Hs : usable_id s.

(** What the listener emits does not depend on the worker. *)
Lemma onmessage_emissions w w' e :
  snd (onmessage toFixed4 w e) = snd (onmessage toFixed4 w' e).
Proof.
  unfold onmessage. destruct (dispatch (req_command e)) as [[]|];
    match goal with
    | |- context [handleCalculate ?d ?i] => destruct (handleCalculate d i) as [out [err|[]]]
    | |- context [handleProcessData ?f ?d ?i] => destruct (handleProcessData f d i) as [out [err|[]]]
    | |- context [handleFibonacci ?d ?i] => destruct (handleFibonacci d i) as [out [err|[]]]
    | |- context [handlePrimeNumbers ?d ?i] => destruct (handlePrimeNumbers d i) as [out [err|[]]]
    | |- context [handleSortArray ?d ?i] => destruct (handleSortArray d i) as [out [err|[]]]
    | _ => idtac
    end; reflexivity.
Qed.

(** A step on a foreign event that is not the firing of a timer of [s]:
    nothing is emitted for [s], the timers of [s] stay as they are, and no
    timer of [s] appears. *)
Lemma step_foreign w ev :
  foreign s ev -> timers_below w ->
  (forall k iv, ev = Timer k -> timers w !! k = Some iv -> iv_id iv <> Some s) ->
  emitted_for s (snd (step toFixed4 w ev)) = [] /\
  timers_below (fst (step toFixed4 w ev)) /\
  (forall k iv, timers (fst (step toFixed4 w ev)) !! k = Some iv ->
                timers w !! k = Some iv \/ iv_id iv <> Some s) /\
  (forall k iv, timers w !! k = Some iv -> iv_id iv = Some s ->
                timers (fst (step toFixed4 w ev)) !! k = Some iv).
Proof.
  destruct Hs as (Hne & Hunk & Hsys & Hinit).
  intros Hf Hbelow Htimer. destruct ev as [e|k|m|r]; cbn [step foreign] in *.
  - (* a request with another id *)
    destruct (dispatch_cases (req_command e)) as [[D _]|[[D _]|[[D _]|[[D _]|[[D _]|[[D _]|[D _]]]]]]].
    3:{ rewrite (onmessage_simulateWork toFixed4 _ _ D). cbn [fst snd].
        unfold handleSimulateWork, setInterval, timers_below. cbn [timers next_timer].
        split; [reflexivity|]. split; [|split].
        - intros k iv. destruct (decide (k = next_timer w)) as [->|Hk]; [intros _; lia|].
          rewrite lookup_insert_ne by congruence. intros H. apply Hbelow in H. lia.
        - intros k iv. destruct (decide (k = next_timer w)) as [->|Hk].
          + rewrite lookup_insert_eq. intros [= <-]. right. exact Hf.
          + rewrite lookup_insert_ne by congruence. now left.
        - intros k iv Hk _. pose proof (Hbelow _ _ Hk).
          rewrite lookup_insert_ne by lia. exact Hk. }
    all: destruct (onmessage_synchronous toFixed4 w e) as (reports & t & E & F & T);
      [congruence|]; rewrite E; cbn [fst snd];
      (split; [|split; [exact Hbelow | split; [intros; now left | intros; assumption]]]);
      apply emitted_for_none, List.Forall_app; split;
      [ eapply Forall_impl; [exact F|]; intros r (p & c & ->); exact Hf
      | constructor; [|constructor];
        destruct (terminal_id _ _ T) as [-> | ->]; [exact Hf|];
        destruct (id_or_unknown_cases (req_id e)) as [-> | Hid]; congruence ].
  - (* a timer of another request, or no timer *)
    destruct (timers w !! k) as [iv|] eqn:Hk.
    2:{ cbn [fst snd]. split; [reflexivity|]. split; [exact Hbelow|].
        split; [intros; now left | intros; assumption]. }
    pose proof (Htimer k iv eq_refl Hk) as Hid.
    rewrite interval_callback_eq. cbn [fst snd]. split; [|split; [|split]].
    + apply emitted_for_none. eapply Forall_impl; [apply tick_output_ids|].
      intros r ->. exact Hid.
    + destruct (iv_steps iv <=? iv_currentStep iv + 1);
        unfold timers_below, clearInterval; cbn [timers next_timer]; intros k' iv'.
      * destruct (decide (k' = k)) as [->|Hne']; [now rewrite lookup_delete_eq|].
        rewrite lookup_delete_ne by congruence. apply Hbelow.
      * destruct (decide (k' = k)) as [->|Hne']; [intros _; now apply (Hbelow k iv)|].
        rewrite lookup_insert_ne by congruence. apply Hbelow.
    + destruct (iv_steps iv <=? iv_currentStep iv + 1);
        unfold clearInterval; cbn [timers next_timer]; intros k' iv'.
      * destruct (decide (k' = k)) as [->|Hne']; [now rewrite lookup_delete_eq|].
        rewrite lookup_delete_ne by congruence. now left.
      * destruct (decide (k' = k)) as [->|Hne'].
        -- rewrite lookup_insert_eq. intros [= <-]. right. exact Hid.
        -- rewrite lookup_insert_ne by congruence. now left.
    + destruct (iv_steps iv <=? iv_currentStep iv + 1);
        unfold clearInterval; cbn [timers next_timer];
        intros k' iv' Hk' Hid'; (assert (k' <> k) by (intros ->; congruence)).
      * rewrite lookup_delete_ne by congruence. exact Hk'.
      * rewrite lookup_insert_ne by congruence. exact Hk'.
  - cbn [fst snd]. split.
    + apply emitted_for_none. constructor; [cbn; congruence | constructor].
    + split; [exact Hbelow|]. split; [intros; now left | intros; assumption].
  - cbn [fst snd]. split.
    + apply emitted_for_none. constructor; [cbn; congruence | constructor].
    + split; [exact Hbelow|]. split; [intros; now left | intros; assumption].
Qed.

(** No timer of the worker belongs to [s]. *)
Definition quiet (w : worker) : Prop :=
  forall k iv, timers w !! k = Some iv -> iv_id iv <> Some s.

(** While no request with the id [s] arrives and no timer belongs to it,
    nothing is emitted for [s]. *)
Lemma quiet_run : forall events w,
  timers_below w -> quiet w -> Forall (foreign s) events ->
  emitted_for s (run toFixed4 w events) = [] /\
  timers_below (final toFixed4 w events) /\ quiet (final toFixed4 w events).
Proof.
  induction events as [|ev events IH]; intros w Hb Hq Hf; [repeat split; assumption|].
  apply List.Forall_cons_iff in Hf as [Hev Hf].
  destruct (step_foreign w ev Hev Hb) as (E & Hb' & Hnew & _).
  { intros k iv _ Hk. exact (Hq k iv Hk). }
  cbn [run final]. destruct (step toFixed4 w ev) as [w' out]. cbn [fst snd] in *.
  destruct (IH w' Hb') as (E' & Hb'' & Hq''); [|exact Hf|].
  - intros k iv Hk. destruct (Hnew k iv Hk) as [H|H]; [exact (Hq k iv H) | exact H].
  - rewrite emitted_for_app, E, E'. repeat split; assumption.
Qed.

(** The timer [k] is the one timer of [s]. *)
Definition in_flight (w : worker) (k : nat) (iv : interval) : Prop :=
  timers w !! k = Some iv /\
  forall k' iv', k' <> k -> timers w !! k' = Some iv' -> iv_id iv' <> Some s.

(** While the interval of [s] runs and no other request with the id [s]
    arrives, the emissions for [s] are those of the firings of its timer. *)
Lemma flight_run : forall events w k duration steps stepDuration c,
  timers_below w ->
  in_flight w k (Interval (Some s) duration steps stepDuration c) ->
  0 <= c < last_tick steps ->
  Forall (foreign s) events ->
  exists n : nat,
    emitted_for s (run toFixed4 w events) =
    interval_trace (Some s) duration steps c (Nat.min n (Z.to_nat (last_tick steps - c))).
Proof.
  induction events as [|ev events IH]; intros w k duration steps stepDuration c Hb [Hk Hothers] Hc Hf.
  { exists 0%nat. reflexivity. }
  apply List.Forall_cons_iff in Hf as [Hev Hf].
  assert (Hdec : ev = Timer k \/ ev <> Timer k).
  { destruct ev as [e|k0|m|r]; try (right; discriminate).
    destruct (decide (k0 = k)) as [->|Hk0]; [now left | right; congruence]. }
  destruct Hdec as [->|Hne].
  - (* the timer of [s] fires *)
    cbn [run step]. rewrite Hk, interval_callback_eq.
    cbn [iv_id iv_duration iv_steps iv_stepDuration iv_currentStep].
    rewrite emitted_for_app, (emitted_for_all s (tick_output _ _ _ _)) by apply tick_output_ids.
    destruct (Z.leb_spec steps (c + 1)) as [Hdone|Hmore].
    + destruct (quiet_run events (clearInterval w k)) as (E & _).
      * unfold timers_below, clearInterval. cbn [timers next_timer]. intros k' iv'.
        destruct (decide (k' = k)) as [->|Hk']; [now rewrite lookup_delete_eq|].
        rewrite lookup_delete_ne by congruence. apply Hb.
      * unfold quiet, clearInterval. cbn [timers]. intros k' iv'.
        destruct (decide (k' = k)) as [->|Hk']; [now rewrite lookup_delete_eq|].
        rewrite lookup_delete_ne by congruence. now apply Hothers.
      * exact Hf.
      * rewrite E, app_nil_r. exists 1%nat.
        replace (Z.to_nat (last_tick steps - c)) with 1%nat by (unfold last_tick in *; lia).
        unfold interval_trace. cbn [Nat.min range flat_map]. now rewrite app_nil_r.
    + edestruct (IH (Worker (<[k := Interval (Some s) duration steps stepDuration (c + 1)]> (timers w))
                       (next_timer w)) k) as (n & E).
      * unfold timers_below. cbn [timers next_timer]. intros k' iv'.
        destruct (decide (k' = k)) as [->|Hk']; [intros _; now apply (Hb k _ Hk)|].
        rewrite lookup_insert_ne by congruence. apply Hb.
      * unfold in_flight. cbn [timers]. split; [apply lookup_insert_eq|].
        intros k' iv' Hk'. rewrite lookup_insert_ne by congruence.
        now apply Hothers.
      * unfold last_tick in *. lia.
      * exact Hf.
      * rewrite E. exists (S n).
        replace (Z.to_nat (last_tick steps - c))
          with (S (Z.to_nat (last_tick steps - (c + 1)))) by (unfold last_tick in *; lia).
        unfold interval_trace. cbn [Nat.min range flat_map]. reflexivity.
  - (* another event *)
    destruct (step_foreign w ev Hev Hb) as (E & Hb' & Hnew & Hkeep).
    { intros k' iv' -> Hk'. apply (Hothers k' iv'); [congruence | exact Hk']. }
    cbn [run]. destruct (step toFixed4 w ev) as [w' out]. cbn [fst snd] in *.
    destruct (IH w' k duration steps stepDuration c Hb') as (n & E'); [|exact Hc | exact Hf|].
    + split; [apply Hkeep; [exact Hk | reflexivity]|].
      intros k' iv' Hk' Hl. destruct (Hnew k' iv' Hl) as [H|H]; [|exact H].
      now apply (Hothers k' iv').
    + exists n. now rewrite emitted_for_app, E, E'.
Qed.

End Interleaving.

(* ===================================================================== *)
(** * An interval among other requests *)
(* ===================================================================== *)

(** How many times the timer [k] fires in a sequence of events. *)
Definition firings (k : nat) (events : list event) : nat :=
  length (List.filter (fun ev => match ev with Timer k' => Nat.eqb k' k | _ => false end) events).

Section Flight.

Variable toFixed4 : number -> number.
Variable s : string.
Hypothesis Hs : usable_id s.

(** While the interval of [s] runs and no other request with the id [s]
    arrives, the emissions for [s] are those of the firings of its timer,
    one tick for each, until the last step. *)
Lemma flight_run_count : forall events w k duration steps stepDuration c,
  timers_below w ->
  in_flight s w k (Interval (Some s) duration steps stepDuration c) ->
  0 <= c < last_tick steps ->
  Forall (foreign s) events ->
  emitted_for s (run toFixed4 w events) =
  interval_trace (Some s) duration steps c
    (Nat.min (firings k events) (Z.to_nat (last_tick steps - c))).
Proof.
  induction events as [|ev events IH];
    intros w k duration steps stepDuration c Hb [Hk Hothers] Hc Hf; [reflexivity|].
  apply List.Forall_cons_iff in Hf as [Hev Hf].
  assert (Hdec : ev = Timer k \/ ev <> Timer k).
  { destruct ev as [e|k0|m|r]; try (right; discriminate).
    destruct (decide (k0 = k)) as [->|Hk0]; [now left | right; congruence]. }
  destruct Hdec as [->|Hne].
  - (* the timer of [s] fires *)
    unfold firings. cbn [List.filter]. rewrite Nat.eqb_refl. cbn [length].
    fold (firings k events).
    cbn [run step]. rewrite Hk, interval_callback_eq.
    cbn [iv_id iv_duration iv_steps iv_stepDuration iv_currentStep].
    rewrite emitted_for_app, (emitted_for_all s (tick_output _ _ _ _)) by apply tick_output_ids.
    destruct (Z.leb_spec steps (c + 1)) as [Hdone|Hmore].
    + destruct (quiet_run toFixed4 s Hs events (clearInterval w k)) as (E & _).
      * unfold timers_below, clearInterval. cbn [timers next_timer]. intros k' iv'.
        destruct (decide (k' = k)) as [->|Hk']; [now rewrite lookup_delete_eq|].
        rewrite lookup_delete_ne by congruence. apply Hb.
      * unfold quiet, clearInterval. cbn [timers]. intros k' iv'.
        destruct (decide (k' = k)) as [->|Hk']; [now rewrite lookup_delete_eq|].
        rewrite lookup_delete_ne by congruence. now apply Hothers.
      * exact Hf.
      * rewrite E, app_nil_r.
        replace (Z.to_nat (last_tick steps - c)) with 1%nat by (unfold last_tick in *; lia).
        replace (Nat.min (S (firings k events)) 1) with 1%nat by lia.
        unfold interval_trace. cbn [range flat_map]. now rewrite app_nil_r.
    + rewrite (IH (Worker (<[k := Interval (Some s) duration steps stepDuration (c + 1)]>
                             (timers w)) (next_timer w)) k duration steps stepDuration (c + 1)).
      * replace (Z.to_nat (last_tick steps - c))
          with (S (Z.to_nat (last_tick steps - (c + 1)))) by (unfold last_tick in *; lia).
        unfold interval_trace. cbn [Nat.min range flat_map]. reflexivity.
      * unfold timers_below. cbn [timers next_timer]. intros k' iv'.
        destruct (decide (k' = k)) as [->|Hk']; [intros _; now apply (Hb k _ Hk)|].
        rewrite lookup_insert_ne by congruence. apply Hb.
      * unfold in_flight. cbn [timers]. split; [apply lookup_insert_eq|].
        intros k' iv' Hk'. rewrite lookup_insert_ne by congruence.
        now apply Hothers.
      * unfold last_tick in *. lia.
      * exact Hf.
  - (* another event *)
    assert (Hsame : firings k (ev :: events) = firings k events).
    { unfold firings. cbn [List.filter]. destruct ev as [e|k0|m|r]; try reflexivity.
      destruct (Nat.eqb_spec k0 k) as [->|_]; [congruence | reflexivity]. }
    rewrite Hsame.
    destruct (step_foreign toFixed4 s Hs w ev Hev Hb) as (E & Hb' & Hnew & Hkeep).
    { intros k' iv' -> Hk'. apply (Hothers k' iv'); [congruence | exact Hk']. }
    cbn [run]. destruct (step toFixed4 w ev) as [w' out]. cbn [fst snd] in *.
    rewrite emitted_for_app, E. cbn [app].
    apply (IH w' k duration steps stepDuration c Hb'); [|exact Hc | exact Hf].
    split; [apply Hkeep; [exact Hk | reflexivity]|].
    intros k' iv' Hk' Hl. destruct (Hnew k' iv' Hl) as [H|H]; [|exact H].
    now apply (Hothers k' iv').
Qed.

End Flight.

(* ===================================================================== *)
(** * Rounding to nearest is monotone *)
(* ===================================================================== *)

From Stdlib Require Reals Lra.

(** The operations on doubles are specified by [SpecFloat]: the exact result
    is cut to 53 bits, with a guard bit and a sticky bit, and rounded to
    nearest, ties to even.  This part shows that the rounding is monotone,
    and from it that the percentage [Math.floor((i / n) * 100)] never
    decreases with [i] and lies between 0 and 100. *)
Module Rounding.

Import Reals Lra.

(** ** Powers of two *)

Definition bpow (e : Z) : R := powerRZ 2 e.

Lemma bpow_pos e : (0 < bpow e)%R.
Proof. apply powerRZ_lt. lra. Qed.

Lemma bpow_add a b : bpow (a + b) = (bpow a * bpow b)%R.
Proof. apply powerRZ_add. lra. Qed.

Lemma bpow_0 : bpow 0 = 1%R.
Proof. reflexivity. Qed.

Lemma bpow_1 : bpow 1 = 2%R.
Proof. unfold bpow. simpl. lra. Qed.

Lemma bpow_IZR k : 0 <= k -> bpow k = IZR (2 ^ k).
Proof.
  intros Hk. unfold bpow. rewrite <- (Z2Nat.id k Hk) at 1.
  rewrite <- pow_powerRZ. rewrite pow_IZR. now rewrite Z2Nat.id.
Qed.

Lemma pow2_pos k : 0 <= k -> 0 < 2 ^ k.
Proof. intros. apply Z.pow_pos_nonneg; lia. Qed.

Lemma bpow_le a b : a <= b -> (bpow a <= bpow b)%R.
Proof.
  intros H. replace b with (a + (b - a)) by lia. rewrite bpow_add.
  rewrite (bpow_IZR (b - a)) by lia.
  assert (1 <= IZR (2 ^ (b - a)))%R by (apply IZR_le; pose proof (pow2_pos (b - a)); lia).
  pose proof (bpow_pos a). nra.
Qed.

Lemma bpow_lt a b : a < b -> (bpow a < bpow b)%R.
Proof.
  intros H. replace b with (a + (b - a)) by lia. rewrite bpow_add.
  rewrite (bpow_IZR (b - a)) by lia.
  assert (2 <= IZR (2 ^ (b - a)))%R.
  { apply IZR_le. replace (b - a) with (1 + (b - a - 1)) by lia.
    rewrite Z.pow_add_r by lia. pose proof (pow2_pos (b - a - 1)). lia. }
  pose proof (bpow_pos a). nra.
Qed.

Lemma bpow_lt_inv a b : (bpow a < bpow b)%R -> a < b.
Proof.
  intros H. destruct (Z_lt_le_dec a b) as [L|L]; [exact L|].
  pose proof (bpow_le b a L). lra.
Qed.

(** ** The number of bits *)

Lemma digits2_size p : digits2_pos p = Pos.size p.
Proof. induction p; simpl; congruence. Qed.

Lemma digits_bounds p :
  2 ^ (Zpos (digits2_pos p) - 1) <= Zpos p < 2 ^ Zpos (digits2_pos p).
Proof.
  rewrite digits2_size. split.
  - pose proof (Pos.size_le p) as H.
    assert (H' : 2 ^ Zpos (Pos.size p) <= 2 * Zpos p).
    { change (2 * Zpos p) with (Zpos p~0). rewrite <- Pos2Z.inj_pow. now apply Pos2Z.pos_le_pos. }
    replace (Zpos (Pos.size p)) with (1 + (Zpos (Pos.size p) - 1)) in H' by lia.
    rewrite Z.pow_add_r in H' by lia. lia.
  - pose proof (Pos.size_gt p) as H. rewrite <- Pos2Z.inj_pow. now apply Pos2Z.pos_lt_pos.
Qed.

Lemma digits_unique p d :
  2 ^ (d - 1) <= Zpos p < 2 ^ d -> Zpos (digits2_pos p) = d.
Proof.
  intros [H1 H2]. pose proof (digits_bounds p) as [B1 B2].
  set (d' := Zpos (digits2_pos p)) in *.
  destruct (Z.lt_trichotomy d' d) as [L|[E|G]]; [|exact E|].
  - assert (2 ^ d' <= 2 ^ (d - 1)) by (apply Z.pow_le_mono_r; lia). lia.
  - assert (0 <= d).
    { destruct (Z_lt_le_dec d 0) as [N|N]; [|exact N].
      rewrite (Z.pow_neg_r 2 d N) in H2. lia. }
    assert (2 ^ d <= 2 ^ (d' - 1)) by (apply Z.pow_le_mono_r; lia). lia.
Qed.

(** ** Shifting to the right *)

(** A record stands for the integer [2 * m + r], the mantissa with its
    guard bit, with the sticky bit [s] aside. *)
Definition guard (mrs : shr_record) : Z :=
  2 * shr_m mrs + (if shr_r mrs then 1 else 0).

Lemma shr_1_spec mrs :
  0 <= shr_m mrs ->
  guard (shr_1 mrs) = guard mrs / 2 /\
  shr_s (shr_1 mrs) = shr_s mrs || Z.odd (guard mrs) /\
  0 <= shr_m (shr_1 mrs).
Proof.
  destruct mrs as [m r s]. unfold guard. cbn [shr_m shr_r shr_s]. intros Hm.
  assert (Hg : (2 * m + (if r then 1 else 0)) / 2 = m).
  { destruct r; symmetry;
      [apply (Z.div_unique (2 * m + 1) 2 m 1) | apply (Z.div_unique (2 * m + 0) 2 m 0)]; lia. }
  assert (Ho : Z.odd (2 * m + (if r then 1 else 0)) = r).
  { destruct r; [rewrite Z.add_comm, Z.odd_add_mul_2 | rewrite Z.add_0_r, Z.odd_mul];
      reflexivity. }
  rewrite Hg, Ho.
  destruct m as [|[p|p|]|p]; try lia; cbn [shr_1 shr_m shr_r shr_s];
    (split; [|split; [destruct r, s; reflexivity | lia]]); lia.
Qed.

Fixpoint shr_iter (n : nat) (mrs : shr_record) : shr_record :=
  match n with
  | O => mrs
  | S n' => shr_iter n' (shr_1 mrs)
  end.

Lemma shr_iter_add a b mrs : shr_iter (a + b) mrs = shr_iter b (shr_iter a mrs).
Proof. revert mrs. induction a as [|a IH]; intros mrs; [reflexivity | apply IH]. Qed.

Lemma iter_pos_shr_iter p mrs :
  @SpecFloat.iter_pos shr_record shr_1 p mrs = shr_iter (Pos.to_nat p) mrs.
Proof.
  revert mrs. induction p as [p IH|p IH|]; intros mrs; cbn [SpecFloat.iter_pos].
  - rewrite !IH. rewrite Pos2Nat.inj_xI.
    replace (S (2 * Pos.to_nat p)) with (1 + (Pos.to_nat p + Pos.to_nat p))%nat by lia.
    now rewrite !shr_iter_add.
  - rewrite !IH. rewrite Pos2Nat.inj_xO.
    replace (2 * Pos.to_nat p)%nat with (Pos.to_nat p + Pos.to_nat p)%nat by lia.
    now rewrite shr_iter_add.
  - reflexivity.
Qed.

Lemma sticky_step g n :
  0 <= n ->
  Z.odd g || negb ((g / 2) mod 2 ^ n =? 0) = negb (g mod 2 ^ (n + 1) =? 0).
Proof.
  intros Hn. pose proof (pow2_pos n Hn) as Hp.
  rewrite (Z.add_comm n 1), Z.pow_add_r, Z.pow_1_r by lia.
  rewrite Z.rem_mul_r by lia.
  pose proof (Z.mod_pos_bound (g / 2) (2 ^ n) Hp) as Hr.
  rewrite (Zmod_odd g).
  destruct (Z.odd g);
    destruct (Z.eqb_spec ((g / 2) mod 2 ^ n) 0) as [E0|N0];
    match goal with
    | |- context [?a =? 0] => destruct (Z.eqb_spec a 0) as [E2|N2]
    end; cbn; try reflexivity; exfalso; lia.
Qed.

Lemma shr_iter_spec : forall n mrs,
  0 <= shr_m mrs ->
  guard (shr_iter n mrs) = guard mrs / 2 ^ Z.of_nat n /\
  shr_s (shr_iter n mrs) = shr_s mrs || negb (guard mrs mod 2 ^ Z.of_nat n =? 0) /\
  0 <= shr_m (shr_iter n mrs).
Proof.
  induction n as [|n IH]; intros mrs Hm.
  - cbn [shr_iter]. change (2 ^ Z.of_nat 0) with 1. rewrite Z.div_1_r, Z.mod_1_r.
    cbn. rewrite orb_false_r. auto.
  - cbn [shr_iter]. destruct (shr_1_spec mrs Hm) as (G1 & S1 & M1).
    destruct (IH (shr_1 mrs) M1) as (G & S & M).
    rewrite G, S, G1, S1. split; [|split; [|exact M]].
    + rewrite Z.div_div by (try apply pow2_pos; lia).
      f_equal. rewrite Nat2Z.inj_succ, Z.pow_succ_r by lia. reflexivity.
    + rewrite <- orb_assoc. f_equal.
      rewrite Nat2Z.inj_succ, <- Z.add_1_r. apply sticky_step. lia.
Qed.

Lemma guard_half mrs : guard mrs / 2 = shr_m mrs.
Proof.
  destruct mrs as [m r s]. unfold guard. cbn [shr_m shr_r].
  destruct r; symmetry;
    [apply (Z.div_unique (2 * m + 1) 2 m 1) | apply (Z.div_unique (2 * m + 0) 2 m 0)]; lia.
Qed.

Lemma guard_odd mrs : Z.odd (guard mrs) = shr_r mrs.
Proof.
  destruct mrs as [m r s]. unfold guard. cbn [shr_m shr_r].
  destruct r; [rewrite Z.add_comm, Z.odd_add_mul_2 | rewrite Z.add_0_r, Z.odd_mul];
    reflexivity.
Qed.

Lemma shr_spec mrs e n :
  0 <= shr_m mrs -> 0 <= n ->
  snd (shr mrs e n) = e + n /\
  guard (fst (shr mrs e n)) = guard mrs / 2 ^ n /\
  shr_s (fst (shr mrs e n)) = shr_s mrs || negb (guard mrs mod 2 ^ n =? 0) /\
  0 <= shr_m (fst (shr mrs e n)).
Proof.
  intros Hm Hn. destruct n as [|p|p]; [| |lia]; cbn [shr fst snd].
  - change (2 ^ 0) with 1. rewrite Z.div_1_r, Z.mod_1_r, Z.add_0_r. cbn.
    rewrite orb_false_r. auto.
  - rewrite iter_pos_shr_iter.
    destruct (shr_iter_spec (Pos.to_nat p) mrs Hm) as (G & S & M).
    rewrite positive_nat_Z in G, S. auto.
Qed.

(** ** Rounding to nearest, ties to even *)

(** The mantissa with its guard bit [g] and the sticky bit [s], rounded. *)
Definition rne (g : Z) (s : bool) : Z :=
  g / 2 + (if Z.odd g && (s || Z.odd (g / 2)) then 1 else 0).

Lemma round_nearest_even_rne mrs :
  round_nearest_even (shr_m mrs) (loc_of_shr_record mrs) = rne (guard mrs) (shr_s mrs).
Proof.
  unfold rne. rewrite guard_half, guard_odd.
  destruct mrs as [m r s]. cbn [shr_m shr_r shr_s loc_of_shr_record].
  destruct r, s; cbn [round_nearest_even andb orb]; try lia.
  rewrite <- Z.negb_odd. destruct (Z.odd m); cbn; lia.
Qed.

Lemma rne_bounds g s : g / 2 <= rne g s <= g / 2 + 1.
Proof. unfold rne. destruct (Z.odd g && (s || Z.odd (g / 2))); lia. Qed.

(** The order on mantissas with guard and sticky bits. *)
Definition guard_le (g1 : Z) (s1 : bool) (g2 : Z) (s2 : bool) : Prop :=
  g1 < g2 \/ (g1 = g2 /\ (s1 = true -> s2 = true)).

Lemma rne_mono g1 s1 g2 s2 : guard_le g1 s1 g2 s2 -> rne g1 s1 <= rne g2 s2.
Proof.
  intros [Hlt|[-> Hs]].
  - pose proof (rne_bounds g1 s1). pose proof (rne_bounds g2 s2).
    assert (Hh : g1 / 2 <= g2 / 2) by (apply Z.div_le_mono; lia).
    destruct (Z.eq_dec (g1 / 2) (g2 / 2)) as [E|N]; [|lia].
    (* same mantissa: the guard bit of the first is 0 *)
    assert (Ho : Z.odd g1 = false).
    { pose proof (Zmod_odd g1) as O1. pose proof (Zmod_odd g2) as O2.
      pose proof (Z.div_mod g1 2 ltac:(lia)). pose proof (Z.div_mod g2 2 ltac:(lia)).
      destruct (Z.odd g1), (Z.odd g2); try reflexivity; lia. }
    unfold rne at 1. rewrite Ho. cbn. lia.
  - unfold rne. destruct (Z.odd g2); cbn; [|lia].
    destruct s1; [rewrite Hs by reflexivity; cbn; lia|].
    cbn. destruct (Z.odd (g2 / 2)); [rewrite orb_true_r; lia|].
    destruct s2; cbn; lia.
Qed.

(** ** What [binary_round_aux] returns *)

(** The double with the mantissa [M], of 53 bits or equal to 2^53, and the
    exponent [e]. *)
Definition rounded (M e : Z) : spec_float :=
  if M <? 2 ^ 53 then S754_finite false (Z.to_pos M) e
  else S754_finite false (Z.to_pos (2 ^ 52)) (e + 1).

Lemma fexp_normal d : -1074 <= d - 53 -> fexp prec emax d = d - 53.
Proof. intros H. unfold fexp, emin, prec, emax. lia. Qed.

Lemma binary_round_aux_spec (m : positive) (e : Z) (l : location) :
  let mrs := shr_record_of_loc (Zpos m) l in
  let n := Zpos (digits2_pos m) - 53 in
  0 <= n -> -1074 <= e + n -> e + n + 1 <= 971 ->
  let g := guard mrs / 2 ^ n in
  let s := shr_s mrs || negb (guard mrs mod 2 ^ n =? 0) in
  2 ^ 52 <= g / 2 < 2 ^ 53 /\
  binary_round_aux prec emax false (Zpos m) e l = rounded (rne g s) (e + n).
Proof.
  intros mrs n Hn Hlo Hhi g s.
  assert (Hm0 : 0 <= shr_m mrs) by (unfold mrs; destruct l as [|[]]; cbn; lia).
  assert (Hmm : guard mrs / 2 = Zpos m).
  { rewrite guard_half. unfold mrs. destruct l as [|[]]; reflexivity. }
  assert (Hg2 : g / 2 = Zpos m / 2 ^ n).
  { unfold g. rewrite Z.div_div by (try apply pow2_pos; lia).
    rewrite Z.mul_comm, <- Z.div_div by (try apply pow2_pos; lia). now rewrite Hmm. }
  assert (Hb : 2 ^ 52 <= g / 2 < 2 ^ 53).
  { rewrite Hg2. pose proof (digits_bounds m) as [B1 B2].
    replace (Zpos (digits2_pos m) - 1) with (n + 52) in B1 by (unfold n; lia).
    replace (Zpos (digits2_pos m)) with (n + 53) in B2 by (unfold n; lia).
    rewrite Z.pow_add_r in B1, B2 by lia. pose proof (pow2_pos n Hn). split.
    - apply Z.div_le_lower_bound; lia.
    - apply Z.div_lt_upper_bound; lia. }
  split; [exact Hb|].
  unfold binary_round_aux, shr_fexp. cbn [Zdigits2].
  rewrite fexp_normal by (unfold n in Hlo; lia).
  replace (Zpos (digits2_pos m) + e - 53 - e) with n by (unfold n; lia).
  fold mrs. destruct (shr_spec mrs e n Hm0 Hn) as (E1 & G1 & S1 & M1).
  destruct (shr mrs e n) as [mrs' e']. cbn [fst snd] in *. subst e'.
  rewrite round_nearest_even_rne, G1, S1. fold g s.
  pose proof (rne_bounds g s) as HM. set (M := rne g s) in *.
  unfold rounded. destruct (Z.ltb_spec M (2 ^ 53)) as [Hlt|Hge].
  - destruct M as [|pM|pM]; try lia.
    assert (Hd : Zpos (digits2_pos pM) = 53) by (apply digits_unique; lia).
    cbn [Zdigits2]. rewrite Hd, fexp_normal by lia.
    replace (53 + (e + n) - 53 - (e + n)) with 0 by lia.
    cbn [shr shr_record_of_loc shr_m]. rewrite Pos2Z.id.
    destruct (Z.leb_spec (e + n) (emax - prec)) as [_|H]; [reflexivity|].
    unfold emax, prec in H. lia.
  - assert (EM : M = 2 ^ 53) by lia. rewrite EM.
    change (Zdigits2 (2 ^ 53)) with 54. rewrite fexp_normal by lia.
    replace (54 + (e + n) - 53 - (e + n)) with 1 by lia.
    cbn [shr shr_record_of_loc SpecFloat.iter_pos].
    change (shr_m (shr_1 {| shr_m := 2 ^ 53; shr_r := false; shr_s := false |}))
      with (2 ^ 52).
    change (2 ^ 52) with (Zpos (Z.to_pos (2 ^ 52))) at 1. cbv iota.
    destruct (Z.leb_spec (e + n + 1) (emax - prec)) as [_|H]; [reflexivity|].
    unfold emax, prec in H. lia.
Qed.

(** ** Real values *)

Definition F2R (m e : Z) : R := (IZR m * bpow e)%R.

(** [x] lies where the mantissa [g / 2] of exponent [e], the guard bit and
    the sticky bit [s] say: the unit of [g] is 2^(e - 1). *)
Definition repr (g : Z) (s : bool) (e : Z) (x : R) : Prop :=
  if s then (F2R g (e - 1) < x < F2R (g + 1) (e - 1))%R else x = F2R g (e - 1).

Lemma repr_shift g s e n x :
  0 <= n -> repr g s e x ->
  repr (g / 2 ^ n) (s || negb (g mod 2 ^ n =? 0)) (e + n) x.
Proof.
  intros Hn H. pose proof (pow2_pos n Hn) as Hp.
  pose proof (Z.div_mod g (2 ^ n) ltac:(lia)) as Hdm.
  pose proof (Z.mod_pos_bound g (2 ^ n) Hp) as Hr.
  set (q := g / 2 ^ n) in *. set (r := g mod 2 ^ n) in *.
  assert (Hu : bpow (e + n - 1) = (bpow (e - 1) * IZR (2 ^ n))%R).
  { replace (e + n - 1) with ((e - 1) + n) by lia. now rewrite bpow_add, (bpow_IZR n). }
  pose proof (bpow_pos (e - 1)) as Hpos. set (u := bpow (e - 1)) in *.
  assert (Hg : IZR g = (IZR (2 ^ n) * IZR q + IZR r)%R).
  { rewrite Hdm at 1. now rewrite plus_IZR, mult_IZR. }
  assert (Hr0 : (0 <= IZR r)%R) by (apply IZR_le; lia).
  assert (Hr1 : (IZR r + 1 <= IZR (2 ^ n))%R).
  { rewrite <- plus_IZR. apply IZR_le. lia. }
  assert (HP : (1 <= IZR (2 ^ n))%R) by (apply IZR_le; lia).
  unfold repr, F2R in *. rewrite Hu. fold u in H |- *. rewrite plus_IZR in *.
  destruct s; cbn [orb].
  - rewrite Hg in H. split; nra.
  - destruct (Z.eqb_spec r 0) as [E0|N0]; cbn [negb].
    + rewrite Hg, E0 in H. rewrite H. lra.
    + assert (Hr2 : (1 <= IZR r)%R) by (apply IZR_le; lia).
      rewrite Hg in H. rewrite H. split; nra.
Qed.

Lemma repr_order g1 s1 g2 s2 e x1 x2 :
  repr g1 s1 e x1 -> repr g2 s2 e x2 -> (x1 <= x2)%R -> guard_le g1 s1 g2 s2.
Proof.
  intros H1 H2 Hx. pose proof (bpow_pos (e - 1)) as Hpos.
  unfold repr, F2R in *. rewrite ?plus_IZR in *. set (u := bpow (e - 1)) in *.
  unfold guard_le.
  destruct (Z.lt_trichotomy g1 g2) as [L|[E|G]]; [now left| |].
  - right. split; [exact E|]. subst g2. intros ->.
    destruct s2; [reflexivity|]. exfalso. lra.
  - exfalso. assert (Hg : (IZR g2 + 1 <= IZR g1)%R).
    { rewrite <- plus_IZR. apply IZR_le. lia. }
    destruct s1, s2; nra.
Qed.

(** The binade of [x]. *)
Lemma repr_magnitude (m : positive) g s e x :
  g / 2 = Zpos m -> repr g s e x ->
  (bpow (Zpos (digits2_pos m) - 1 + e) <= x < bpow (Zpos (digits2_pos m) + e))%R.
Proof.
  intros Hm H. pose proof (digits_bounds m) as [B1 B2].
  set (d := Zpos (digits2_pos m)) in *.
  assert (Hd : 1 <= d) by (unfold d; lia).
  pose proof (Z.div_mod g 2 ltac:(lia)) as Hdm. rewrite Hm in Hdm.
  pose proof (Z.mod_pos_bound g 2 ltac:(lia)) as Hr.
  assert (Hg1 : (2 * IZR (Zpos m) <= IZR g)%R).
  { rewrite <- mult_IZR. apply IZR_le. lia. }
  assert (Hg2 : (IZR g + 1 <= 2 * IZR (Zpos m) + 2)%R).
  { rewrite <- mult_IZR, <- !plus_IZR. apply IZR_le. lia. }
  assert (Hb1 : (IZR (2 ^ (d - 1)) <= IZR (Zpos m))%R) by now apply IZR_le.
  assert (Hb2 : (IZR (Zpos m) + 1 <= IZR (2 ^ d))%R).
  { rewrite <- plus_IZR. apply IZR_le. lia. }
  replace (d - 1 + e) with ((d - 1) + 1 + (e - 1)) by lia.
  replace (d + e) with (d + 1 + (e - 1)) by lia.
  rewrite !bpow_add, bpow_1, (bpow_IZR (d - 1)), (bpow_IZR d) by lia.
  pose proof (bpow_pos (e - 1)) as Hpos. set (u := bpow (e - 1)) in *.
  unfold repr, F2R in H. rewrite ?plus_IZR in H. fold u in H.
  assert (P1 : (IZR (2 ^ (d - 1)) * 2 * u <= IZR g * u)%R) by nra.
  assert (P2 : ((IZR g + 1) * u <= IZR (2 ^ d) * 2 * u)%R) by nra.
  destruct s; split; nra.
Qed.

(** The order of two rounded doubles, by exponent and then by mantissa. *)
Definition rounded_le (M1 E1 M2 E2 : Z) : Prop :=
  E1 < E2 \/ (E1 = E2 /\ M1 <= M2).

(** Rounding is monotone. *)
Lemma rounding_mono (m1 : positive) e1 l1 (m2 : positive) e2 l2 x1 x2 :
  let mrs1 := shr_record_of_loc (Zpos m1) l1 in
  let mrs2 := shr_record_of_loc (Zpos m2) l2 in
  let n1 := Zpos (digits2_pos m1) - 53 in
  let n2 := Zpos (digits2_pos m2) - 53 in
  0 <= n1 -> 0 <= n2 ->
  repr (guard mrs1) (shr_s mrs1) e1 x1 ->
  repr (guard mrs2) (shr_s mrs2) e2 x2 ->
  (x1 <= x2)%R ->
  rounded_le
    (rne (guard mrs1 / 2 ^ n1) (shr_s mrs1 || negb (guard mrs1 mod 2 ^ n1 =? 0))) (e1 + n1)
    (rne (guard mrs2 / 2 ^ n2) (shr_s mrs2 || negb (guard mrs2 mod 2 ^ n2 =? 0))) (e2 + n2).
Proof.
  intros mrs1 mrs2 n1 n2 Hn1 Hn2 R1 R2 Hx.
  assert (Hm1 : guard mrs1 / 2 = Zpos m1).
  { rewrite guard_half. unfold mrs1. destruct l1 as [|[]]; reflexivity. }
  assert (Hm2 : guard mrs2 / 2 = Zpos m2).
  { rewrite guard_half. unfold mrs2. destruct l2 as [|[]]; reflexivity. }
  pose proof (repr_magnitude m1 _ _ _ _ Hm1 R1) as [L1 _].
  pose proof (repr_magnitude m2 _ _ _ _ Hm2 R2) as [_ U2].
  assert (Hmag : Zpos (digits2_pos m1) - 1 + e1 < Zpos (digits2_pos m2) + e2).
  { apply bpow_lt_inv. lra. }
  unfold rounded_le.
  destruct (Z.eq_dec (e1 + n1) (e2 + n2)) as [E|N]; [|left; unfold n1, n2 in *; lia].
  right. split; [exact E|]. apply rne_mono.
  pose proof (repr_shift _ _ _ n1 _ Hn1 R1) as S1.
  pose proof (repr_shift _ _ _ n2 _ Hn2 R2) as S2.
  rewrite E in S1. exact (repr_order _ _ _ _ _ _ _ S1 S2 Hx).
Qed.

(** ** Doubles with 53 bits *)

(** The double [f] has the sign +, the mantissa [M] and the exponent [E]. *)
Definition normal (f : spec_float) (M E : Z) : Prop :=
  f = S754_finite false (Z.to_pos M) E /\ 2 ^ 52 <= M < 2 ^ 53.

Definition B2R (f : spec_float) : R :=
  match f with
  | S754_finite false m e => F2R (Zpos m) e
  | S754_finite true m e => (- F2R (Zpos m) e)%R
  | _ => 0%R
  end.

Lemma normal_B2R f M E : normal f M E -> B2R f = F2R M E.
Proof. intros [-> H]. cbn. rewrite Z2Pos.id by lia. reflexivity. Qed.

Lemma normal_inj f M1 E1 M2 E2 : normal f M1 E1 -> normal f M2 E2 -> M1 = M2 /\ E1 = E2.
Proof.
  intros [-> H1] [E H2]. injection E as E3 E4. split; [|exact E4].
  apply Z2Pos.inj in E3; lia.
Qed.

(** A rounded result is a double of 53 bits. *)
Lemma rounded_normal M E :
  2 ^ 52 <= M <= 2 ^ 53 ->
  exists M' E', normal (rounded M E) M' E' /\ F2R M' E' = F2R M E /\
                (M < 2 ^ 53 -> M' = M /\ E' = E) /\ (M = 2 ^ 53 -> M' = 2 ^ 52 /\ E' = E + 1).
Proof.
  intros HM. unfold rounded. destruct (Z.ltb_spec M (2 ^ 53)) as [Hlt|Hge].
  - exists M, E. split; [split; [reflexivity | lia]|]. split; [reflexivity|]. split; [auto | lia].
  - exists (2 ^ 52), (E + 1). split; [split; [reflexivity | lia]|].
    assert (EM : M = 2 ^ 53) by lia. split; [|split; [lia | auto]].
    unfold F2R. rewrite EM, bpow_add, bpow_1.
    change (2 ^ 53) with (2 * 2 ^ 52). rewrite mult_IZR. lra.
Qed.

Lemma normal_le_B2R f1 M1 E1 f2 M2 E2 :
  normal f1 M1 E1 -> normal f2 M2 E2 -> rounded_le M1 E1 M2 E2 -> (B2R f1 <= B2R f2)%R.
Proof.
  intros N1 N2 H. rewrite (normal_B2R _ _ _ N1), (normal_B2R _ _ _ N2).
  destruct N1 as [_ B1], N2 as [_ B2]. unfold F2R.
  destruct H as [Hlt|[-> Hm]].
  - assert (Hb : (bpow (E1 + 1) <= bpow E2)%R) by (apply bpow_le; lia).
    rewrite bpow_add, bpow_1 in Hb. pose proof (bpow_pos E1). pose proof (bpow_pos E2).
    assert (K1 : (IZR M1 <= IZR (2 ^ 53))%R) by (apply IZR_le; lia).
    assert (K2 : (IZR (2 ^ 52) <= IZR M2)%R) by (apply IZR_le; lia).
    change (2 ^ 53) with (2 * 2 ^ 52) in K1. rewrite mult_IZR in K1.
    assert (K3 : (0 < IZR (2 ^ 52))%R) by (apply IZR_lt; lia).
    nra.
  - pose proof (bpow_pos E2). assert (IZR M1 <= IZR M2)%R by now apply IZR_le. nra.
Qed.

Lemma B2R_le_normal f1 M1 E1 f2 M2 E2 :
  normal f1 M1 E1 -> normal f2 M2 E2 -> (B2R f1 <= B2R f2)%R -> rounded_le M1 E1 M2 E2.
Proof.
  intros N1 N2 H. unfold rounded_le.
  destruct (Z.lt_trichotomy E1 E2) as [L|[E|G]]; [now left| |].
  - right. split; [exact E|]. subst E2.
    rewrite (normal_B2R _ _ _ N1), (normal_B2R _ _ _ N2) in H. unfold F2R in H.
    pose proof (bpow_pos E1). apply le_IZR. nra.
  - exfalso.
    assert (Hs : rounded_le M2 E2 M1 E1) by (left; lia).
    pose proof (normal_le_B2R _ _ _ _ _ _ N2 N1 Hs) as H'.
    assert (Heq : B2R f1 = B2R f2) by lra.
    rewrite (normal_B2R _ _ _ N1), (normal_B2R _ _ _ N2) in Heq. unfold F2R in Heq.
    destruct N1 as [_ B1], N2 as [_ B2].
    assert (Hb : (bpow (E2 + 1) <= bpow E1)%R) by (apply bpow_le; lia).
    rewrite bpow_add, bpow_1 in Hb. pose proof (bpow_pos E1). pose proof (bpow_pos E2).
    assert (K1 : (IZR M2 + 1 <= IZR (2 ^ 53))%R) by (rewrite <- plus_IZR; apply IZR_le; lia).
    assert (K2 : (IZR (2 ^ 52) <= IZR M1)%R) by (apply IZR_le; lia).
    change (2 ^ 53) with (2 * 2 ^ 52) in K1. rewrite mult_IZR in K1.
    assert (K3 : (0 < IZR (2 ^ 52))%R) by (apply IZR_lt; lia).
    nra.
Qed.

Lemma normal_le_SFleb f1 M1 E1 f2 M2 E2 :
  normal f1 M1 E1 -> normal f2 M2 E2 -> rounded_le M1 E1 M2 E2 -> SFleb f1 f2 = true.
Proof.
  intros [-> B1] [-> B2] H. unfold SFleb, SFcompare.
  destruct H as [Hlt|[-> Hm]].
  - rewrite (proj2 (Z.compare_lt_iff E1 E2) Hlt). reflexivity.
  - rewrite Z.compare_refl, Pos.compare_cont_spec. cbn [Pos.switch_Eq].
    assert (Hp : (Z.to_pos M1 <= Z.to_pos M2)%positive) by lia.
    unfold Pos.le in Hp. destruct (Z.to_pos M1 ?= Z.to_pos M2)%positive; cbn; congruence.
Qed.

Lemma normal_lt_SFltb f1 M1 E1 f2 M2 E2 :
  normal f1 M1 E1 -> normal f2 M2 E2 ->
  SFltb f1 f2 = negb (SFleb f2 f1).
Proof.
  intros [-> B1] [-> B2]. unfold SFltb, SFleb, SFcompare.
  rewrite (Z.compare_antisym E1 E2).
  destruct (E1 ?= E2); cbn; try reflexivity.
  rewrite ZC4. destruct (Pos.compare_cont Eq (Z.to_pos M2) (Z.to_pos M1)); reflexivity.
Qed.

Lemma rounded_le_F2R M1 E1 M2 E2 :
  2 ^ 52 <= M1 <= 2 ^ 53 -> 2 ^ 52 <= M2 <= 2 ^ 53 ->
  rounded_le M1 E1 M2 E2 -> (F2R M1 E1 <= F2R M2 E2)%R.
Proof.
  intros B1 B2 H. unfold F2R. destruct H as [Hlt|[-> Hm]].
  - assert (Hb : (bpow (E1 + 1) <= bpow E2)%R) by (apply bpow_le; lia).
    rewrite bpow_add, bpow_1 in Hb. pose proof (bpow_pos E1). pose proof (bpow_pos E2).
    assert (K1 : (IZR M1 <= IZR (2 ^ 53))%R) by (apply IZR_le; lia).
    assert (K2 : (IZR (2 ^ 52) <= IZR M2)%R) by (apply IZR_le; lia).
    change (2 ^ 53) with (2 * 2 ^ 52) in K1. rewrite mult_IZR in K1.
    assert (K3 : (0 < IZR (2 ^ 52))%R) by (apply IZR_lt; lia).
    nra.
  - pose proof (bpow_pos E2). assert (IZR M1 <= IZR M2)%R by now apply IZR_le. nra.
Qed.

(** ** The rounding of a mantissa of 53 bits or more *)

Definition in_range (m : positive) (e : Z) : Prop :=
  53 <= Zpos (digits2_pos m) /\ -1074 <= e + (Zpos (digits2_pos m) - 53) <= 969.

Lemma round_aux_normal m e l :
  in_range m e ->
  exists M E, normal (binary_round_aux prec emax false (Zpos m) e l) M E /\
              e + (Zpos (digits2_pos m) - 53) <= E <= e + (Zpos (digits2_pos m) - 53) + 1.
Proof.
  intros [Hd He].
  destruct (binary_round_aux_spec m e l) as [Hg Hr]; [lia | lia | lia |].
  rewrite Hr. clear Hr.
  match goal with |- context [rounded (rne ?g ?s) _] => pose proof (rne_bounds g s) as Hb;
    destruct (rounded_normal (rne g s) (e + (Zpos (digits2_pos m) - 53)))
      as (M & E & N & _ & A & B); [lia|];
    destruct (Z_lt_dec (rne g s) (2 ^ 53)) as [L|G] end.
  - exists M, E. split; [exact N|]. destruct (A L). lia.
  - exists M, E. split; [exact N|]. destruct B; lia.
Qed.

Lemma round_aux_mono m1 e1 l1 m2 e2 l2 x1 x2 :
  in_range m1 e1 -> in_range m2 e2 ->
  repr (guard (shr_record_of_loc (Zpos m1) l1)) (shr_s (shr_record_of_loc (Zpos m1) l1)) e1 x1 ->
  repr (guard (shr_record_of_loc (Zpos m2) l2)) (shr_s (shr_record_of_loc (Zpos m2) l2)) e2 x2 ->
  (x1 <= x2)%R ->
  (B2R (binary_round_aux prec emax false (Zpos m1) e1 l1) <=
   B2R (binary_round_aux prec emax false (Zpos m2) e2 l2))%R.
Proof.
  intros [Hd1 He1] [Hd2 He2] R1 R2 Hx.
  destruct (binary_round_aux_spec m1 e1 l1) as [Hg1 Hr1]; [lia | lia | lia |].
  destruct (binary_round_aux_spec m2 e2 l2) as [Hg2 Hr2]; [lia | lia | lia |].
  rewrite Hr1, Hr2. clear Hr1 Hr2.
  pose proof (rounding_mono m1 e1 l1 m2 e2 l2 x1 x2 ltac:(lia) ltac:(lia) R1 R2 Hx) as Hle.
  cbv zeta in Hle.
  match type of Hle with
  | rounded_le (rne ?g1 ?s1) ?E1 (rne ?g2 ?s2) ?E2 =>
      pose proof (rne_bounds g1 s1) as Hb1; pose proof (rne_bounds g2 s2) as Hb2;
      destruct (rounded_normal (rne g1 s1) E1) as (M1' & E1' & N1 & F1 & _); [lia|];
      destruct (rounded_normal (rne g2 s2) E2) as (M2' & E2' & N2 & F2 & _); [lia|]
  end.
  rewrite (normal_B2R _ _ _ N1), (normal_B2R _ _ _ N2), F1, F2.
  apply rounded_le_F2R; [lia | lia | exact Hle].
Qed.

(** A mantissa of 53 bits is kept. *)
Lemma round_aux_exact m e :
  Zpos (digits2_pos m) = 53 -> -1074 <= e <= 969 ->
  binary_round_aux prec emax false (Zpos m) e loc_Exact = S754_finite false m e.
Proof.
  intros Hd He. pose proof (digits_bounds m) as Hm. rewrite Hd in Hm.
  destruct (binary_round_aux_spec m e loc_Exact) as [_ Hr]; [lia | lia | lia |].
  rewrite Hr, Hd. clear Hr. change (53 - 53) with 0.
  rewrite Z.pow_0_r, Z.div_1_r, Z.mod_1_r, Z.add_0_r.
  cbn [shr_record_of_loc shr_s orb Z.eqb negb]. unfold guard. cbn [shr_m shr_r].
  rewrite Z.add_0_r. unfold rne. rewrite Z.odd_mul. cbn [Z.odd andb].
  rewrite Z.add_0_r, (Z.mul_comm 2), Z.div_mul by lia.
  unfold rounded. destruct (Z.ltb_spec (Zpos m) (2 ^ 53)) as [_|G]; [reflexivity | lia].
Qed.

Lemma iter_xO m p : Zpos (Pos.iter xO m p) = Zpos m * 2 ^ Zpos p.
Proof.
  rewrite <- Z.shiftl_mul_pow2 by lia. unfold Z.shiftl.
  apply (Pos.iter_swap_gen _ _ Zpos xO (Z.mul 2)). reflexivity.
Qed.

(** A mantissa of at most 53 bits is normalised, without rounding. *)
Lemma binary_round_exact m e :
  let d := Zpos (digits2_pos m) in
  d <= 53 -> -1074 <= e + d - 53 <= 969 ->
  normal (binary_round prec emax false m e) (Zpos m * 2 ^ (53 - d)) (e + d - 53).
Proof.
  intros d Hd He. pose proof (digits_bounds m) as Hm. fold d in Hm.
  assert (Hd1 : 1 <= d) by (unfold d; lia).
  assert (Hp : 0 < 2 ^ (53 - d)) by (apply pow2_pos; lia).
  assert (HM : 2 ^ 52 <= Zpos m * 2 ^ (53 - d) < 2 ^ 53).
  { assert (E1 : 2 ^ 52 = 2 ^ (d - 1) * 2 ^ (53 - d))
      by (rewrite <- Z.pow_add_r by lia; f_equal; lia).
    assert (E2 : 2 ^ 53 = 2 ^ d * 2 ^ (53 - d))
      by (rewrite <- Z.pow_add_r by lia; f_equal; lia).
    rewrite E1, E2.
    split; [apply Z.mul_le_mono_nonneg_r | apply Z.mul_lt_mono_pos_r]; lia. }
  unfold binary_round. fold d. rewrite fexp_normal by lia. unfold shl_align.
  replace (d + e - 53 - e) with (d - 53) by lia.
  destruct (d - 53) as [|p|p] eqn:Ep; [| lia |].
  - replace (53 - d) with 0 in * by lia. rewrite Z.pow_0_r, Z.mul_1_r in *.
    rewrite round_aux_exact by (fold d; lia).
    replace (e + d - 53) with e by lia. split; [reflexivity | exact HM].
  - assert (Hs : Zpos (Pos.iter xO m p) = Zpos m * 2 ^ (53 - d)).
    { rewrite iter_xO. f_equal. f_equal. lia. }
    rewrite round_aux_exact.
    + split; [|exact HM]. f_equal; [|lia]. rewrite <- Hs. reflexivity.
    + apply digits_unique. rewrite Hs. exact HM.
    + lia.
Qed.

Lemma normal_SFleb_iff f1 M1 E1 f2 M2 E2 :
  normal f1 M1 E1 -> normal f2 M2 E2 ->
  SFleb f1 f2 = true <-> rounded_le M1 E1 M2 E2.
Proof.
  intros N1 N2. split; [|now apply normal_le_SFleb].
  destruct N1 as [-> B1], N2 as [-> B2]. unfold SFleb, SFcompare, rounded_le.
  destruct (Z.compare_spec E1 E2) as [E|L|G]; [| now left | discriminate].
  rewrite Pos.compare_cont_spec. cbn [Pos.switch_Eq].
  destruct (Pos.compare_spec (Z.to_pos M1) (Z.to_pos M2)) as [E'|L'|G'];
    cbn; intros H; try discriminate; right; split; try exact E; lia.
Qed.

Lemma normal_SFleb_B2R f1 M1 E1 f2 M2 E2 :
  normal f1 M1 E1 -> normal f2 M2 E2 ->
  SFleb f1 f2 = true <-> (B2R f1 <= B2R f2)%R.
Proof.
  intros N1 N2. rewrite (normal_SFleb_iff _ _ _ _ _ _ N1 N2). split.
  - now apply normal_le_B2R.
  - now apply B2R_le_normal.
Qed.

Lemma normal_digits f M E : normal f M E -> Zpos (digits2_pos (Z.to_pos M)) = 53.
Proof. intros [_ H]. apply digits_unique. rewrite Z2Pos.id by lia. exact H. Qed.

Lemma digits_range p a b :
  0 <= a -> 2 ^ a <= Zpos p < 2 ^ b -> a + 1 <= Zpos (digits2_pos p) <= b.
Proof.
  intros Ha [H1 H2]. pose proof (digits_bounds p) as [B1 B2].
  set (d := Zpos (digits2_pos p)) in *. split.
  - destruct (Z_le_dec (a + 1) d) as [L|G]; [exact L|].
    assert (2 ^ d <= 2 ^ a) by (apply Z.pow_le_mono_r; lia). lia.
  - destruct (Z_le_dec d b) as [L|G]; [exact L|].
    assert (0 <= b).
    { destruct (Z_le_dec 0 b) as [L|G']; [exact L|]. rewrite Z.pow_neg_r in H2 by lia. lia. }
    assert (2 ^ b <= 2 ^ (d - 1)) by (apply Z.pow_le_mono_r; lia). lia.
Qed.

(** *** Division *)

(** The remainder of the division, as guard and sticky bits. *)
Lemma new_location_repr q m r e :
  0 < m -> 0 <= r < m ->
  repr (guard (shr_record_of_loc q (new_location m r)))
       (shr_s (shr_record_of_loc q (new_location m r))) e
       ((IZR q + IZR r / IZR m) * bpow e)%R.
Proof.
  intros Hm Hr.
  assert (Hmr : (0 < IZR m)%R) by (apply IZR_lt; lia).
  assert (Hr0 : (0 <= IZR r)%R) by (apply IZR_le; lia).
  set (t := (IZR r / IZR m)%R).
  assert (Ht : (t * IZR m = IZR r)%R) by (unfold t; field; lra).
  assert (Hb : bpow e = (2 * bpow (e - 1))%R).
  { replace e with (1 + (e - 1)) at 1 by lia. now rewrite bpow_add, bpow_1. }
  pose proof (bpow_pos (e - 1)) as Hu. rewrite Hb. set (u := bpow (e - 1)) in *.
  assert (Cases : r = 0 /\ new_location m r = loc_Exact \/
                  0 < 2 * r < m /\ new_location m r = loc_Inexact Lt \/
                  2 * r = m /\ new_location m r = loc_Inexact Eq \/
                  m < 2 * r /\ new_location m r = loc_Inexact Gt).
  { unfold new_location, new_location_even, new_location_odd.
    destruct (Z.even m) eqn:Ev; cbv beta;
      (destruct (Z.eqb_spec r 0) as [E0|N0]; [left; now split | right]).
    - destruct (Z.compare_spec (2 * r) m) as [E|L|G].
      + right. left. now split.
      + left. split; [lia | reflexivity].
      + right. right. now split.
    - destruct (Z.compare_spec (2 * r + 1) m) as [E|L|G].
      + left. split; [lia | reflexivity].
      + left. split; [lia | reflexivity].
      + right. right. split; [|reflexivity].
        assert (m <> 2 * r).
        { intros ->. rewrite Z.even_mul in Ev. discriminate. }
        lia. }
  unfold repr, guard, F2R.
  destruct Cases as [[E0 ->]|[[L ->]|[[E ->]|[G ->]]]];
    cbn [shr_record_of_loc shr_m shr_r shr_s]; fold u.
  - assert (IZR r = 0)%R by now subst. assert (t = 0)%R by nra.
    rewrite plus_IZR, mult_IZR. nra.
  - assert (L1 : (0 < 2 * IZR r)%R) by (rewrite <- mult_IZR; apply IZR_lt; lia).
    assert (L2 : (2 * IZR r < IZR m)%R) by (rewrite <- mult_IZR; apply IZR_lt; lia).
    assert (0 < t)%R by nra. assert (2 * t < 1)%R by nra.
    rewrite !plus_IZR, mult_IZR. split; nra.
  - assert (L2 : (2 * IZR r = IZR m)%R) by (rewrite <- mult_IZR; now f_equal).
    assert (2 * t = 1)%R by nra.
    rewrite plus_IZR, mult_IZR. nra.
  - assert (L1 : (IZR m < 2 * IZR r)%R) by (rewrite <- mult_IZR; apply IZR_lt; lia).
    assert (L2 : (IZR r < IZR m)%R) by (apply IZR_lt; lia).
    assert (1 < 2 * t)%R by nra. assert (t < 1)%R by nra.
    rewrite !plus_IZR, mult_IZR. split; nra.
Qed.

Lemma SFdiv_normal x Mx Ex y My Ey :
  normal x Mx Ex -> normal y My Ey -> -1000 <= Ex - Ey <= 1000 ->
  exists m e l,
    SFdiv prec emax x y = binary_round_aux prec emax false (Zpos m) e l /\
    in_range m e /\
    Ex - Ey - 53 <= e + (Zpos (digits2_pos m) - 53) <= Ex - Ey - 52 /\
    repr (guard (shr_record_of_loc (Zpos m) l)) (shr_s (shr_record_of_loc (Zpos m) l)) e
         (B2R x / B2R y)%R.
Proof.
  intros Nx Ny HE.
  pose proof (normal_digits _ _ _ Nx) as Dx. pose proof (normal_digits _ _ _ Ny) as Dy.
  pose proof (normal_B2R _ _ _ Nx) as Vx. pose proof (normal_B2R _ _ _ Ny) as Vy.
  rewrite Vx, Vy. clear Vx Vy.
  destruct Nx as [-> Bx], Ny as [-> By].
  assert (Hpx : Zpos (Z.to_pos Mx) = Mx) by (rewrite Z2Pos.id; lia).
  assert (Hpy : Zpos (Z.to_pos My) = My) by (rewrite Z2Pos.id; lia).
  unfold SFdiv, SFdiv_core_binary, Zdigits2. cbv beta zeta. rewrite Dx, Dy.
  rewrite fexp_normal by lia. rewrite Z.min_l by lia.
  replace (Ex - Ey - (53 + Ex - (53 + Ey) - 53)) with 53 by lia. cbv iota.
  rewrite Z.shiftl_mul_pow2, Hpx, Hpy by lia.
  pose proof (Z_div_mod (Mx * 2 ^ 53) My ltac:(lia)) as Hdm.
  destruct (Z.div_eucl (Mx * 2 ^ 53) My) as [q r]. destruct Hdm as [Heq Hr].
  assert (Hq : 2 ^ 52 <= q < 2 ^ 54).
  { assert (Eq : q = Mx * 2 ^ 53 / My) by (apply (Z.div_unique_pos _ _ q r); lia).
    rewrite Eq. split.
    - apply Z.div_le_lower_bound; lia.
    - apply Z.div_lt_upper_bound; lia. }
  destruct q as [|q|q]; [lia | | lia].
  pose proof (digits_range q 52 54 ltac:(lia) Hq) as Hd.
  exists q, (53 + Ex - (53 + Ey) - 53), (new_location My r).
  split; [reflexivity|]. split; [unfold in_range; lia|]. split; [lia|].
  replace (F2R Mx Ex / F2R My Ey)%R
    with ((IZR (Zpos q) + IZR r / IZR My) * bpow (53 + Ex - (53 + Ey) - 53))%R;
    [apply new_location_repr; lia|].
  unfold F2R.
  assert (Hmy : (0 < IZR My)%R) by (apply IZR_lt; lia).
  assert (Hx : bpow Ex = (bpow (53 + Ex - (53 + Ey) - 53) * IZR (2 ^ 53) * bpow Ey)%R).
  { rewrite <- (bpow_IZR 53), <- !bpow_add by lia. f_equal. lia. }
  assert (Ha : (IZR Mx * IZR (2 ^ 53) = IZR My * IZR (Zpos q) + IZR r)%R).
  { rewrite <- !mult_IZR, <- plus_IZR. now f_equal. }
  pose proof (bpow_pos Ey) as Hy. rewrite Hx.
  set (u := bpow (53 + Ex - (53 + Ey) - 53)) in *.
  transitivity ((IZR Mx * IZR (2 ^ 53)) * u / IZR My)%R.
  - rewrite Ha. field. lra.
  - field. split; lra.
Qed.

(** *** Multiplication *)

Lemma SFmul_normal x Mx Ex y My Ey :
  normal x Mx Ex -> normal y My Ey -> -1100 <= Ex + Ey <= 900 ->
  exists m,
    SFmul prec emax x y = binary_round_aux prec emax false (Zpos m) (Ex + Ey) loc_Exact /\
    in_range m (Ex + Ey) /\
    Ex + Ey + 52 <= Ex + Ey + (Zpos (digits2_pos m) - 53) <= Ex + Ey + 53 /\
    repr (guard (shr_record_of_loc (Zpos m) loc_Exact))
         (shr_s (shr_record_of_loc (Zpos m) loc_Exact)) (Ex + Ey)
         (B2R x * B2R y)%R.
Proof.
  intros Nx Ny HE.
  pose proof (normal_B2R _ _ _ Nx) as Vx. pose proof (normal_B2R _ _ _ Ny) as Vy.
  rewrite Vx, Vy. clear Vx Vy.
  destruct Nx as [-> Bx], Ny as [-> By].
  assert (Hpx : Zpos (Z.to_pos Mx) = Mx) by (rewrite Z2Pos.id; lia).
  assert (Hpy : Zpos (Z.to_pos My) = My) by (rewrite Z2Pos.id; lia).
  cbn [SFmul xorb].
  assert (Hm : 2 ^ 104 <= Zpos (Z.to_pos Mx * Z.to_pos My) < 2 ^ 106).
  { rewrite Pos2Z.inj_mul, Hpx, Hpy.
    change (2 ^ 104) with (2 ^ 52 * 2 ^ 52). change (2 ^ 106) with (2 ^ 53 * 2 ^ 53). split.
    - apply Z.mul_le_mono_nonneg; lia.
    - apply Z.mul_lt_mono_nonneg; lia. }
  pose proof (digits_range _ 104 106 ltac:(lia) Hm) as Hd.
  exists (Z.to_pos Mx * Z.to_pos My)%positive.
  split; [reflexivity|]. split; [unfold in_range; lia|]. split; [lia|].
  unfold repr, guard, F2R. cbn [shr_record_of_loc shr_m shr_r shr_s].
  rewrite Pos2Z.inj_mul, Hpx, Hpy, Z.add_0_r, !mult_IZR.
  assert (Hb : (bpow (Ex + Ey - 1) * 2 = bpow Ex * bpow Ey)%R).
  { rewrite <- bpow_1, <- !bpow_add. f_equal. lia. }
  transitivity (IZR Mx * IZR My * (bpow Ex * bpow Ey))%R; [ring|].
  rewrite <- Hb. ring.
Qed.

(** *** Integers *)

Lemma of_Z_small z : 0 <= z < 9223372036854775808 -> Uint63.to_Z (Uint63.of_Z z) = z.
Proof.
  intros Hz. rewrite Uint63.of_Z_spec. apply Z.mod_small.
  change Uint63.wB with 9223372036854775808. exact Hz.
Qed.

Lemma num_of_Z_normal z :
  1 <= z < 2 ^ 53 ->
  let d := Zpos (digits2_pos (Z.to_pos z)) in
  normal (Prim2SF (num_of_Z z)) (z * 2 ^ (53 - d)) (d - 53) /\ 1 <= d <= 53.
Proof.
  intros Hz d. unfold num_of_Z.
  destruct (Z.ltb_spec (Z.abs z) 9223372036854775808) as [_|G]; [|lia].
  destruct (Z.ltb_spec z 0) as [L|_]; [lia|].
  rewrite of_uint63_spec, of_Z_small by lia.
  destruct z as [|p|p]; try lia. cbn [binary_normalize]. cbn [Z.to_pos] in d.
  assert (Hd : 1 <= d <= 53).
  { pose proof (digits_range p 0 53 ltac:(lia) ltac:(lia)). unfold d. lia. }
  split; [|exact Hd].
  pose proof (binary_round_exact p 0 ltac:(exact (proj2 Hd)) ltac:(fold d; lia)) as H.
  cbv zeta in H. fold d in H. exact H.
Qed.

(** An integer from 1 to 2^53 is a double. *)
Lemma num_of_Z_value z :
  1 <= z <= 2 ^ 53 ->
  exists M E, normal (Prim2SF (num_of_Z z)) M E /\ -52 <= E <= 1 /\
              B2R (Prim2SF (num_of_Z z)) = IZR z.
Proof.
  intros Hz. destruct (Z.eq_dec z (2 ^ 53)) as [->|Hne].
  - exists (2 ^ 52), 1. split; [split; [reflexivity | lia]|]. split; [lia|].
    change (Prim2SF (num_of_Z (2 ^ 53))) with (S754_finite false (Z.to_pos (2 ^ 52)) 1).
    cbn [B2R]. unfold F2R. rewrite bpow_1. change (2 ^ 53) with (2 ^ 52 * 2).
    rewrite mult_IZR. reflexivity.
  - destruct (num_of_Z_normal z ltac:(lia)) as [N Hd]. cbv zeta in N.
    set (d := Zpos (digits2_pos (Z.to_pos z))) in *.
    exists (z * 2 ^ (53 - d)), (d - 53). split; [exact N|]. split; [lia|].
    rewrite (normal_B2R _ _ _ N). unfold F2R.
    rewrite mult_IZR, <- (bpow_IZR (53 - d)) by lia.
    rewrite Rmult_assoc, <- bpow_add. replace (53 - d + (d - 53)) with 0 by lia.
    rewrite bpow_0. lra.
Qed.

Lemma normal_B2R_pos f M E : normal f M E -> (0 < B2R f)%R.
Proof.
  intros N. rewrite (normal_B2R _ _ _ N). destruct N as [_ B]. unfold F2R.
  apply Rmult_lt_0_compat; [apply IZR_lt; lia | apply bpow_pos].
Qed.

(** A double divided by itself is 1. *)
Lemma SFdiv_self x M E :
  normal x M E -> SFdiv prec emax x x = S754_finite false (Z.to_pos (2 ^ 52)) (-52).
Proof.
  intros N. pose proof (normal_digits _ _ _ N) as D. destruct N as [-> B].
  assert (Hp : Zpos (Z.to_pos M) = M) by (rewrite Z2Pos.id; lia).
  unfold SFdiv, SFdiv_core_binary, Zdigits2. cbv beta zeta. rewrite D.
  rewrite fexp_normal by lia. rewrite Z.min_l by lia.
  replace (E - E - (53 + E - (53 + E) - 53)) with 53 by lia. cbv iota.
  replace (53 + E - (53 + E) - 53) with (-53) by lia.
  rewrite Z.shiftl_mul_pow2, Hp by lia.
  pose proof (Z_div_mod (M * 2 ^ 53) M ltac:(lia)) as Hdm.
  destruct (Z.div_eucl (M * 2 ^ 53) M) as [q r]. destruct Hdm as [Heq Hr].
  assert (Eq : q = M * 2 ^ 53 / M) by (apply (Z.div_unique_pos _ _ q r); lia).
  assert (Er : r = (M * 2 ^ 53) mod M) by (apply (Z.mod_unique_pos _ _ q r); lia).
  rewrite (Z.mul_comm M), Z.div_mul in Eq by lia.
  rewrite (Z.mul_comm M), Z.mod_mul in Er by lia. subst q r.
  assert (Hl : new_location M 0 = loc_Exact).
  { unfold new_location, new_location_even, new_location_odd. now destruct (Z.even M). }
  rewrite Hl. reflexivity.
Qed.

(** *** Doubles and their values *)

Definition value (x : number) : R := B2R (Prim2SF x).

(** [x] is a positive double of 53 bits with an exponent from [lo] to [hi]. *)
Definition double (x : number) (lo hi : Z) : Prop :=
  exists M E, normal (Prim2SF x) M E /\ lo <= E <= hi.

Lemma double_pos x lo hi : double x lo hi -> (0 < value x)%R.
Proof. intros (M & E & N & _). exact (normal_B2R_pos _ _ _ N). Qed.

Lemma div_double x y a b c d :
  double x a b -> double y c d -> -1000 <= a - d -> b - c <= 1000 ->
  double (x / y)%float (a - d - 53) (b - c - 51).
Proof.
  intros (Mx & Ex & Nx & Hx) (My & Ey & Ny & Hy) H1 H2.
  destruct (SFdiv_normal _ _ _ _ _ _ Nx Ny ltac:(lia)) as (m & e & l & Hdiv & Hr & He & _).
  destruct (round_aux_normal m e l Hr) as (M & E & N & HE).
  exists M, E. rewrite FloatAxioms.div_spec. unfold SF64div. rewrite Hdiv.
  split; [exact N | lia].
Qed.

Lemma div_mono x1 x2 y a b c d :
  double x1 a b -> double x2 a b -> double y c d -> -1000 <= a - d -> b - c <= 1000 ->
  (value x1 <= value x2)%R -> (value (x1 / y)%float <= value (x2 / y)%float)%R.
Proof.
  intros (M1 & E1 & N1 & H1) (M2 & E2 & N2 & H2) (My & Ey & Ny & Hy) Ha Hb Hv.
  destruct (SFdiv_normal _ _ _ _ _ _ N1 Ny ltac:(lia)) as (m1 & e1 & l1 & D1 & R1 & _ & P1).
  destruct (SFdiv_normal _ _ _ _ _ _ N2 Ny ltac:(lia)) as (m2 & e2 & l2 & D2 & R2 & _ & P2).
  unfold value. rewrite !FloatAxioms.div_spec. unfold SF64div. rewrite D1, D2.
  apply (round_aux_mono _ _ _ _ _ _ _ _ R1 R2 P1 P2).
  pose proof (normal_B2R_pos _ _ _ Ny) as Hpos.
  unfold Rdiv. apply Rmult_le_compat_r; [|exact Hv].
  left. now apply Rinv_0_lt_compat.
Qed.

Lemma mul_double x y a b c d :
  double x a b -> double y c d -> -1100 <= a + c -> b + d <= 900 ->
  double (x * y)%float (a + c + 52) (b + d + 54).
Proof.
  intros (Mx & Ex & Nx & Hx) (My & Ey & Ny & Hy) H1 H2.
  destruct (SFmul_normal _ _ _ _ _ _ Nx Ny ltac:(lia)) as (m & Hmul & Hr & He & _).
  destruct (round_aux_normal m _ loc_Exact Hr) as (M & E & N & HE).
  exists M, E. rewrite FloatAxioms.mul_spec. unfold SF64mul. rewrite Hmul.
  split; [exact N | lia].
Qed.

Lemma mul_mono x1 x2 y a b c d :
  double x1 a b -> double x2 a b -> double y c d -> -1100 <= a + c -> b + d <= 900 ->
  (value x1 <= value x2)%R -> (value (x1 * y)%float <= value (x2 * y)%float)%R.
Proof.
  intros (M1 & E1 & N1 & H1) (M2 & E2 & N2 & H2) (My & Ey & Ny & Hy) Ha Hb Hv.
  destruct (SFmul_normal _ _ _ _ _ _ N1 Ny ltac:(lia)) as (m1 & D1 & R1 & _ & P1).
  destruct (SFmul_normal _ _ _ _ _ _ N2 Ny ltac:(lia)) as (m2 & D2 & R2 & _ & P2).
  unfold value. rewrite !FloatAxioms.mul_spec. unfold SF64mul. rewrite D1, D2.
  apply (round_aux_mono _ _ _ _ _ _ _ _ R1 R2 P1 P2).
  pose proof (normal_B2R_pos _ _ _ Ny) as Hpos.
  apply Rmult_le_compat_r; [lra | exact Hv].
Qed.

Lemma div_self x lo hi : double x lo hi -> (x / x)%float = 1%float.
Proof.
  intros (M & E & N & _). apply FloatAxioms.Prim2SF_inj.
  rewrite FloatAxioms.div_spec. unfold SF64div. rewrite (SFdiv_self _ _ _ N). reflexivity.
Qed.

Lemma num_of_Z_double z : 1 <= z <= 2 ^ 53 -> double (num_of_Z z) (-52) 1.
Proof. intros Hz. destruct (num_of_Z_value z Hz) as (M & E & N & HE & _). now exists M, E. Qed.

Lemma num_of_Z_IZR z : 1 <= z <= 2 ^ 53 -> value (num_of_Z z) = IZR z.
Proof. intros Hz. now destruct (num_of_Z_value z Hz) as (M & E & N & HE & V). Qed.

Lemma hundred_double : double 100%float (-46) (-46).
Proof. exists 7036874417766400, (-46). split; [split; [reflexivity | lia] | lia]. Qed.

Lemma hundred_value : value 100%float = 100%R.
Proof.
  unfold value. change (Prim2SF 100) with (S754_finite false (Z.to_pos (100 * 2 ^ 46)) (-46)).
  cbn [B2R]. unfold F2R. rewrite Z2Pos.id by lia. rewrite mult_IZR, <- (bpow_IZR 46) by lia.
  rewrite Rmult_assoc, <- bpow_add. change (46 + -46) with 0. rewrite bpow_0. lra.
Qed.

(** *** The product [(i / n) * 100] *)

Definition product (i n : Z) : number := (num_of_Z i / num_of_Z n * 100)%float.

Lemma product_double i n :
  1 <= i <= 2 ^ 53 -> 1 <= n <= 2 ^ 53 -> double (product i n) (-100) 60.
Proof.
  intros Hi Hn. unfold product.
  pose proof (div_double _ _ _ _ _ _ (num_of_Z_double i Hi) (num_of_Z_double n Hn)
                ltac:(lia) ltac:(lia)) as Hq.
  pose proof (mul_double _ _ _ _ _ _ Hq hundred_double ltac:(lia) ltac:(lia)) as Hp.
  destruct Hp as (M & E & N & HE). exists M, E. split; [exact N | lia].
Qed.

Lemma product_mono i j n :
  1 <= i <= j -> j <= 2 ^ 53 -> 1 <= n <= 2 ^ 53 ->
  (value (product i n) <= value (product j n))%R.
Proof.
  intros Hi Hj Hn. unfold product.
  pose proof (num_of_Z_double i ltac:(lia)) as Di.
  pose proof (num_of_Z_double j ltac:(lia)) as Dj.
  pose proof (num_of_Z_double n Hn) as Dn.
  apply (mul_mono _ _ _ _ _ _ _
           (div_double _ _ _ _ _ _ Di Dn ltac:(lia) ltac:(lia))
           (div_double _ _ _ _ _ _ Dj Dn ltac:(lia) ltac:(lia))
           hundred_double ltac:(lia) ltac:(lia)).
  apply (div_mono _ _ _ _ _ _ _ Di Dj Dn ltac:(lia) ltac:(lia)).
  rewrite !num_of_Z_IZR by lia. apply IZR_le. lia.
Qed.

Lemma product_full n : 1 <= n <= 2 ^ 53 -> product n n = 100%float.
Proof.
  intros Hn. unfold product. rewrite (div_self _ _ _ (num_of_Z_double n Hn)). reflexivity.
Qed.

Lemma product_zero n : 1 <= n <= 2 ^ 53 -> product 0 n = 0%float.
Proof.
  intros Hn. unfold product. destruct (num_of_Z_double n Hn) as (M & E & [N _] & _).
  assert (H : (num_of_Z 0 / num_of_Z n)%float = 0%float).
  { apply FloatAxioms.Prim2SF_inj. rewrite FloatAxioms.div_spec, N. reflexivity. }
  rewrite H. reflexivity.
Qed.

(** *** [Math.floor] of a double from 0 to 100 *)

Definition floor_of (M E : Z) : Z := M / 2 ^ (- E).

Lemma floor_of_mono M1 E1 M2 E2 :
  2 ^ 52 <= M1 < 2 ^ 53 -> 2 ^ 52 <= M2 < 2 ^ 53 -> E1 < 0 -> E2 < 0 ->
  rounded_le M1 E1 M2 E2 -> floor_of M1 E1 <= floor_of M2 E2.
Proof.
  intros B1 B2 N1 N2 [Hlt|[-> Hm]]; unfold floor_of.
  - assert (Hp : 0 < 2 ^ (- E2)) by (apply pow2_pos; lia).
    assert (Hq : 2 <= 2 ^ (- E1 - - E2)).
    { change 2 with (2 ^ 1) at 1. apply Z.pow_le_mono_r; lia. }
    replace (- E1) with ((- E1 - - E2) + - E2) by lia.
    rewrite Z.pow_add_r, <- Z.div_div by lia.
    apply Z.div_le_mono; [lia|].
    apply Z.le_trans with (M1 / 2).
    + apply Z.div_le_compat_l; lia.
    + assert (M1 / 2 < 2 ^ 52) by (apply Z.div_lt_upper_bound; lia). lia.
  - apply Z.div_le_mono; [apply pow2_pos; lia | exact Hm].
Qed.

Lemma floor_of_bounds M E :
  E < 0 -> (IZR (floor_of M E) <= F2R M E < IZR (floor_of M E) + 1)%R.
Proof.
  intros HE. unfold floor_of, F2R.
  assert (Hp : 0 < 2 ^ (- E)) by (apply pow2_pos; lia).
  pose proof (Z.div_mod M (2 ^ (- E)) ltac:(lia)) as Hdm.
  pose proof (Z.mod_pos_bound M (2 ^ (- E)) Hp) as Hr.
  set (K := M / 2 ^ (- E)) in *. set (r := M mod 2 ^ (- E)) in *.
  assert (Hu : (bpow E * IZR (2 ^ (- E)) = 1)%R).
  { rewrite <- bpow_IZR, <- bpow_add by lia. replace (E + - E) with 0 by lia. apply bpow_0. }
  assert (HM : IZR M = (IZR (2 ^ (- E)) * IZR K + IZR r)%R).
  { rewrite Hdm at 1. now rewrite plus_IZR, mult_IZR. }
  assert (Hr0 : (0 <= IZR r)%R) by (apply IZR_le; lia).
  assert (Hr1 : (IZR r + 1 <= IZR (2 ^ (- E)))%R).
  { rewrite <- plus_IZR. apply IZR_le. lia. }
  pose proof (bpow_pos E) as Hb. rewrite HM.
  set (P := IZR (2 ^ (- E))) in *. set (u := bpow E) in *.
  assert (E1 : ((P * IZR K + IZR r) * u = IZR K + IZR r * u)%R).
  { transitivity (IZR K * (u * P) + IZR r * u)%R; [ring|]. rewrite Hu. ring. }
  rewrite E1. split; nra.
Qed.

Lemma floor_of_hundred M E :
  2 ^ 52 <= M < 2 ^ 53 -> rounded_le M E 7036874417766400 (-46) ->
  E < 0 /\ 0 <= floor_of M E <= 100.
Proof.
  intros B H.
  assert (HE : E <= -46) by (destruct H as [H|[H _]]; lia).
  split; [lia|].
  assert (Hp : 0 < 2 ^ (- E)) by (apply pow2_pos; lia).
  unfold floor_of. split; [apply Z.div_pos; lia|].
  assert (Hlt : M / 2 ^ (- E) < 101); [|lia].
  apply Z.div_lt_upper_bound; [exact Hp|].
  destruct H as [H|[-> H]]; [|change (- -46) with 46; lia].
  assert (2 ^ 47 <= 2 ^ (- E)) by (apply Z.pow_le_mono_r; lia). lia.
Qed.

Lemma floor_steps_check :
  forallb (fun R => PrimFloat.Leibniz.eqb (num_of_Z (4503599627370496 + R) - two52)%float
                                          (num_of_Z R) &&
                    PrimFloat.Leibniz.eqb (num_of_Z (R + 1) - 1)%float (num_of_Z R))
          (range 102 0) = true.
Proof. vm_compute. reflexivity. Qed.

Lemma order_check :
  forallb (fun a => forallb (fun b => (num_of_Z a <=? num_of_Z (a + b))%float) (range 101 0))
          (range 101 0) = true.
Proof. vm_compute. reflexivity. Qed.

Lemma num_of_Z_fle a b : 0 <= a <= b -> b <= 100 -> fle (num_of_Z a) (num_of_Z b).
Proof.
  intros Ha Hb. pose proof (forallb_range _ _ _ order_check a ltac:(lia)) as H. cbv beta in H.
  pose proof (forallb_range _ _ _ H (b - a) ltac:(lia)) as H'. cbv beta in H'.
  unfold fle. now replace (a + (b - a)) with b in H' by lia.
Qed.

(** Adding 2^52 rounds to an integer next to the floor. *)
Lemma add_two52 x M E :
  normal (Prim2SF x) M E -> E < 0 -> floor_of M E + 1 < 2 ^ 52 ->
  exists R, floor_of M E <= R <= floor_of M E + 1 /\
            (x + two52)%float = num_of_Z (2 ^ 52 + R).
Proof.
  intros [HN B] HE HK.
  assert (HK0 : 0 <= floor_of M E) by (apply Z.div_pos; [lia | apply pow2_pos; lia]).
  assert (Hp : Zpos (Z.to_pos M) = M) by (rewrite Z2Pos.id; lia).
  set (p := Z.to_pos M) in *.
  destruct E as [|e|e]; try lia. unfold floor_of in *. change (- Zneg e) with (Zpos e) in *.
  assert (HP : 2 <= 2 ^ Zpos e).
  { change 2 with (2 ^ 1) at 1. apply Z.pow_le_mono_r; lia. }
  set (s := (p + Pos.iter xO 4503599627370496 e)%positive).
  assert (Hs : Zpos s = M + 2 ^ 52 * 2 ^ Zpos e).
  { unfold s. rewrite Pos2Z.inj_add, iter_xO, Hp. reflexivity. }
  assert (Hd : Zpos (digits2_pos s) = 53 + Zpos e).
  { apply digits_unique. rewrite Hs.
    replace (53 + Zpos e - 1) with (52 + Zpos e) by lia.
    rewrite !Z.pow_add_r by lia. change (2 ^ 53) with (2 * 2 ^ 52) in *. nia. }
  assert (Hsum : Prim2SF (x + two52) =
                 binary_round_aux prec emax false (Zpos s) (Zneg e) loc_Exact).
  { rewrite FloatAxioms.add_spec, HN.
    change (Prim2SF two52) with (S754_finite false 4503599627370496 0).
    unfold SF64add, SFadd. rewrite Z.min_l by lia. unfold shl_align.
    rewrite Z.sub_diag. change (Zneg e - 0) with (Zneg e). cbv iota. cbn [fst cond_Zopp].
    rewrite <- Pos2Z.inj_add. fold s. cbn [binary_normalize]. unfold binary_round.
    rewrite Hd, fexp_normal by lia. unfold shl_align.
    replace (53 + Zpos e + Zneg e - 53 - Zneg e) with (Zpos e) by lia. reflexivity. }
  destruct (binary_round_aux_spec s (Zneg e) loc_Exact) as [Hg Hr];
    [lia | lia | lia |].
  rewrite Hd in Hg, Hr. replace (53 + Zpos e - 53) with (Zpos e) in Hg, Hr by lia.
  replace (Zneg e + Zpos e) with 0 in Hr by lia.
  cbn [shr_record_of_loc shr_s orb] in Hg, Hr. unfold guard in Hg, Hr. cbn [shr_m shr_r] in Hg, Hr.
  rewrite Z.add_0_r in Hg, Hr.
  match type of Hr with
  | _ = rounded (rne ?g ?st) 0 => pose proof (rne_bounds g st) as Hb; set (N := rne g st) in *
  end.
  assert (Hhalf : 2 * Zpos s / 2 ^ Zpos e / 2 = M / 2 ^ Zpos e + 2 ^ 52).
  { rewrite Z.div_div by lia. rewrite (Z.mul_comm (2 ^ Zpos e) 2).
    rewrite Z.div_mul_cancel_l by lia. rewrite Hs. apply Z.div_add. lia. }
  rewrite Hhalf in Hg, Hb.
  exists (N - 2 ^ 52). split; [lia|].
  apply FloatAxioms.Prim2SF_inj. rewrite Hsum, Hr.
  unfold rounded. destruct (Z.ltb_spec N (2 ^ 53)) as [_|G]; [|lia].
  replace (2 ^ 52 + (N - 2 ^ 52)) with N by lia.
  destruct (num_of_Z_normal N ltac:(lia)) as [[HNN _] _].
  assert (HdN : Zpos (digits2_pos (Z.to_pos N)) = 53).
  { apply digits_unique. rewrite Z2Pos.id by lia. lia. }
  rewrite HNN, HdN. change (53 - 53) with 0. rewrite Z.pow_0_r, Z.mul_1_r. reflexivity.
Qed.

(** [Math.floor] of a double from 0 to 100 is the integer below it. *)
Lemma Math_floor_small x M E :
  normal (Prim2SF x) M E -> (value x <= 100)%R ->
  0 <= floor_of M E <= 100 /\ Math_floor x = num_of_Z (floor_of M E).
Proof.
  intros N Hv. pose proof N as [HN B].
  destruct hundred_double as (Mh & Eh & Nh & _).
  assert (Hle : rounded_le M E 7036874417766400 (-46)).
  { apply (B2R_le_normal (Prim2SF x) _ _ (Prim2SF 100)); [exact N | |].
    - split; [reflexivity | lia].
    - fold (value x). fold (value 100%float). now rewrite hundred_value. }
  destruct (floor_of_hundred M E B Hle) as [HE HK]. split; [exact HK|].
  destruct (add_two52 x M E N HE ltac:(lia)) as (R & HR & Hadd).
  pose proof (forallb_range _ _ _ floor_steps_check R ltac:(lia)) as Hsub. cbv beta in Hsub.
  apply andb_true_iff in Hsub as [Hsub _].
  apply FloatAxioms.Leibniz.eqb_spec in Hsub. change 4503599627370496 with (2 ^ 52) in Hsub.
  assert (H1 : is_nan x = false).
  { unfold is_nan. rewrite FloatAxioms.eqb_spec. unfold SFeqb.
    rewrite SFcompare_refl by (rewrite HN; discriminate). reflexivity. }
  assert (H2 : is_zero x = false).
  { unfold is_zero. rewrite FloatAxioms.eqb_spec, HN. reflexivity. }
  assert (H3 : (abs x <? two52)%float = true).
  { rewrite FloatAxioms.ltb_spec, FloatAxioms.abs_spec, HN.
    change (Prim2SF two52) with (S754_finite false 4503599627370496 0).
    unfold SFltb, SFabs, SFcompare. now rewrite (proj2 (Z.compare_lt_iff E 0) HE). }
  assert (H4 : (x <? 0)%float = false).
  { rewrite FloatAxioms.ltb_spec, HN. reflexivity. }
  unfold Math_floor. rewrite H1, H2, H3, H4. cbn [orb]. cbv zeta. rewrite Hadd, Hsub.
  pose proof (floor_of_bounds M E HE) as [Hlo Hhi].
  rewrite <- (normal_B2R _ _ _ N) in Hlo, Hhi.
  destruct (Z.eq_dec R 0) as [->|HR0].
  - (* the sum is 2^52 itself *)
    assert (floor_of M E = 0) as -> by lia.
    assert (H5 : (x <? num_of_Z 0)%float = false).
    { rewrite FloatAxioms.ltb_spec, HN. reflexivity. }
    now rewrite H5.
  - destruct (num_of_Z_value R ltac:(lia)) as (MR & ER & NR & _ & VR).
    assert (H5 : (x <? num_of_Z R)%float = negb (SFleb (Prim2SF (num_of_Z R)) (Prim2SF x))).
    { rewrite FloatAxioms.ltb_spec. exact (normal_lt_SFltb _ _ _ _ _ _ N NR). }
    rewrite H5.
    destruct (SFleb (Prim2SF (num_of_Z R)) (Prim2SF x)) eqn:Hc; cbn [negb].
    + (* the sum was rounded down *)
      apply (normal_SFleb_B2R _ _ _ _ _ _ NR N) in Hc. rewrite VR in Hc.
      destruct (Z.eq_dec R (floor_of M E)) as [->|Hne]; [reflexivity|].
      exfalso. assert (R = floor_of M E + 1) as -> by lia.
      rewrite plus_IZR in Hc. lra.
    + (* the sum was rounded up *)
      destruct (Z.eq_dec R (floor_of M E)) as [->|Hne].
      * exfalso. rewrite <- VR in Hlo.
        apply (proj2 (normal_SFleb_B2R _ _ _ _ _ _ NR N)) in Hlo. congruence.
      * assert (R = floor_of M E + 1) as -> by lia.
        pose proof (forallb_range _ _ _ floor_steps_check (floor_of M E) ltac:(lia)) as Hm.
        cbv beta in Hm. apply andb_true_iff in Hm as [_ Hm].
        now apply FloatAxioms.Leibniz.eqb_spec in Hm.
Qed.

(** ** The percentages [Math.floor((i / n) * 100)] *)

(** The integer that [percent i n] is. *)
Definition percent_Z (i n : Z) : Z :=
  match Prim2SF (product i n) with
  | S754_finite _ m e => floor_of (Zpos m) e
  | _ => 0
  end.

Lemma product_le_hundred i n :
  1 <= i <= n -> n <= 2 ^ 53 -> (value (product i n) <= 100)%R.
Proof.
  intros Hi Hn. rewrite <- hundred_value, <- (product_full n) by lia.
  apply product_mono; lia.
Qed.

Lemma product_normal i n :
  1 <= i <= n -> n <= 2 ^ 53 ->
  exists M E, normal (Prim2SF (product i n)) M E /\ E < 0 /\ percent_Z i n = floor_of M E.
Proof.
  intros Hi Hn.
  destruct (product_double i n ltac:(lia) ltac:(lia)) as (M & E & N & _).
  exists M, E. split; [exact N|]. split.
  - assert (Hle : rounded_le M E 7036874417766400 (-46)).
    { apply (B2R_le_normal (Prim2SF (product i n)) _ _ (Prim2SF 100)); [exact N | |].
      - split; [reflexivity | lia].
      - fold (value (product i n)). fold (value 100%float). rewrite hundred_value.
        now apply product_le_hundred. }
    destruct N as [_ B]. now destruct (floor_of_hundred M E B Hle).
  - unfold percent_Z. destruct N as [-> B]. now rewrite Z2Pos.id by lia.
Qed.

Lemma percent_spec i n :
  1 <= n <= 2 ^ 53 -> 0 <= i <= n ->
  percent i n = num_of_Z (percent_Z i n) /\ 0 <= percent_Z i n <= 100.
Proof.
  intros Hn Hi. change (percent i n) with (Math_floor (product i n)).
  destruct (Z.eq_dec i 0) as [->|Hne].
  - unfold percent_Z. rewrite (product_zero n Hn). split; [reflexivity|]. cbn. lia.
  - destruct (product_normal i n ltac:(lia) ltac:(lia)) as (M & E & N & _ & ->).
    destruct (Math_floor_small _ M E N (product_le_hundred i n ltac:(lia) ltac:(lia)))
      as [HK HF].
    now split.
Qed.

Lemma percent_Z_mono i j n :
  1 <= n <= 2 ^ 53 -> 0 <= i <= j -> j <= n -> percent_Z i n <= percent_Z j n.
Proof.
  intros Hn Hi Hj. destruct (Z.eq_dec i 0) as [->|Hne].
  - destruct (percent_spec j n Hn ltac:(lia)) as [_ H].
    unfold percent_Z at 1. rewrite (product_zero n Hn). cbn. lia.
  - destruct (product_normal i n ltac:(lia) ltac:(lia)) as (Mi & Ei & Ni & HEi & ->).
    destruct (product_normal j n ltac:(lia) ltac:(lia)) as (Mj & Ej & Nj & HEj & ->).
    pose proof (product_mono i j n ltac:(lia) ltac:(lia) Hn) as Hv.
    pose proof (B2R_le_normal _ _ _ _ _ _ Ni Nj Hv) as Hle.
    destruct Ni as [_ Bi], Nj as [_ Bj]. now apply floor_of_mono.
Qed.

(** The percentage does not decrease with [i]. *)
Lemma percent_mono n i j :
  1 <= n <= 2 ^ 53 -> 0 <= i <= j -> j <= n -> fle (percent i n) (percent j n).
Proof.
  intros Hn Hi Hj.
  destruct (percent_spec i n Hn ltac:(lia)) as [-> Bi].
  destruct (percent_spec j n Hn ltac:(lia)) as [-> Bj].
  apply num_of_Z_fle; [|lia]. split; [lia|]. now apply percent_Z_mono.
Qed.

(** The percentage lies between 0 and 100. *)
Lemma percent_bounds n i :
  1 <= n <= 2 ^ 53 -> 0 <= i <= n -> fle 0%float (percent i n) /\ fle (percent i n) 100%float.
Proof.
  intros Hn Hi. destruct (percent_spec i n Hn Hi) as [-> B]. split.
  - change 0%float with (num_of_Z 0). apply num_of_Z_fle; lia.
  - change 100%float with (num_of_Z 100). apply num_of_Z_fle; lia.
Qed.

End Rounding.

(** ** The emissions of a request, in full *)

Lemma range_app : forall n m start,
  range (n + m) start = (range n start ++ range m (start + Z.of_nat n))%list.
Proof.
  induction n as [|n IH]; intros m start.
  - cbn [range app Nat.add]. now rewrite Z.add_0_r.
  - cbn [range app Nat.add]. f_equal. rewrite IH. f_equal. f_equal. lia.
Qed.

Lemma interval_trace_prefix id duration steps c n m :
  (n <= m)%nat ->
  interval_trace id duration steps c n `prefix_of` interval_trace id duration steps c m.
Proof.
  intros Hnm. unfold interval_trace.
  replace m with (n + (m - n))%nat by lia. rewrite range_app, flat_map_app.
  now apply prefix_app_r.
Qed.

Lemma progress_values_terminal id t : terminal_for id t -> progress_values [t] = [].
Proof. intros [(c & b & ->)|(e & ->)]; reflexivity. Qed.

Lemma progress_values_reports id (value : Z -> number) counters (l : list Z) :
  progress_values (map (fun c => Progress id (value c) (counters c)) l) = map value l.
Proof.
  induction l as [|c l IH]; [reflexivity|].
  cbn [map]. change (progress_values (?r :: ?out)) with (progress_values [r] ++ progress_values out)%list.
  rewrite IH. reflexivity.
Qed.

(** *** The percentages of the loops *)

(** The three handlers with the cadence [size / 10]: whatever indices are
    due, their percentages never decrease and lie in [0, 100]. *)
Lemma cadence_percentages_ok threshold size a count :
  10 <= threshold -> 0 <= size <= 2 ^ 53 -> 0 <= a -> a + Z.of_nat count <= size + 1 ->
  percentages_ok
    (map (fun i => percent i size)
         (filter (fun i => progress_due threshold size i = true) (seqZ a (Z.of_nat count)))).
Proof.
  intros Ht Hsize Ha Hcount.
  destruct (Z_le_dec size threshold) as [Hsmall|Hlarge].
  { (* nothing is reported *)
    apply (percentages_ok_filter _ _ (fun _ => False)); try tauto.
    intros i _. unfold progress_due.
    replace (threshold <? size) with false by (symmetry; apply Z.ltb_ge; lia). discriminate. }
  apply (percentages_ok_filter _ _ (fun i => 0 <= i <= size)).
  - intros x y Hx Hy Hxy. apply Rounding.percent_mono; lia.
  - intros x Hx. apply Rounding.percent_bounds; lia.
  - intros i Hi _. lia.
Qed.

(** The steps of SimulateWork, from 1 up to 2^53 of them. *)
Lemma steps_percentages_ok steps :
  1 <= steps <= 2 ^ 53 ->
  percentages_ok (map (fun c => percent c steps) (range (Z.to_nat steps) 1)).
Proof.
  intros Hs.
  assert (H : forall n start, 1 <= start -> start + Z.of_nat n <= 1 + steps ->
              percentages_ok (map (fun c => percent c steps) (range n start))).
  { induction n as [|n IH]; intros start H1 H2; [apply percentages_ok_nil|].
    destruct (IH (start + 1)) as [Hsorted Hbound]; [lia | lia |].
    cbn [range map]. split.
    - constructor; [exact Hsorted|]. rewrite List.Forall_forall. intros p Hp.
      apply in_map_iff in Hp as (j & <- & Hj).
      assert (start + 1 <= j < start + 1 + Z.of_nat n).
      { clear -Hj. revert Hj. generalize (start + 1). induction n as [|n IHn]; intros s [].
        - subst. lia.
        - apply IHn in H. lia. }
      apply Rounding.percent_mono; lia.
    - constructor; [apply Rounding.percent_bounds; lia | exact Hbound]. }
  apply H; lia.
Qed.

Section Emissions.

Variable toFixed4 : number -> number.

Lemma request_trace_shape e :
  exists reports t,
    request_trace toFixed4 e = (reports ++ [t])%list /\
    Forall (progress_for (req_id e)) reports /\ terminal_for (req_id e) t.
Proof.
  unfold request_trace.
  destruct (dispatch (req_command e)) as [h|] eqn:D; [destruct h|].
  3:{ rewrite (request_run_simulateWork toFixed4 e _ D). unfold ticks_needed. rewrite D.
      rewrite Nat.min_id, interval_trace_complete.
      eexists _, _. split; [reflexivity|]. split.
      - apply List.Forall_forall. intros r Hr. apply in_map_iff in Hr as (c & <- & _).
        eexists _, _. reflexivity.
      - left. eexists _, _. reflexivity. }
  all: rewrite request_run_synchronous by congruence;
    destruct (onmessage_synchronous toFixed4 (Worker ∅ 1) e) as (reports & t & E & F & T);
    [congruence|]; rewrite E; exists reports, t; auto.
Qed.

Lemma request_run_prefix e ticks :
  request_run toFixed4 e ticks `prefix_of` request_trace toFixed4 e /\
  ((ticks_needed e <= ticks)%nat -> request_run toFixed4 e ticks = request_trace toFixed4 e).
Proof.
  unfold request_trace.
  destruct (dispatch (req_command e)) as [h|] eqn:D; [destruct h|].
  3:{ rewrite !(request_run_simulateWork toFixed4 e _ D). unfold ticks_needed. rewrite D.
      rewrite Nat.min_id. split.
      - apply interval_trace_prefix. lia.
      - intros H. now rewrite Nat.min_r by exact H. }
  all: rewrite !request_run_synchronous by congruence; split; [reflexivity | reflexivity].
Qed.

Lemma sync_emissions_bear s e :
  req_id e = Some s -> s <> ""%string ->
  dispatch (req_command e) <> Some SimulateWork ->
  forall w, emitted_for s (snd (onmessage toFixed4 w e)) = snd (onmessage toFixed4 w e).
Proof.
  intros Hid Hne Hns w.
  destruct (onmessage_synchronous toFixed4 w e Hns) as (reports & t & E & F & T).
  rewrite E. cbn [snd]. apply emitted_for_all, List.Forall_app. split.
  - eapply Forall_impl; [exact F|]. intros r (p & c & ->). exact Hid.
  - constructor; [|constructor]. destruct T as [(c & b & ->)|(err & ->)]; [exact Hid|].
    rewrite Hid. simpl. destruct (String.eqb_spec s ""); [contradiction | reflexivity].
Qed.

(** The emissions that bear the id of [e], when [e] arrives among events
    none of which is another request with that id: they are the emissions
    of [e] alone, after as many firings of its timer. *)
Lemma interleaved_emissions s e pre post :
  req_id e = Some s -> usable_id s ->
  Forall (foreign s) pre -> Forall (foreign s) post ->
  emitted_for s (execute toFixed4 (pre ++ Message e :: post)) =
    request_run toFixed4 e (firings (next_timer (final toFixed4 (Worker ∅ 1) pre)) post).
Proof.
  intros Hid Hs Hpre Hpost. pose proof Hs as (Hne & Hunk & Hsys & Hinit).
  unfold execute, startup. rewrite emitted_for_app.
  rewrite (emitted_for_none s [Ready _ _ _])
    by (constructor; [simpl; congruence | constructor]).
  cbn [app]. rewrite run_app, emitted_for_app.
  destruct (quiet_run toFixed4 s Hs pre (Worker ∅ 1)) as (E0 & Hb & Hq); [| |exact Hpre|].
  { intros k iv. cbn [timers]. now rewrite lookup_empty. }
  { intros k iv. cbn [timers]. now rewrite lookup_empty. }
  rewrite E0. cbn [app run step].
  set (w := final toFixed4 (Worker ∅ 1) pre) in *.
  destruct (dispatch (req_command e)) as [h|] eqn:D; [destruct h|].
  3:{ (* SimulateWork: the interval starts, its timer is the next handle *)
      rewrite (onmessage_simulateWork toFixed4 _ _ D). cbn [app].
      rewrite (request_run_simulateWork toFixed4 e _ D).
      unfold handleSimulateWork, setInterval. rewrite Hid.
      rewrite (flight_run_count toFixed4 s Hs post _ (next_timer w)
                 (default 3000%float (data_duration (req_data e)))
                 (default 100 (data_steps (req_data e)))
                 (default 3000 (data_duration (req_data e)) /
                  num_of_Z (default 100%Z (data_steps (req_data e))))%float 0).
      - now rewrite Z.sub_0_r.
      - unfold timers_below. cbn [timers next_timer]. intros k iv.
        destruct (decide (k = next_timer w)) as [->|Hk]; [intros _; lia|].
        rewrite lookup_insert_ne by congruence. intros H. apply Hb in H. lia.
      - unfold in_flight. cbn [timers]. split; [apply lookup_insert_eq|].
        intros k iv Hk. rewrite lookup_insert_ne by congruence. apply Hq.
      - unfold last_tick. lia.
      - exact Hpost. }
  all: rewrite request_run_synchronous by congruence;
    destruct (onmessage_synchronous toFixed4 w e) as (reports & t & E & _); [congruence|];
    pose proof (sync_emissions_bear s e Hid Hne ltac:(congruence) w) as Hall;
    rewrite (onmessage_emissions toFixed4 (Worker ∅ 1) w);
    destruct (onmessage toFixed4 w e) as [w' out]; cbn [snd] in *;
    injection E as -> _;
    destruct (quiet_run toFixed4 s Hs post w Hb Hq Hpost) as (E1 & _);
    rewrite emitted_for_app, E1, app_nil_r, Hall; reflexivity.
Qed.

(** *** The percentages of a request *)

Lemma sync_percentages_ok e :
  dispatch (req_command e) <> Some SimulateWork ->
  Z.of_nat (length (data_dataset (req_data e))) <= 2 ^ 53 ->
  percentages_ok (progress_values (snd (onmessage toFixed4 (Worker ∅ 1) e))).
Proof.
  intros Hns Hlen. unfold onmessage.
  destruct (dispatch (req_command e)) as [h|] eqn:D; [destruct h|]; try congruence.
  - (* Calculate reports nothing *)
    unfold handleCalculate.
    repeat match goal with
           | |- context [if ?c then _ else _] => destruct c
           end; apply percentages_ok_nil.
  - destruct (handleProcessData_trace toFixed4 (req_data e) (req_id e))
      as (reports & processed & E & _ & V).
    rewrite E. cbn [snd]. rewrite progress_values_app, V. cbn [progress_values flat_map].
    rewrite app_nil_r. apply cadence_percentages_ok; lia.
  - destruct (Z_lt_dec (default 20 (data_n (req_data e))) 0) as [H|H];
      [rewrite handleFibonacci_throws by lia; apply percentages_ok_nil|].
    destruct (Z_lt_dec 1000 (default 20 (data_n (req_data e)))) as [H'|H'];
      [rewrite handleFibonacci_throws by lia; apply percentages_ok_nil|].
    destruct (handleFibonacci_trace (req_data e) (req_id e)) as (reports & E & _ & V); [lia|].
    rewrite E. cbn [snd]. rewrite progress_values_app, V. cbn [progress_values flat_map].
    rewrite app_nil_r.
    replace (default 20 (data_n (req_data e)) + 1)
      with (Z.of_nat (Z.to_nat (default 20 (data_n (req_data e)) + 1))) by lia.
    apply cadence_percentages_ok; lia.
  - destruct (Z_lt_dec (default 100 (data_limit (req_data e))) 2) as [H|H];
      [rewrite handlePrimeNumbers_throws by lia; apply percentages_ok_nil|].
    destruct (Z_lt_dec 100000 (default 100 (data_limit (req_data e)))) as [H'|H'];
      [rewrite handlePrimeNumbers_throws by lia; apply percentages_ok_nil|].
    destruct (handlePrimeNumbers_trace (req_data e) (req_id e))
      as (reports & primes & E & _ & V & _); [lia|].
    rewrite E. cbn [snd]. rewrite progress_values_app, V. cbn [progress_values flat_map].
    rewrite app_nil_r.
    replace (default 100 (data_limit (req_data e)) - 1)
      with (Z.of_nat (Z.to_nat (default 100 (data_limit (req_data e)) - 1))) by lia.
    apply cadence_percentages_ok; lia.
  - unfold handleSortArray. destruct (data_array (req_data e)); apply percentages_ok_nil.
  - apply percentages_ok_nil.
Qed.

Lemma simulateWork_percentages_ok e :
  dispatch (req_command e) = Some SimulateWork ->
  1 <= default 100 (data_steps (req_data e)) <= 2 ^ 53 ->
  percentages_ok (progress_values (request_trace toFixed4 e)).
Proof.
  intros D Hsteps. unfold request_trace.
  rewrite (request_run_simulateWork toFixed4 e _ D). unfold ticks_needed. rewrite D.
  rewrite Nat.min_id, interval_trace_complete, progress_values_app.
  cbn [progress_values flat_map]. rewrite app_nil_r.
  replace (last_tick (default 100 (data_steps (req_data e))))
    with (default 100 (data_steps (req_data e))) by (unfold last_tick; lia).
  rewrite progress_values_reports. now apply steps_percentages_ok.
Qed.

End Emissions.

(** C2, amended.  For every request: (1) its emissions, handled to the end,
    are progress messages followed by exactly one terminal message, a
    success with the request's id or an error with the id the listener gives
    it; (2) at any moment what has been emitted is a prefix of that, and
    nothing follows the terminal message; (3) when the request arrives
    among other events, none of them another request with its id, and its id
    is a non-empty string other than the worker's own [unknown], [system]
    and [init], the emissions bearing its id are exactly those of the
    request alone after as many firings of its timer, hence the whole
    sequence with its one terminal message once the timer has fired often
    enough (at once for every request but SimulateWork); (4) the progress
    values never decrease and lie in [0, 100], for every request other than
    SimulateWork, and for SimulateWork with a number of steps from 1 to
    2^53, the counts that a counter of doubles reaches.  SimulateWork with
    steps below 1 is left out: its one progress value lies outside
    [0, 100].  The dataset is taken to have at most 2^53 elements, which
    holds of every JavaScript array. *)
Theorem request_emissions (toFixed4 : number -> number) (e : request) :
  (exists reports t,
     request_trace toFixed4 e = (reports ++ [t])%list /\
     Forall (progress_for (req_id e)) reports /\ terminal_for (req_id e) t) /\
  (forall ticks,
     request_run toFixed4 e ticks `prefix_of` request_trace toFixed4 e /\
     ((ticks_needed e <= ticks)%nat ->
      request_run toFixed4 e ticks = request_trace toFixed4 e)) /\
  (forall s pre post,
     req_id e = Some s -> usable_id s ->
     Forall (foreign s) pre -> Forall (foreign s) post ->
     let fired := firings (next_timer (final toFixed4 (Worker ∅ 1) pre)) post in
     emitted_for s (execute toFixed4 (pre ++ Message e :: post)) =
       request_run toFixed4 e fired /\
     ((ticks_needed e <= fired)%nat ->
      emitted_for s (execute toFixed4 (pre ++ Message e :: post)) =
        request_trace toFixed4 e)) /\
  (dispatch (req_command e) <> Some SimulateWork ->
   Z.of_nat (length (data_dataset (req_data e))) <= 2 ^ 53 ->
   percentages_ok (progress_values (request_trace toFixed4 e))) /\
  (dispatch (req_command e) = Some SimulateWork ->
   1 <= default 100 (data_steps (req_data e)) <= 2 ^ 53 ->
   percentages_ok (progress_values (request_trace toFixed4 e))).
Proof.
  split; [apply request_trace_shape|].
  split; [apply request_run_prefix|].
  split.
  { intros s pre post Hid Hs Hpre Hpost fired.
    pose proof (interleaved_emissions toFixed4 s e pre post Hid Hs Hpre Hpost) as E.
    fold fired in E. split; [exact E|].
    intros Hfired. rewrite E. now apply request_run_prefix. }
  split; [|apply simulateWork_percentages_ok].
  intros Hns Hlen. unfold request_trace.
  rewrite request_run_synchronous by exact Hns. now apply sync_percentages_ok.
Qed.

Definition simulateWork_data (steps : Z) : payload :=
  Payload None [] [] None None (Some steps) None None None None.

Lemma request_emissions_witness :
  emitted_for "x"
    (execute (fun x => x)
       ([Message (Request (Some "bogus"%string) no_data (Some "y"%string))]
        ++ Message (Request (Some "simulateWork"%string) (simulateWork_data 3) (Some "x"%string))
        :: [Timer 1; Message (Request (Some "fibonacci"%string) (fibonacci_data 22) None);
            Timer 1; Timer 1])) =
    request_trace (fun x => x)
      (Request (Some "simulateWork"%string) (simulateWork_data 3) (Some "x"%string)) /\
  percentages_ok
    (progress_values
       (request_trace (fun x => x)
          (Request (Some "simulateWork"%string) (simulateWork_data 3) (Some "x"%string)))).
Proof.
  pose proof (request_emissions (fun x => x)
                (Request (Some "simulateWork"%string) (simulateWork_data 3) (Some "x"%string)))
    as (_ & _ & H3 & _ & H5).
  split.
  - refine (proj2 (H3 "x"%string
                      [Message (Request (Some "bogus"%string) no_data (Some "y"%string))]
                      [Timer 1;
                       Message (Request (Some "fibonacci"%string) (fibonacci_data 22) None);
                       Timer 1; Timer 1] _ _ _ _) _).
    + reflexivity.
    + repeat split; discriminate.
    + repeat constructor. discriminate.
    + repeat constructor. discriminate.
    + vm_compute. lia.
  - apply H5; [reflexivity | simpl; lia].
Defined.

(** C2 as stated fails for SimulateWork with [steps = 0]: the callback runs
    once and reports [Math.floor((1 / 0) * 100)], which is Infinity, before
    the success; with [steps = -5] it reports -20. *)
Lemma simulateWork_progress_out_of_range :
  request_trace (fun x => x)
    (Request (Some "simulateWork"%string) (simulateWork_data 0) (Some "x"%string)) =
  [Progress (Some "x"%string) infinity
     [("currentStep"%string, 1); ("totalSteps"%string, 0)];
   Success (Some "x"%string) "simulateWork"
     (SimulateWorkResult "模拟工作完成" 3000%float)] /\
  ~ percentages_ok
      (progress_values
         (request_trace (fun x => x)
            (Request (Some "simulateWork"%string) (simulateWork_data 0) (Some "x"%string)))) /\
  progress_values
    (request_trace (fun x => x)
       (Request (Some "simulateWork"%string) (simulateWork_data (-5)) (Some "x"%string))) =
  [(-20)%float] /\
  ~ percentages_ok
      (progress_values
         (request_trace (fun x => x)
            (Request (Some "simulateWork"%string) (simulateWork_data (-5)) (Some "x"%string)))).
Proof.
  split; [reflexivity|]. split; [|split; [reflexivity|]].
  - intros [_ H]. apply List.Forall_inv in H. destruct H as [_ H].
    vm_compute in H. discriminate.
  - intros [_ H]. apply List.Forall_inv in H. destruct H as [H _].
    vm_compute in H. discriminate.
Qed.

(** ** The other handlers and listeners *)

Lemma processData_loop_state toFixed4 data : forall rest done_,
  data_dataset data = (done_ ++ rest)%list ->
  loop_state (length rest) (Z.of_nat (length done_)) (processData_next toFixed4 data)
    (map (fun value => toFixed4 (apply_transform (data_transform data) (data_dataset data) value))
         done_) =
  map (fun value => toFixed4 (apply_transform (data_transform data) (data_dataset data) value))
      (data_dataset data).
Proof.
  induction rest as [|v rest IH]; intros done_ E.
  - cbn [length loop_state]. now rewrite E, app_nil_r.
  - cbn [length loop_state]. unfold processData_next at 2.
    rewrite Nat2Z.id. rewrite E at 1. rewrite lookup_app_r by lia.
    rewrite Nat.sub_diag. cbn [lookup list_lookup].
    specialize (IH (done_ ++ [v])%list).
    rewrite length_app, map_app in IH. cbn [length map] in IH.
    replace (Z.of_nat (length done_) + 1) with (Z.of_nat (length done_ + 1)) by lia.
    apply IH. now rewrite <- app_assoc.
Qed.

(** A ProcessData request is answered by progress messages followed by
    one success whose result holds, for every element of the dataset in
    order, the transformed value rounded to four decimals, and whose
    originalLength is the length of the dataset; a dataset of at most 10
    elements gives no progress message. *)
Lemma processData_response (toFixed4 : number -> number) (w : worker)
    (data : payload) (id : jsid) :
  let dataset := data_dataset data in
  exists reports,
    onmessage toFixed4 w (Request (Some "processData"%string) data id) =
      (w, (reports ++
           [Success id "processData"
              (ProcessDataResult
                 (map (fun value => toFixed4 (apply_transform (data_transform data) dataset value))
                      dataset)
                 (Z.of_nat (length dataset)))])%list) /\
    Forall (progress_for id) reports /\
    (Z.of_nat (length dataset) <= 10 -> reports = []).
Proof.
  intros dataset. unfold onmessage. cbn [req_command req_data req_id dispatch same].
  cbn [String.eqb Ascii.eqb Bool.eqb].
  unfold handleProcessData. fold dataset.
  set (total := Z.of_nat (length dataset)).
  match goal with
  | |- context [for_loopM ?cnt ?start ?bd ?st] =>
      destruct (for_loopM_reports id (progress_due 10 total) (fun i => percent i total)
                  (processData_next toFixed4 data) bd cnt start st) as (out & E & F & V)
  end.
  { intros j s Hj. unfold processData_next. fold dataset.
    destruct (dataset !! Z.to_nat j) as [v|] eqn:L.
    - eexists. cbv zeta. apply report_step.
    - apply lookup_ge_None in L. lia. }
  exists out. rewrite E.
  pose proof (processData_loop_state toFixed4 data dataset [] eq_refl) as Hstate.
  cbn [length map] in Hstate. change (Z.of_nat 0) with 0 in Hstate.
  fold dataset in Hstate. unfold bind, postMessage. rewrite Hstate.
  split; [reflexivity|]. split; [exact F|].
  intros Hsmall.
  assert (Hnone : progress_values out = []).
  { rewrite V. generalize (seqZ 0 (Z.of_nat (length dataset))). intros l.
    induction l as [|i l IH]; [reflexivity|].
    rewrite filter_cons_False; [exact IH|].
    unfold progress_due. destruct (Z.ltb_spec 10 total); [lia | simpl; congruence]. }
  destruct out as [|r out]; [reflexivity|].
  apply List.Forall_cons_iff in F as [(p & c & ->) _].
  discriminate Hnone.
Qed.

Definition processData_data (dataset : list number) (transform : string) : payload :=
  Payload None [] dataset (Some transform) None None None None None None.

Example processData_double :
  onmessage (fun x => x) (Worker ∅ 1)
    (Request (Some "processData"%string) (processData_data [1; 2; 3]%float "double")
       (Some "x"%string)) =
  (Worker ∅ 1,
   [Success (Some "x"%string) "processData" (ProcessDataResult [2; 4; 6]%float 3)]).
Proof. reflexivity. Qed.

(** X4: a SimulateWork request emits nothing when it is received; with
    [steps] at least 1, after its timer has fired [steps] times (or more)
    the emissions are one progress message for each step 1 .. steps, with
    the floored percentage, followed by one success that carries the
    completion text and the duration. *)
Theorem simulateWork_response (toFixed4 : number -> number) (e : request) (ticks : nat) :
  let steps := default 100 (data_steps (req_data e)) in
  let duration := default 3000%float (data_duration (req_data e)) in
  dispatch (req_command e) = Some SimulateWork ->
  snd (onmessage toFixed4 (Worker ∅ 1) e) = [] /\
  (1 <= steps -> (Z.to_nat steps <= ticks)%nat ->
   request_run toFixed4 e ticks =
   (map (fun c => Progress (req_id e) (percent c steps)
                    [("currentStep"%string, c); ("totalSteps"%string, steps)])
        (range (Z.to_nat steps) 1)
    ++ [Success (req_id e) "simulateWork" (SimulateWorkResult "模拟工作完成" duration)])%list).
Proof.
  intros steps duration D. split.
  - now rewrite (onmessage_simulateWork toFixed4 _ _ D).
  - intros Hsteps Hticks.
    rewrite (request_run_simulateWork toFixed4 e _ D). fold steps duration.
    replace (last_tick steps) with steps by (unfold last_tick; lia).
    rewrite Nat.min_r by exact Hticks.
    pose proof (interval_trace_complete (req_id e) duration steps) as H.
    replace (last_tick steps) with steps in H by (unfold last_tick; lia).
    exact H.
Qed.

Lemma simulateWork_response_witness :
  request_run (fun x => x)
    (Request (Some "simulateWork"%string) (simulateWork_data 2) (Some "x"%string)) 5 =
  [Progress (Some "x"%string) 50%float [("currentStep"%string, 1); ("totalSteps"%string, 2)];
   Progress (Some "x"%string) 100%float [("currentStep"%string, 2); ("totalSteps"%string, 2)];
   Success (Some "x"%string) "simulateWork" (SimulateWorkResult "模拟工作完成" 3000%float)].
Proof.
  apply (simulateWork_response (fun x => x)
           (Request (Some "simulateWork"%string) (simulateWork_data 2) (Some "x"%string)) 5).
  - reflexivity.
  - simpl. lia.
  - simpl. lia.
Defined.

(* ===================================================================== *)
(** * More on the sort functions *)
(* ===================================================================== *)

(** ** Order facts *)

Lemma fle_not_gt a b : fle a b -> js_gt a b = false.
Proof.
  unfold fle, js_gt. rewrite FloatAxioms.leb_spec, FloatAxioms.ltb_spec.
  unfold SFleb, SFltb. intros H.
  destruct (SFcompare (Prim2SF a) (Prim2SF b)) as [c|] eqn:E; [|discriminate].
  rewrite (SFcompare_antisym _ _ _ E). destruct c; try reflexivity; discriminate.
Qed.

Lemma lt_fle_trans p x y : js_lt p x = true -> fle x y -> js_lt p y = true.
Proof.
  intros Hpx Hxy. destruct (js_lt p y) eqn:E; [reflexivity|].
  destruct (fle_not_nan _ _ (lt_fle _ _ Hpx)) as [Hp _].
  destruct (fle_not_nan _ _ Hxy) as [_ Hy].
  pose proof (not_lt_fle _ _ Hp Hy E) as Hyp.
  pose proof (fle_not_gt _ _ (fle_trans _ _ _ Hxy Hyp)) as H.
  unfold js_gt in H. unfold js_lt in Hpx. congruence.
Qed.

Lemma feq_key x y : feq x y -> key x = key y.
Proof.
  unfold feq, key. rewrite FloatAxioms.eqb_spec. unfold SFeqb. intros H.
  apply SFcompare_eq_key.
  destruct (SFcompare (Prim2SF x) (Prim2SF y)) as [[]|]; try discriminate. reflexivity.
Qed.

Lemma key_lt_l x y p : key x = key y -> js_lt x p = js_lt y p.
Proof.
  unfold key, js_lt. intros H. rewrite !FloatAxioms.ltb_spec. unfold SFltb.
  rewrite <- (SFcompare_key (Prim2SF x)), <- (SFcompare_key (Prim2SF y)). now rewrite H.
Qed.

Lemma key_lt_r x y p : key x = key y -> js_lt p x = js_lt p y.
Proof.
  unfold key, js_lt. intros H. rewrite !FloatAxioms.ltb_spec. unfold SFltb.
  rewrite <- (SFcompare_key _ (Prim2SF x)), <- (SFcompare_key _ (Prim2SF y)). now rewrite H.
Qed.

Lemma key_gt_l x y p : key x = key y -> js_gt x p = js_gt y p.
Proof. apply key_lt_r. Qed.

(** [x == v]. *)
Definition js_eq (v x : number) : bool := (x =? v)%float.

Lemma js_eq_key v x y : js_eq v x = true -> js_eq v y = true -> key x = key y.
Proof.
  unfold js_eq. intros Hx Hy. rewrite (feq_key x v Hx). symmetry. exact (feq_key y v Hy).
Qed.

(** ** List facts *)

Lemma sorted_app_inv {A} (R : A -> A -> Prop) (l1 l2 : list A) :
  StronglySorted R (l1 ++ l2) ->
  StronglySorted R l1 /\ StronglySorted R l2 /\
  (forall x y, In x l1 -> In y l2 -> R x y).
Proof.
  induction l1 as [|a l1 IH]; cbn [app]; intros H.
  - split; [constructor|]. split; [exact H|]. intros x y [].
  - apply StronglySorted_inv in H as [H Fa]. destruct (IH H) as (S1 & S2 & Hc).
    apply List.Forall_app in Fa as [Fa1 Fa2].
    split; [now constructor|]. split; [exact S2|].
    intros x y [<-|Hx] Hy; [|now apply Hc].
    rewrite List.Forall_forall in Fa2. now apply Fa2.
Qed.

Lemma filter_none {A} (f : A -> bool) (l : list A) :
  Forall (fun y => f y = false) l -> List.filter f l = [].
Proof.
  induction 1 as [|y l Hy _ IH]; [reflexivity|]. cbn [List.filter]. now rewrite Hy.
Qed.

(** ** bubbleSort, pass by pass *)

Lemma bubble_length x l : length (bubble x l) = S (length l).
Proof. exact (Permutation_length (bubble_perm x l)). Qed.

(** What every pass keeps, bubbleSort keeps. *)
Lemma bubbleSort_invariant (Inv : list number -> Prop) (arr : list number) :
  Inv arr ->
  (forall x rest c, (c <= length rest)%nat -> Inv (x :: rest) ->
     Inv (bubble x (take c rest) ++ drop c rest)) ->
  Inv (bubbleSort arr).
Proof.
  intros H0 Hpass. unfold bubbleSort.
  refine (proj1 (for_loop_invariant (fun _ a => Inv a /\ length a = length arr)
                   (fun i a => for_loop (length arr - i - 1) 0 swap_if_gt a)
                   (length arr - 1) 0 arr _ (conj H0 eq_refl))).
  intros i a Hi [Ha Hlen]. destruct a as [|x rest]; [simpl in Hlen; lia|].
  cbn [length] in Hlen.
  pose proof (inner_loop_bubble (length arr - i - 1) [] x rest) as E.
  cbn [length app] in E. rewrite E by lia. split.
  - apply Hpass; [lia | exact Ha].
  - rewrite length_app, bubble_length, length_take, length_drop. lia.
Qed.

Lemma bubbleSort_permutation arr : Permutation (bubbleSort arr) arr.
Proof.
  apply (bubbleSort_invariant (fun a => Permutation a arr)); [reflexivity|].
  intros x rest c _ H. rewrite bubble_perm. cbn [app]. now rewrite take_drop.
Qed.

Lemma insert_by_difference_perm a l : Permutation (insert_by_difference a l) (a :: l).
Proof.
  induction l as [|b l IH]; cbn [insert_by_difference]; [reflexivity|].
  destruct (js_gt (a - b)%float 0%float); [|reflexivity].
  rewrite IH. apply perm_swap.
Qed.

Lemma nativeSort_perm l : Permutation (nativeSort l) l.
Proof.
  induction l as [|a l IH]; [reflexivity|]. unfold nativeSort. cbn [fold_right].
  rewrite insert_by_difference_perm. constructor. exact IH.
Qed.

(** X12: whatever the numbers, NaN included, each of the four sorts returns
    a rearrangement of its input: no element is lost, added or changed.
    The result has the length of the input. *)
Theorem sorts_rearrange (algorithm : string) (arr : list number) :
  Permutation (quickSort arr) arr /\ Permutation (mergeSort arr) arr /\
  Permutation (bubbleSort arr) arr /\ Permutation (nativeSort arr) arr /\
  Permutation (sort_switch algorithm arr) arr /\
  length (sort_switch algorithm arr) = length arr.
Proof.
  assert (H : Permutation (sort_switch algorithm arr) arr).
  { unfold sort_switch.
    destruct (same (Some algorithm) "quick"); [apply quickSort_perm|].
    destruct (same (Some algorithm) "merge"); [apply mergeSort_perm|].
    destruct (same (Some algorithm) "bubble"); [apply bubbleSort_permutation|].
    apply nativeSort_perm. }
  split; [apply quickSort_perm|]. split; [apply mergeSort_perm|].
  split; [apply bubbleSort_permutation|]. split; [apply nativeSort_perm|].
  split; [exact H | exact (Permutation_length H)].
Qed.

(** ** Sorted input *)

Lemma bubble_ascending : forall l x, ascending (x :: l) -> bubble x l = x :: l.
Proof.
  induction l as [|y l IH]; intros x H; [reflexivity|].
  apply StronglySorted_inv in H as [H Fx]. apply List.Forall_inv in Fx.
  cbn [bubble]. rewrite (fle_not_gt _ _ Fx). f_equal. now apply IH.
Qed.

Lemma bubbleSort_sorted arr : ascending arr -> bubbleSort arr = arr.
Proof.
  intros Hs. apply (bubbleSort_invariant (fun a => a = arr)); [reflexivity|].
  intros x rest c _ E. rewrite <- E in Hs.
  rewrite <- (take_drop c rest) in Hs.
  change (x :: take c rest ++ drop c rest) with ((x :: take c rest) ++ drop c rest) in Hs.
  apply sorted_app_inv in Hs as (Hs & _).
  rewrite (bubble_ascending _ _ Hs). cbn [app]. rewrite take_drop. exact E.
Qed.

Lemma partition3_all_gt pivot arr :
  Forall (fun y => js_gt y pivot = true) arr -> partition3 pivot arr = ([], arr, []).
Proof.
  induction 1 as [|y arr Hy _ IH]; [reflexivity|]. cbn [partition3]. rewrite IH, Hy.
  assert (L : js_lt y pivot = false).
  { apply (fle_not_gt pivot y). now apply gt_fle. }
  now rewrite L.
Qed.

Lemma partition3_none_lt pivot arr :
  Forall (fun y => js_lt y pivot = false) arr ->
  let '(l, _, _) := partition3 pivot arr in l = [].
Proof.
  induction 1 as [|y arr Hy _ IH]; [reflexivity|]. cbn [partition3].
  destruct (partition3 pivot arr) as [[l r] e]. rewrite Hy.
  destruct (js_gt y pivot); exact IH.
Qed.

(** On an ascending array the three buckets are consecutive stretches. *)
Lemma partition3_ascending pivot arr :
  not_nan pivot -> no_nan arr -> ascending arr ->
  let '(l, r, e) := partition3 pivot arr in arr = l ++ e ++ r.
Proof.
  intros Hp Hn Hs. induction Hs as [|x arr Hs IH Fx]; [reflexivity|].
  apply List.Forall_cons_iff in Hn as [Hx Hn]. specialize (IH Hn).
  cbn [partition3].
  destruct (js_lt x pivot) eqn:L.
  { destruct (partition3 pivot arr) as [[l r] e]. cbn [app]. now f_equal. }
  destruct (js_gt x pivot) eqn:G.
  - rewrite partition3_all_gt; [reflexivity|].
    rewrite List.Forall_forall in Fx |- *. intros y Hy.
    exact (lt_fle_trans pivot x y G (Fx y Hy)).
  - assert (Hnone : Forall (fun y => js_lt y pivot = false) arr).
    { rewrite List.Forall_forall in Fx, Hn |- *. intros y Hy.
      apply (fle_not_gt pivot y).
      apply fle_trans with x; [now apply not_lt_fle | now apply Fx]. }
    pose proof (partition3_none_lt pivot arr Hnone) as Hl.
    destruct (partition3 pivot arr) as [[l r] e]. subst l. cbn [app] in *. now f_equal.
Qed.

Lemma ascending_no_nan arr : (2 <= length arr)%nat -> ascending arr -> no_nan arr.
Proof.
  intros Hlen Hs. destruct arr as [|x [|y arr]]; try (simpl in Hlen; lia).
  apply StronglySorted_inv in Hs as [Hs Fx].
  constructor.
  - apply List.Forall_inv in Fx. exact (proj1 (fle_not_nan _ _ Fx)).
  - eapply Forall_impl; [exact Fx|]. intros z Hz. exact (proj2 (fle_not_nan _ _ Hz)).
Qed.

Lemma quickSort_sorted : forall arr, ascending arr -> quickSort arr = arr.
Proof.
  intros arr. remember (length arr) as n eqn:Hn. revert arr Hn.
  induction n as [n IH] using lt_wf_ind. intros arr Hn Hs.
  rewrite quickSort_unfold.
  destruct (length arr <=? 1)%nat eqn:E; [reflexivity|].
  destruct (arr !! (length arr / 2)%nat) as [pivot|] eqn:Ep; [|reflexivity].
  apply Nat.leb_gt in E.
  pose proof (ascending_no_nan arr ltac:(lia) Hs) as Hnan.
  pose proof (lookup_In _ _ _ Ep) as Hpin.
  assert (Hnp : not_nan pivot).
  { unfold no_nan in Hnan. rewrite List.Forall_forall in Hnan. now apply Hnan. }
  pose proof (partition3_length pivot arr) as Hp.
  pose proof (partition3_ascending pivot arr Hnp Hnan Hs) as Happ.
  destruct (partition3 pivot arr) as [[l r] e]. destruct Hp as (Hlen & Hin).
  specialize (Hin Hpin).
  pose proof Hs as Hs'. rewrite Happ in Hs'.
  apply sorted_app_inv in Hs' as (Hsl & Hser & _).
  apply sorted_app_inv in Hser as (_ & Hsr & _).
  rewrite (IH (length l)), (IH (length r)); auto; try lia.
Qed.

(** X13: quickSort and bubbleSort return an ascending array as it is; so, on
    an array without NaN, sorting the result again changes nothing. *)
Theorem sorted_input_unchanged (arr : list number) :
  (ascending arr -> quickSort arr = arr /\ bubbleSort arr = arr) /\
  (no_nan arr ->
   quickSort (quickSort arr) = quickSort arr /\
   bubbleSort (bubbleSort arr) = bubbleSort arr).
Proof.
  split.
  - intros Hs. split; [now apply quickSort_sorted | now apply bubbleSort_sorted].
  - intros Hn. split.
    + apply quickSort_sorted. now apply quickSort_ascending.
    + apply bubbleSort_sorted. now apply bubbleSort_ascending.
Qed.

Lemma sorted_input_unchanged_witness :
  quickSort [-1; 0; -0; 2; 2; infinity]%float = [-1; 0; -0; 2; 2; infinity]%float /\
  bubbleSort [-1; 0; -0; 2; 2; infinity]%float = [-1; 0; -0; 2; 2; infinity]%float.
Proof.
  apply (proj1 (sorted_input_unchanged [-1; 0; -0; 2; 2; infinity]%float)).
  repeat (apply SSorted_cons;
          [|repeat (apply List.Forall_cons; [reflexivity|]); apply List.Forall_nil]).
  apply SSorted_nil.
Defined.

(** A strictly ascending array: every element is [<] the ones after it. *)
Definition strictly_ascending (l : list number) : Prop :=
  StronglySorted (fun x y => js_lt x y = true) l.

Lemma merge_separated : forall l r,
  (forall x y, In x l -> In y r -> js_lt x y = true) -> merge l r = l ++ r.
Proof.
  induction l as [|x l IH]; intros r H; [reflexivity|].
  destruct r as [|y r]; [now rewrite merge_nil_r, app_nil_r|].
  rewrite merge_cons, (H x y) by (now left). cbn [app]. f_equal.
  apply IH. intros a b Ha Hb. apply H; [now right | exact Hb].
Qed.

(** X14: mergeSort returns a strictly ascending array as it is.  (Two equal
    neighbours are exchanged: see [merge_not_stable].) *)
Theorem mergeSort_strictly_sorted_unchanged (arr : list number) :
  strictly_ascending arr -> mergeSort arr = arr.
Proof.
  remember (length arr) as n eqn:Hn. revert arr Hn.
  induction n as [n IH] using lt_wf_ind. intros arr Hn Hs.
  rewrite mergeSort_unfold.
  destruct (length arr <=? 1)%nat eqn:E; [reflexivity|]. apply Nat.leb_gt in E.
  cbv zeta. set (mid := (length arr / 2)%nat).
  assert (Hmid : (0 < mid < length arr)%nat).
  { unfold mid. split; [apply Nat.div_str_pos; lia | apply Nat.div_lt; lia]. }
  pose proof Hs as Hs'. rewrite <- (take_drop mid arr) in Hs'.
  apply sorted_app_inv in Hs' as (Hl & Hr & Hc).
  rewrite (IH (length (take mid arr))), (IH (length (drop mid arr))); auto.
  - rewrite merge_separated by exact Hc. apply take_drop.
  - rewrite length_drop. lia.
  - rewrite length_take. lia.
Qed.

Lemma mergeSort_strictly_sorted_unchanged_witness :
  mergeSort [neg_infinity; -1; 0; 2; 3; infinity]%float =
  [neg_infinity; -1; 0; 2; 3; infinity]%float.
Proof.
  apply (mergeSort_strictly_sorted_unchanged [neg_infinity; -1; 0; 2; 3; infinity]%float).
  repeat (apply SSorted_cons;
          [|repeat (apply List.Forall_cons; [reflexivity|]); apply List.Forall_nil]).
  apply SSorted_nil.
Defined.

(** ** Stability *)

Lemma partition3_filter v pivot arr :
  let '(l, r, e) := partition3 pivot arr in
  List.filter (js_eq v) (l ++ e ++ r) = List.filter (js_eq v) arr.
Proof.
  induction arr as [|x arr IH]; [reflexivity|]. cbn [partition3].
  pose proof (partition3_spec pivot arr) as Hspec.
  destruct (partition3 pivot arr) as [[l r] e]. destruct Hspec as (Hl & Hr & He).
  destruct (js_lt x pivot) eqn:L; [|destruct (js_gt x pivot) eqn:G].
  - cbn [app List.filter]. now rewrite IH.
  - cbn [List.filter]. destruct (js_eq v x) eqn:Ex.
    + rewrite <- IH, !List.filter_app. cbn [List.filter]. rewrite Ex.
      rewrite (filter_none (js_eq v) l), (filter_none (js_eq v) e); [reflexivity| |].
      * eapply Forall_impl; [exact He|]. intros y [_ Gy].
        destruct (js_eq v y) eqn:Ey; [|reflexivity].
        rewrite (key_gt_l y x pivot (js_eq_key v y x Ey Ex)) in Gy. congruence.
      * eapply Forall_impl; [exact Hl|]. intros y Ly. cbv beta in Ly.
        destruct (js_eq v y) eqn:Ey; [|reflexivity].
        rewrite (key_lt_l y x pivot (js_eq_key v y x Ey Ex)) in Ly. congruence.
    + rewrite <- IH, !List.filter_app. cbn [List.filter]. now rewrite Ex.
  - cbn [List.filter]. destruct (js_eq v x) eqn:Ex.
    + rewrite <- IH, !List.filter_app. cbn [List.filter]. rewrite Ex.
      rewrite (filter_none (js_eq v) l); [reflexivity|].
      eapply Forall_impl; [exact Hl|]. intros y Ly. cbv beta in Ly.
      destruct (js_eq v y) eqn:Ey; [|reflexivity].
      rewrite (key_lt_l y x pivot (js_eq_key v y x Ey Ex)) in Ly. congruence.
    + rewrite <- IH, !List.filter_app. cbn [List.filter]. now rewrite Ex.
Qed.

Lemma quickSort_filter v : forall arr,
  List.filter (js_eq v) (quickSort arr) = List.filter (js_eq v) arr.
Proof.
  intros arr. remember (length arr) as n eqn:Hn. revert arr Hn.
  induction n as [n IH] using lt_wf_ind. intros arr Hn.
  rewrite quickSort_unfold.
  destruct (length arr <=? 1)%nat eqn:E; [reflexivity|].
  destruct (arr !! (length arr / 2)%nat) as [pivot|] eqn:Ep; [|reflexivity].
  pose proof (partition3_length pivot arr) as Hp.
  pose proof (partition3_filter v pivot arr) as Hf.
  destruct (partition3 pivot arr) as [[l r] e]. destruct Hp as (Hlen & Hin).
  specialize (Hin (lookup_In _ _ _ Ep)).
  rewrite <- Hf, !List.filter_app.
  rewrite (IH (length l)), (IH (length r)); auto; lia.
Qed.

Lemma bubble_filter v : forall l x,
  List.filter (js_eq v) (bubble x l) = List.filter (js_eq v) (x :: l).
Proof.
  induction l as [|y l IH]; intros x; [reflexivity|]. cbn [bubble].
  destruct (js_gt x y) eqn:G.
  - cbn [List.filter]. rewrite IH. cbn [List.filter].
    destruct (js_eq v x) eqn:Ex, (js_eq v y) eqn:Ey; try reflexivity.
    exfalso. change (js_lt y x = true) in G.
    rewrite (key_lt_l y x x (js_eq_key v y x Ey Ex)) in G.
    rewrite js_lt_irrefl in G. discriminate.
  - cbn [List.filter]. rewrite IH. reflexivity.
Qed.

(** X15: quickSort and bubbleSort are stable: the elements equal ([==]) to
    any given number come out in the order they came in, whatever the
    input.  (mergeSort is not: see [merge_not_stable].) *)
Theorem quickSort_bubbleSort_stable (v : number) (arr : list number) :
  List.filter (js_eq v) (quickSort arr) = List.filter (js_eq v) arr /\
  List.filter (js_eq v) (bubbleSort arr) = List.filter (js_eq v) arr.
Proof.
  split; [apply quickSort_filter|].
  apply (bubbleSort_invariant
           (fun a => List.filter (js_eq v) a = List.filter (js_eq v) arr)); [reflexivity|].
  intros x rest c _ H. rewrite List.filter_app, bubble_filter, <- List.filter_app.
  cbn [app]. now rewrite take_drop.
Qed.

Example stable_zeros :
  quickSort [0; 1; -0]%float = [0; -0; 1]%float /\
  bubbleSort [0; 1; -0]%float = [0; -0; 1]%float /\
  mergeSort [0; 1; -0]%float = [-0; 0; 1]%float.
Proof. repeat split. Qed.

(* ===================================================================== *)
(** * The emissions of the looping handlers, message by message *)
(* ===================================================================== *)

(** What a loop emits when its body takes the state [s] to [next i s] and
    reports [report i (next i s)] at the indices where a report is due. *)
Fixpoint loop_reports {St : Type} (due : Z -> bool) (report : Z -> St -> response)
    (next : Z -> St -> St) (count : nat) (i : Z) (s : St) : list response :=
  match count with
  | O => []
  | S count' =>
      ((if due i then [report i (next i s)] else []) ++
       loop_reports due report next count' (i + 1) (next i s))%list
  end.

Lemma for_loopM_trace {St : Type} (due : Z -> bool) (report : Z -> St -> response)
    (next : Z -> St -> St) (body : Z -> St -> handler St) :
  forall count i s,
    (forall j s, i <= j < i + Z.of_nat count ->
       body j s = ((if due j then [report j (next j s)] else []), inr (next j s))) ->
    for_loopM count i body s =
    (loop_reports due report next count i s, inr (loop_state count i next s)).
Proof.
  induction count as [|count IH]; intros i s Hbody; [reflexivity|].
  cbn [for_loopM loop_reports loop_state]. unfold bind.
  rewrite Hbody by lia. rewrite IH; [reflexivity|].
  intros j s' Hj. apply Hbody. lia.
Qed.

Lemma seqZ_S (i : Z) (count : nat) :
  seqZ i (Z.of_nat (S count)) = i :: seqZ (i + 1) (Z.of_nat count).
Proof.
  replace (Z.of_nat (S count)) with (Z.succ (Z.of_nat count)) by lia.
  rewrite (seqZ_cons i) by lia. replace (Z.succ i) with (i + 1) by lia.
  now replace (Z.pred (Z.succ (Z.of_nat count))) with (Z.of_nat count) by lia.
Qed.

(** A report that does not depend on the state. *)
Lemma loop_reports_stateless {St : Type} (due : Z -> bool) (report : Z -> response)
    (next : Z -> St -> St) :
  forall count i s,
    loop_reports due (fun j _ => report j) next count i s =
    map report (List.filter due (seqZ i (Z.of_nat count))).
Proof.
  induction count as [|count IH]; intros i s; [reflexivity|].
  cbn [loop_reports]. rewrite IH, seqZ_S. cbn [List.filter].
  destruct (due i); reflexivity.
Qed.

(** ** The cadence of the reports *)

(** [size > threshold && i % Math.floor(size / 10) === 0], over the
    integers. *)
Definition reports_at (threshold size i : Z) : bool :=
  (threshold <? size) && (i mod (size / 10) =? 0).

Lemma progress_due_reports_at threshold size i :
  10 <= threshold -> 0 <= size <= 100000 -> 0 <= i ->
  progress_due threshold size i = reports_at threshold size i.
Proof.
  intros Ht Hs Hi. unfold progress_due, reports_at.
  rewrite floor_div10_small by exact Hs.
  destruct (Z.ltb_spec threshold size) as [Hlt|Hge]; [|reflexivity]. cbn [andb].
  assert (He : 1 <= size / 10) by (apply Z.div_le_lower_bound; lia).
  unfold rem_is_zero. destruct (Z.eqb_spec (size / 10) 0) as [E|_]; [lia|].
  now rewrite Z.rem_mod_nonneg by lia.
Qed.

Lemma filter_progress_due threshold size : forall count a,
  10 <= threshold -> 0 <= size <= 100000 -> 0 <= a ->
  List.filter (progress_due threshold size) (seqZ a (Z.of_nat count)) =
  List.filter (reports_at threshold size) (seqZ a (Z.of_nat count)).
Proof.
  intros count a Ht Hs Ha. apply List.filter_ext_in. intros i Hi.
  apply list_elem_of_In, elem_of_seqZ in Hi. apply progress_due_reports_at; lia.
Qed.

(** The multiples of [every] in [a, a + count) are counted by the two
    rounded-up quotients. *)
Lemma ceil_step every x :
  0 < every -> 0 <= x ->
  (x + every) / every - (x + every - 1) / every = if x mod every =? 0 then 1 else 0.
Proof.
  intros He Hx.
  pose proof (Z.div_mod x every ltac:(lia)) as Hdm.
  pose proof (Z.mod_pos_bound x every He) as Hr.
  set (q := x / every) in *. set (r := x mod every) in *.
  assert (E1 : (x + every) / every = q + 1).
  { symmetry. apply (Z.div_unique _ _ _ r); lia. }
  destruct (Z.eqb_spec r 0) as [R0|Rn].
  - assert (E2 : (x + every - 1) / every = q).
    { symmetry. apply (Z.div_unique _ _ _ (every - 1)); lia. }
    lia.
  - assert (E2 : (x + every - 1) / every = q + 1).
    { symmetry. apply (Z.div_unique _ _ _ (r - 1)); lia. }
    lia.
Qed.

Lemma count_multiples every : 0 < every -> forall count a, 0 <= a ->
  Z.of_nat (length (List.filter (fun i => i mod every =? 0) (seqZ a (Z.of_nat count)))) =
  (a + Z.of_nat count + every - 1) / every - (a + every - 1) / every.
Proof.
  intros He. induction count as [|count IH]; intros a Ha.
  - change (seqZ a (Z.of_nat 0)) with (@nil Z). cbn [length List.filter].
    change (Z.of_nat 0) with 0. rewrite Z.add_0_r. lia.
  - rewrite seqZ_S. cbn [List.filter].
    pose proof (ceil_step every a He Ha) as Hstep.
    specialize (IH (a + 1) ltac:(lia)).
    replace (a + Z.of_nat (S count) + every - 1) with (a + 1 + Z.of_nat count + every - 1) by lia.
    replace (a + 1 + every - 1) with (a + every) in IH by lia.
    destruct (a mod every =? 0); cbn [length]; lia.
Qed.

Lemma count_reports threshold size count a :
  threshold < size -> 10 <= size -> 0 <= a ->
  Z.of_nat (length (List.filter (reports_at threshold size) (seqZ a (Z.of_nat count)))) =
  (a + Z.of_nat count + size / 10 - 1) / (size / 10) - (a + size / 10 - 1) / (size / 10).
Proof.
  intros Ht Hs Ha.
  assert (He : 1 <= size / 10) by (apply Z.div_le_lower_bound; lia).
  rewrite <- (count_multiples (size / 10)) by lia. f_equal. f_equal.
  apply List.filter_ext. intros i. unfold reports_at.
  destruct (Z.ltb_spec threshold size); [reflexivity | lia].
Qed.

(** X9: the progress condition the three looping handlers share,
    [size > threshold && i % Math.floor(size / 10) === 0], holds exactly at
    the indices divisible by the integer quotient of [size] by 10, when
    [size] is above the threshold (checked for sizes up to 100000).  So a
    Fibonacci request with n above 10 is answered with 11 to 20 progress
    messages, a PrimeNumbers request with limit above 100 with 10 to 19, a
    ProcessData request with more than 10 elements with 10 to 20; at or
    below the threshold there is none. *)
Theorem progress_cadence (threshold size i : Z) :
  10 <= threshold -> 0 <= size <= 100000 -> 0 <= i ->
  (progress_due threshold size i = true <-> threshold < size /\ (size / 10 | i)) /\
  (10 < size <= 1000 ->
   11 <= Z.of_nat (length (List.filter (progress_due 10 size) (seqZ 0 (size + 1)))) <= 20) /\
  (100 < size ->
   10 <= Z.of_nat (length (List.filter (progress_due 100 size) (seqZ 2 (size - 1)))) <= 19) /\
  (10 < size ->
   10 <= Z.of_nat (length (List.filter (progress_due 10 size) (seqZ 0 size))) <= 20).
Proof.
  intros Ht Hs Hi.
  assert (Hq : size / 10 * 10 <= size < size / 10 * 10 + 10).
  { pose proof (Z.div_mod size 10 ltac:(lia)). pose proof (Z.mod_pos_bound size 10 ltac:(lia)).
    lia. }
  split; [|split; [|split]].
  - rewrite progress_due_reports_at by assumption. unfold reports_at.
    rewrite andb_true_iff, Z.ltb_lt, Z.eqb_eq. split.
    + intros [Hlt Hm]. split; [exact Hlt|]. apply Z.mod_divide; [lia | exact Hm].
    + intros [Hlt Hd]. split; [exact Hlt|]. apply Z.mod_divide; [lia | exact Hd].
  - intros Hn. set (e := size / 10) in *.
    replace (size + 1) with (Z.of_nat (Z.to_nat (size + 1))) by lia.
    rewrite filter_progress_due, count_reports by lia. fold e.
    rewrite Z2Nat.id by lia.
    replace (0 + (size + 1) + e - 1) with (size + 1 * e) by lia.
    rewrite Z.div_add by lia.
    rewrite (Z.div_small (0 + e - 1) e) by lia.
    assert (10 <= size / e) by (apply Z.div_le_lower_bound; lia).
    assert (size / e < 20) by (apply Z.div_lt_upper_bound; nia).
    lia.
  - intros Hn. set (e := size / 10) in *.
    replace (size - 1) with (Z.of_nat (Z.to_nat (size - 1))) by lia.
    rewrite filter_progress_due, count_reports by lia. fold e.
    rewrite Z2Nat.id by lia.
    replace (2 + (size - 1) + e - 1) with (size + 1 * e) by lia.
    rewrite Z.div_add by lia.
    replace (2 + e - 1) with (1 + 1 * e) by lia.
    rewrite Z.div_add by lia. rewrite (Z.div_small 1 e) by lia.
    assert (10 <= size / e) by (apply Z.div_le_lower_bound; lia).
    assert (size / e < 20) by (apply Z.div_lt_upper_bound; nia).
    lia.
  - intros Hn. set (e := size / 10) in *.
    replace (seqZ 0 size) with (seqZ 0 (Z.of_nat (Z.to_nat size)))
      by (now rewrite Z2Nat.id by lia).
    rewrite filter_progress_due, count_reports by lia. fold e.
    rewrite Z2Nat.id by lia.
    replace (0 + size + e - 1) with (size - 1 + 1 * e) by lia.
    rewrite Z.div_add by lia.
    rewrite (Z.div_small (0 + e - 1) e) by lia.
    assert (9 <= (size - 1) / e) by (apply Z.div_le_lower_bound; lia).
    assert ((size - 1) / e < 20) by (apply Z.div_lt_upper_bound; nia).
    lia.
Qed.

Lemma progress_cadence_witness :
  (progress_due 10 25 4 = true <-> 10 < 25 /\ (25 / 10 | 4)) /\
  11 <= Z.of_nat (length (List.filter (progress_due 10 25) (seqZ 0 (25 + 1)))) <= 20.
Proof.
  destruct (progress_cadence 10 25 4) as (H1 & H2 & _); [lia | lia | lia |].
  split; [exact H1 | apply H2; lia].
Defined.

(** ** handleFibonacci *)

(** X6: for n in [0, 1000] a Fibonacci request is answered by exactly
    these messages, in this order: for every index i of 0 .. n divisible by
    the integer quotient of n by 10 (none when n is at most 10), a progress
    message with the floored percentage, [current] = i and [total] = n; then
    the success. *)
Theorem fibonacci_emissions (toFixed4 : number -> number) (w : worker)
    (data : payload) (id : jsid) :
  let n := default 20 (data_n data) in
  0 <= n <= 1000 ->
  onmessage toFixed4 w (Request (Some "fibonacci"%string) data id) =
  (w, (map (fun i => Progress id (percent i n) [("current"%string, i); ("total"%string, n)])
           (List.filter (reports_at 10 n) (seqZ 0 (n + 1)))
       ++ [Success id "fibonacci"
             (FibonacciResult (map fib (seqZ 0 (n + 1))) (n + 1) (Some (fib n)))])%list).
Proof.
  intros n Hn. rewrite onmessage_fibonacci.
  destruct (handleFibonacci_trace data id Hn) as (reports & E & _). fold n in E.
  rewrite E. f_equal. f_equal.
  (* the reports *)
  unfold handleFibonacci in E. fold n in E.
  replace ((n <? 0) || (1000 <? n)) with false in E
    by (destruct (Z.ltb_spec n 0), (Z.ltb_spec 1000 n); try lia; reflexivity).
  rewrite (for_loopM_trace (progress_due 10 n)
             (fun i _ => Progress id (percent i n) [("current"%string, i); ("total"%string, n)])
             (fun i sequence => (sequence ++ [fib i])%list)) in E
    by (intros j s _; apply report_step).
  rewrite loop_reports_stateless in E. cbn [bind postMessage] in E.
  injection E as E. apply app_inj_tail in E as [E _]. rewrite <- E.
  rewrite filter_progress_due by lia. now rewrite Z2Nat.id by lia.
Qed.

Lemma fibonacci_emissions_witness :
  onmessage (fun x => x) (Worker ∅ 1)
    (Request (Some "fibonacci"%string) (fibonacci_data 12) (Some "x"%string)) =
  (Worker ∅ 1,
   (map (fun i => Progress (Some "x"%string) (percent i 12)
                    [("current"%string, i); ("total"%string, 12)])
        (List.filter (reports_at 10 12) (seqZ 0 (12 + 1)))
    ++ [Success (Some "x"%string) "fibonacci"
          (FibonacciResult (map fib (seqZ 0 (12 + 1))) (12 + 1) (Some (fib 12)))])%list).
Proof.
  apply (fibonacci_emissions (fun x => x) (Worker ∅ 1) (fibonacci_data 12) (Some "x"%string)).
  simpl. lia.
Defined.

(** ** handleProcessData *)

(** X3: a ProcessData request is answered by exactly these messages, in
    this order: for every index i of the dataset at which the progress
    condition holds (none when the dataset has at most 10 elements), a
    progress message with the floored percentage, [processed] = i + 1 and
    [total] = the length; then one success whose result holds, for every
    element in order, the transformed value rounded to four decimals, and
    whose originalLength is the length of the dataset. *)
Theorem processData_emissions (toFixed4 : number -> number) (w : worker)
    (data : payload) (id : jsid) :
  let dataset := data_dataset data in
  let total := Z.of_nat (length dataset) in
  onmessage toFixed4 w (Request (Some "processData"%string) data id) =
    (w, (map (fun i => Progress id (percent i total)
                         [("processed"%string, i + 1); ("total"%string, total)])
             (List.filter (progress_due 10 total) (seqZ 0 total))
         ++ [Success id "processData"
               (ProcessDataResult
                  (map (fun value => toFixed4 (apply_transform (data_transform data) dataset value))
                       dataset)
                  total)])%list) /\
  (total <= 10 -> List.filter (progress_due 10 total) (seqZ 0 total) = []).
Proof.
  intros dataset total. split.
  - destruct (processData_response toFixed4 w data id) as (reports & E & _).
    fold dataset in E. rewrite E. f_equal. f_equal.
    unfold onmessage in E. cbn [req_command req_data req_id dispatch same] in E.
    cbn [String.eqb Ascii.eqb Bool.eqb] in E.
    unfold handleProcessData in E. fold dataset total in E.
    rewrite (for_loopM_trace (progress_due 10 total)
               (fun i _ => Progress id (percent i total)
                             [("processed"%string, i + 1); ("total"%string, total)])
               (processData_next toFixed4 data)) in E.
    + rewrite loop_reports_stateless in E. cbn [bind postMessage] in E.
      injection E as E. apply app_inj_tail in E as [E _]. exact (eq_sym E).
    + intros j s Hj. unfold processData_next. fold dataset.
      destruct (dataset !! Z.to_nat j) as [v|] eqn:L.
      * cbv zeta. apply report_step.
      * apply lookup_ge_None in L. lia.
  - intros Hsmall. apply filter_none. apply List.Forall_forall. intros i _.
    unfold progress_due. destruct (Z.ltb_spec 10 total); [lia | reflexivity].
Qed.

(** ** handlePrimeNumbers *)

Lemma sorted_lt_unique : forall l1 l2 : list Z,
  StronglySorted Z.lt l1 -> StronglySorted Z.lt l2 ->
  (forall p, In p l1 <-> In p l2) -> l1 = l2.
Proof.
  induction l1 as [|a l1 IH]; intros [|b l2] S1 S2 H.
  - reflexivity.
  - exfalso. apply (proj2 (H b)). now left.
  - exfalso. apply (proj1 (H a)). now left.
  - apply StronglySorted_inv in S1 as [S1 Fa]. apply StronglySorted_inv in S2 as [S2 Fb].
    rewrite List.Forall_forall in Fa, Fb.
    assert (a = b) as ->.
    { destruct (proj1 (H a) ltac:(now left)) as [->|Ha]; [reflexivity|].
      destruct (proj2 (H b) ltac:(now left)) as [->|Hb]; [reflexivity|].
      specialize (Fa b Hb). specialize (Fb a Ha). lia. }
    f_equal. apply IH; auto. intros p. split; intros Hp.
    + destruct (proj1 (H p) ltac:(now right)) as [->|H']; [|exact H'].
      specialize (Fa p Hp). lia.
    + destruct (proj2 (H p) ltac:(now right)) as [->|H']; [|exact H'].
      specialize (Fb p Hp). lia.
Qed.

Lemma sorted_filter {A} (R : A -> A -> Prop) (f : A -> bool) (l : list A) :
  StronglySorted R l -> StronglySorted R (List.filter f l).
Proof.
  induction 1 as [|a l Hs IH Fa]; [constructor|]. cbn [List.filter].
  destruct (f a); [|exact IH]. constructor; [exact IH|].
  rewrite List.Forall_forall in Fa |- *. intros x Hx. apply Fa.
  now apply List.filter_In in Hx as [Hx _].
Qed.

(** The progress message of the sieve at index [i], for the list of primes
    [primes] the request ends with. *)
Definition sieve_report (id : jsid) (limit : Z) (primes : list Z) (i : Z) : response :=
  Progress id (percent i limit)
    [("current"%string, i); ("total"%string, limit);
     ("primesFound"%string, Z.of_nat (length (List.filter (fun p => p <=? i) primes)))].

Lemma sieve_reports id limit due : forall count i st,
  2 <= i -> i + Z.of_nat count = limit + 1 -> sieve_inv limit i st ->
  loop_reports due
    (fun i st => Progress id (percent i limit)
                   [("current"%string, i); ("total"%string, limit);
                    ("primesFound"%string, Z.of_nat (length (snd st)))])
    (sieve_next limit) count i st =
  map (sieve_report id limit (snd (loop_state count i (sieve_next limit) st)))
      (List.filter due (seqZ i (Z.of_nat count))).
Proof.
  induction count as [|count IH]; intros i st Hi Hend Hinv; [reflexivity|].
  cbn [loop_reports loop_state]. rewrite seqZ_S. cbn [List.filter].
  pose proof (sieve_step limit i st ltac:(lia) Hinv) as Hnext.
  rewrite (IH (i + 1) (sieve_next limit i st)) by (try lia; exact Hnext).
  destruct (due i); [|reflexivity]. cbn [map app]. f_equal.
  (* the primes found so far are the primes of the result up to [i] *)
  pose proof (loop_state_invariant (sieve_inv limit) (sieve_next limit) count (i + 1)
                (sieve_next limit i st)) as Hfinal.
  destruct Hfinal as (_ & _ & Sf & If).
  { intros j s Hj. apply sieve_step. lia. }
  { exact Hnext. }
  destruct Hnext as (_ & _ & Sn & In_).
  assert (Hfound : snd (sieve_next limit i st) =
                   List.filter (fun p => p <=? i)
                     (snd (loop_state count (i + 1) (sieve_next limit) (sieve_next limit i st)))).
  { apply sorted_lt_unique; [exact Sn | now apply sorted_filter |].
    intros p. rewrite In_, List.filter_In, If, Z.leb_le. intuition lia. }
  unfold sieve_report. now rewrite <- Hfound.
Qed.

(** X8: for limit in [2, 100000] a PrimeNumbers request is answered by
    exactly these messages, in this order: for every index i of 2 .. limit
    divisible by the integer quotient of limit by 10 (none when limit is at
    most 100), a progress message with the floored percentage, [current] =
    i, [total] = limit and [primesFound] = the number of primes up to i;
    then the success with the primes up to limit. *)
Theorem primeNumbers_emissions (toFixed4 : number -> number) (w : worker)
    (data : payload) (id : jsid) :
  let limit := default 100 (data_limit data) in
  2 <= limit <= 100000 ->
  exists primes,
    onmessage toFixed4 w (Request (Some "primeNumbers"%string) data id) =
    (w, (map (sieve_report id limit primes)
             (List.filter (reports_at 100 limit) (seqZ 2 (limit - 1)))
         ++ [Success id "primeNumbers"
               (PrimeNumbersResult primes (Z.of_nat (length primes)) limit)])%list) /\
    StronglySorted Z.lt primes /\
    (forall p, In p primes <-> Z.prime p /\ p <= limit).
Proof.
  intros limit Hl. rewrite onmessage_primeNumbers.
  unfold handlePrimeNumbers. fold limit.
  replace ((limit <? 2) || (100000 <? limit)) with false
    by (destruct (Z.ltb_spec limit 2), (Z.ltb_spec 100000 limit); try lia; reflexivity).
  rewrite (for_loopM_trace (progress_due 100 limit)
             (fun i st => Progress id (percent i limit)
                            [("current"%string, i); ("total"%string, limit);
                             ("primesFound"%string, Z.of_nat (length (snd st)))])
             (sieve_next limit)).
  2:{ intros j [isPrime primes] Hj. unfold sieve_next. cbn [fst snd].
      destruct (isPrime !! Z.to_nat j) as [[|]|]; apply report_step. }
  fold (sieve_start limit).
  rewrite (sieve_reports id limit) by (try lia; apply sieve_start_inv; lia).
  rewrite filter_progress_due by lia. rewrite Z2Nat.id by lia.
  eexists. split; [reflexivity|]. apply (sieve_primes limit). lia.
Qed.

Lemma primeNumbers_emissions_witness :
  exists primes,
    onmessage (fun x => x) (Worker ∅ 1)
      (Request (Some "primeNumbers"%string) (primeNumbers_data 120) (Some "x"%string)) =
    (Worker ∅ 1,
     (map (sieve_report (Some "x"%string) 120 primes)
          (List.filter (reports_at 100 120) (seqZ 2 (120 - 1)))
      ++ [Success (Some "x"%string) "primeNumbers"
            (PrimeNumbersResult primes (Z.of_nat (length primes)) 120)])%list) /\
    StronglySorted Z.lt primes /\
    (forall p, In p primes <-> Z.prime p /\ p <= 120).
Proof.
  apply (primeNumbers_emissions (fun x => x) (Worker ∅ 1) (primeNumbers_data 120)
           (Some "x"%string)).
  simpl. lia.
Defined.

Example primeNumbers_120_reports :
  map (fun r => match r with
                | Progress _ p counters => Some (p, counters)
                | _ => None
                end)
      (firstn 2
         (snd (onmessage (fun x => x) (Worker ∅ 1)
                 (Request (Some "primeNumbers"%string) (primeNumbers_data 120)
                    (Some "x"%string))))) =
  [Some (10%float, [("current"%string, 12); ("total"%string, 120); ("primesFound"%string, 5)]);
   Some (20%float, [("current"%string, 24); ("total"%string, 120); ("primesFound"%string, 9)])].
Proof. vm_compute. reflexivity. Qed.

(* ===================================================================== *)
(** * The numbers the handlers compute *)
(* ===================================================================== *)

(** ** The doubles of [fib] *)

(** The loop of [fib], run [k] times. *)
Definition fib_loop (k : nat) : number * number :=
  for_loop k 2 (fun _ '(a, b) => (b, (a + b)%float)) (0%float, 1%float).

Lemma for_loop_snoc {St : Type} (body : St -> St) : forall count start s,
  for_loop (S count) start (fun _ => body) s = body (for_loop count start (fun _ => body) s).
Proof.
  induction count as [|count IH]; intros start s; [reflexivity|].
  cbn [for_loop] in *. now rewrite <- IH.
Qed.

Lemma fib_loop_S k :
  fib_loop (S k) = (snd (fib_loop k), (fst (fib_loop k) + snd (fib_loop k))%float).
Proof.
  unfold fib_loop.
  rewrite (for_loop_snoc (fun '(a, b) => (b, (a + b)%float))).
  now destruct (for_loop k 2 _ _) as [a b].
Qed.

Lemma fib_loop_fib k : fib_loop k = (fib (Z.of_nat k), fib (Z.of_nat k + 1)).
Proof.
  assert (Hsnd : forall k, snd (fib_loop k) = fib (Z.of_nat k + 1)).
  { intros j. unfold fib. destruct (Z.leb_spec (Z.of_nat j + 1) 1) as [H|H].
    - assert (j = 0%nat) as -> by lia. reflexivity.
    - unfold fib_loop. do 2 f_equal. lia. }
  destruct k as [|k]; [reflexivity|].
  rewrite (surjective_pairing (fib_loop (S k))). f_equal; [|apply Hsnd].
  rewrite fib_loop_S. cbn [fst]. rewrite Hsnd. f_equal. lia.
Qed.

(** Every value of [fib] from index 2 on is the double sum of the two
    before it. *)
Lemma fib_recurrence i : 0 <= i -> fib (i + 2) = (fib i + fib (i + 1))%float.
Proof.
  intros Hi.
  pose proof (fib_loop_fib (S (Z.to_nat i))) as H1.
  rewrite fib_loop_S, (fib_loop_fib (Z.to_nat i)) in H1. cbn [fst snd] in H1.
  rewrite Z2Nat.id in H1 by lia.
  replace (Z.of_nat (S (Z.to_nat i)) + 1) with (i + 2) in H1 by lia.
  now injection H1 as _ H1.
Qed.

(** The doubles and the Fibonacci numbers, side by side: the double at each
    index is an integer within [F / 2^49] of the Fibonacci number [F]. *)
Fixpoint fib_close (count : nat) (za zb : Z) (fa fb : number) : bool :=
  match count with
  | O => true
  | S count' =>
      match num_to_Z fa with
      | Some z => Z.abs (z - za) * 562949953421312 <=? za
      | None => false
      end && fib_close count' zb (za + zb) fb (fa + fb)%float
  end.

Lemma fib_close_spec : forall count i,
  0 <= i ->
  fib_close count (fibonacci_number i) (fibonacci_number (i + 1)) (fib i) (fib (i + 1)) = true ->
  forall j, i <= j < i + Z.of_nat count ->
    exists z, num_to_Z (fib j) = Some z /\
              Z.abs (z - fibonacci_number j) * 562949953421312 <= fibonacci_number j.
Proof.
  induction count as [|count IH]; intros i Hi H j Hj; [lia|].
  cbn [fib_close] in H. apply andb_true_iff in H as [Hhere Hrest].
  destruct (Z.eq_dec j i) as [->|Hne].
  - destruct (num_to_Z (fib i)) as [z|]; [|discriminate].
    exists z. split; [reflexivity | now apply Z.leb_le].
  - apply (IH (i + 1)); [lia | | lia].
    replace (i + 1 + 1) with (i + 2) by lia.
    rewrite fibonacci_recurrence, fib_recurrence by lia.
    rewrite (Z.add_comm (fibonacci_number (i + 1))). exact Hrest.
Qed.

(** X7: for every index up to 1000 the value that [fib] computes is a
    finite double that stands for an integer, and that integer differs from
    the Fibonacci number F by at most F / 2^49 (by nothing up to index
    78). *)
Theorem fib_accuracy (i : Z) :
  0 <= i <= 1000 ->
  exists z, num_to_Z (fib i) = Some z /\
            Z.abs (z - fibonacci_number i) * 2 ^ 49 <= fibonacci_number i /\
            (i <= 78 -> z = fibonacci_number i).
Proof.
  intros Hi.
  assert (H : fib_close 1001 (fibonacci_number 0) (fibonacci_number (0 + 1))
                (fib 0) (fib (0 + 1)) = true) by (vm_compute; reflexivity).
  destruct (fib_close_spec 1001 0 ltac:(lia) H i ltac:(lia)) as (z & E & Hz).
  exists z. split; [exact E|]. split; [exact Hz|].
  intros H78. rewrite fib_exact_upto_78 in E by lia. now injection E as <-.
Qed.

Lemma fib_accuracy_witness :
  exists z, num_to_Z (fib 100) = Some z /\
            Z.abs (z - fibonacci_number 100) * 2 ^ 49 <= fibonacci_number 100 /\
            (100 <= 78 -> z = fibonacci_number 100).
Proof. apply (fib_accuracy 100). lia. Defined.

(** ** The percentage *)

(** The check of one percentage, with the quotient taken on 63-bit
    integers: the percentage is the floored exact percentage, or one less
    at an index strictly inside the range where the exact percentage is
    whole. *)
Definition percent_ok (n i : Z) : bool :=
  let x := Uint63.of_Z (100 * i) in
  let m := Uint63.of_Z n in
  let q := PrimInt63.div x m in
  let p := percent i n in
  PrimFloat.Leibniz.eqb p (of_uint63 q) ||
  (PrimFloat.Leibniz.eqb p (of_uint63 (PrimInt63.sub q (Uint63.of_Z 1))) &&
   PrimInt63.eqb (PrimInt63.mod x m) (Uint63.of_Z 0) && (0 <? i) && (i <? n)).

Lemma percent_check :
  forallb (fun n => forallb (percent_ok n) (range (Z.to_nat (n + 1)) 0))
          (range (Z.to_nat 1000) 1) = true.
Proof. vm_cast_no_check (eq_refl true). Qed.

Lemma to_Z_of_Z_small z : 0 <= z < 9223372036854775808 -> Uint63.to_Z (Uint63.of_Z z) = z.
Proof.
  intros Hz. rewrite Uint63.of_Z_spec. apply Z.mod_small.
  change Uint63.wB with 9223372036854775808. exact Hz.
Qed.

Lemma num_of_Z_to_Z (q : PrimInt63.int) : num_of_Z (Uint63.to_Z q) = of_uint63 q.
Proof.
  pose proof (Uint63.to_Z_bounded q) as Hq.
  change Uint63.wB with 9223372036854775808 in Hq.
  unfold num_of_Z. rewrite Z.abs_eq by lia.
  destruct (Z.ltb_spec (Uint63.to_Z q) 9223372036854775808); [|lia].
  destruct (Z.ltb_spec (Uint63.to_Z q) 0); [lia|].
  now rewrite Uint63.of_to_Z.
Qed.

Lemma percent_ok_spec n i :
  1 <= n <= 1000 -> 0 <= i <= n -> percent_ok n i = true ->
  percent i n = num_of_Z (100 * i / n) \/
  percent i n = num_of_Z (100 * i / n - 1) /\ (n | 100 * i) /\ 0 < i < n.
Proof.
  intros Hn Hi H. unfold percent_ok in H. cbv zeta in H.
  assert (Hx : Uint63.to_Z (Uint63.of_Z (100 * i)) = 100 * i) by (apply to_Z_of_Z_small; lia).
  assert (Hm : Uint63.to_Z (Uint63.of_Z n) = n) by (apply to_Z_of_Z_small; lia).
  assert (Hq : Uint63.to_Z (PrimInt63.div (Uint63.of_Z (100 * i)) (Uint63.of_Z n)) = 100 * i / n).
  { now rewrite Uint63.div_spec, Hx, Hm. }
  apply orb_true_iff in H as [H|H].
  - left. apply FloatAxioms.Leibniz.eqb_spec in H. rewrite H, <- num_of_Z_to_Z. now rewrite Hq.
  - right. apply andb_true_iff in H as [H H4]. apply andb_true_iff in H as [H H3].
    apply andb_true_iff in H as [H1 H2].
    apply FloatAxioms.Leibniz.eqb_spec in H1. apply Uint63.eqb_spec in H2.
    apply Z.ltb_lt in H3, H4.
    assert (Hmod : 100 * i mod n = 0).
    { apply (f_equal Uint63.to_Z) in H2. rewrite Uint63.mod_spec, Hx, Hm in H2.
      rewrite H2. apply to_Z_of_Z_small. lia. }
    assert (Hd : (n | 100 * i)) by (apply Z.mod_divide; [lia | exact Hmod]).
    assert (Hq1 : 1 <= 100 * i / n).
    { apply Z.div_le_lower_bound; [lia|]. destruct Hd as [k Hk].
      assert (1 <= k) by nia. nia. }
    assert (Hq2 : 100 * i / n <= 100).
    { apply Z.div_le_upper_bound; lia. }
    split; [|split; [exact Hd | lia]].
    rewrite H1, <- num_of_Z_to_Z. f_equal.
    rewrite Uint63.sub_spec, Hq, (to_Z_of_Z_small 1) by lia.
    apply Z.mod_small. change Uint63.wB with 9223372036854775808. lia.
Qed.

(** X10: [Math.floor((i / n) * 100)], computed in doubles, is the integer
    part of the exact percentage 100 i / n, except that it can be one less
    when the exact percentage is a whole number and i is strictly between 0
    and n (29 of 100 gives 28); at i = 0 it is 0 and at i = n it is 100
    (checked for every n from 1 to 1000 and every i from 0 to n). *)
Theorem percent_floor (i n : Z) :
  1 <= n <= 1000 -> 0 <= i <= n ->
  (percent i n = num_of_Z (100 * i / n) \/
   percent i n = num_of_Z (100 * i / n - 1) /\ (n | 100 * i) /\ 0 < i < n) /\
  percent 0 n = 0%float /\ percent n n = 100%float.
Proof.
  intros Hn Hi.
  assert (Hall : forall j, 0 <= j <= n -> percent_ok n j = true).
  { intros j Hj.
    pose proof (forallb_range _ _ _ percent_check n ltac:(lia)) as H. cbv beta in H.
    exact (forallb_range _ _ _ H j ltac:(lia)). }
  assert (Hcases : forall j, 0 <= j <= n ->
            percent j n = num_of_Z (100 * j / n) \/
            percent j n = num_of_Z (100 * j / n - 1) /\ (n | 100 * j) /\ 0 < j < n).
  { intros j Hj. apply percent_ok_spec; auto. }
  split; [now apply Hcases|]. split.
  - destruct (Hcases 0 ltac:(lia)) as [H|(_ & _ & H)]; [|lia].
    rewrite H. reflexivity.
  - destruct (Hcases n ltac:(lia)) as [H|(_ & _ & H)]; [|lia].
    rewrite H. rewrite Z.div_mul by lia. reflexivity.
Qed.

Lemma percent_floor_witness :
  (percent 29 100 = num_of_Z (100 * 29 / 100) \/
   percent 29 100 = num_of_Z (100 * 29 / 100 - 1) /\ (100 | 100 * 29) /\ 0 < 29 < 100) /\
  percent 0 100 = 0%float /\ percent 100 100 = 100%float.
Proof. apply (percent_floor 29 100); lia. Defined.

(* ===================================================================== *)
(** * The worker on a sequence of events *)
(* ===================================================================== *)

(** The ids the worker itself puts on responses, and the ids of requests. *)
Definition id_known (seen : list request) (r : response) : Prop :=
  response_id r = Some "system"%string \/ response_id r = Some "unknown"%string \/
  exists e, In e seen /\ response_id r = req_id e.

(** Every running interval belongs to a request that was received. *)
Definition timers_known (seen : list request) (w : worker) : Prop :=
  forall k iv, timers w !! k = Some iv -> exists e, In e seen /\ iv_id iv = req_id e.

Definition requests_of (events : list event) : list request :=
  flat_map (fun ev => match ev with Message e => [e] | _ => [] end) events.

Lemma id_known_incl seen seen' r :
  (forall e, In e seen -> In e seen') -> id_known seen r -> id_known seen' r.
Proof.
  intros Hincl [H|[H|(e & He & H)]]; [now left | now right; left |].
  right; right. exists e. split; [now apply Hincl | exact H].
Qed.

Section Events.

Variable toFixed4 : number -> number.

(** ** Requests that are answered at once *)

Lemma run_synchronous : forall requests w,
  Forall (fun e => dispatch (req_command e) <> Some SimulateWork) requests ->
  run toFixed4 w (map Message requests) = flat_map (request_trace toFixed4) requests /\
  final toFixed4 w (map Message requests) = w.
Proof.
  induction requests as [|e requests IH]; intros w H; [split; reflexivity|].
  apply List.Forall_cons_iff in H as [He H].
  cbn [map run final step flat_map].
  destruct (onmessage_synchronous toFixed4 w e He) as (reports & t & E & _).
  pose proof (onmessage_emissions toFixed4 w (Worker ∅ 1) e) as Hsame.
  rewrite E in Hsame |- *. cbn [fst snd] in Hsame |- *.
  destruct (IH w H) as [IH1 IH2]. rewrite IH1, IH2. split; [|reflexivity].
  f_equal. unfold request_trace. rewrite request_run_synchronous by exact He. exact Hsame.
Qed.

(** ** Where the ids come from *)

Lemma step_known seen w ev :
  timers_known seen w ->
  Forall (id_known (requests_of [ev] ++ seen)) (snd (step toFixed4 w ev)) /\
  timers_known (requests_of [ev] ++ seen) (fst (step toFixed4 w ev)).
Proof.
  intros Hk. destruct ev as [e|k|m|r]; cbn [step requests_of flat_map app].
  - destruct (dispatch_cases (req_command e))
      as [[D _]|[[D _]|[[D _]|[[D _]|[[D _]|[[D _]|[D _]]]]]]].
    3:{ rewrite (onmessage_simulateWork toFixed4 _ _ D). cbn [fst snd].
        split; [constructor|].
        unfold handleSimulateWork, setInterval, timers_known. cbn [timers].
        intros k iv. destruct (decide (k = next_timer w)) as [->|Hne].
        - rewrite lookup_insert_eq. intros [= <-]. exists e. split; [now left | reflexivity].
        - rewrite lookup_insert_ne by congruence. intros H.
          destruct (Hk k iv H) as (e' & He' & Hid). exists e'. split; [now right | exact Hid]. }
    all: destruct (onmessage_synchronous toFixed4 w e) as (reports & t & E & F & T);
      [congruence|]; rewrite E; cbn [fst snd];
      (split;
       [ apply List.Forall_app; split;
         [ eapply Forall_impl; [exact F|]; intros r (p & c & ->);
           right; right; exists e; split; [now left | reflexivity]
         | constructor; [|constructor];
           destruct (terminal_id _ _ T) as [Ht|Ht];
           [ right; right; exists e; split; [now left | exact Ht]
           | destruct (id_or_unknown_cases (req_id e)) as [Hu|Hu];
             [ right; left; now rewrite Ht, Hu
             | right; right; exists e; split; [now left | now rewrite Ht, <- Hu] ] ] ]
       | intros k iv H; destruct (Hk k iv H) as (e' & He' & Hid);
         exists e'; split; [now right | exact Hid] ]).
  - destruct (timers w !! k) as [iv|] eqn:E; [|split; [constructor | exact Hk]].
    destruct (Hk k iv E) as (e & He & Hid).
    rewrite interval_callback_eq. cbn [fst snd]. split.
    + eapply Forall_impl; [apply tick_output_ids|]. intros r Hr.
      right; right. exists e. split; [exact He | now rewrite Hr].
    + destruct (iv_steps iv <=? iv_currentStep iv + 1);
        unfold timers_known, clearInterval; cbn [timers]; intros k' iv'.
      * destruct (decide (k' = k)) as [->|Hne]; [now rewrite lookup_delete_eq|].
        rewrite lookup_delete_ne by congruence. apply Hk.
      * destruct (decide (k' = k)) as [->|Hne].
        -- rewrite lookup_insert_eq. intros [= <-]. exists e. split; [exact He | exact Hid].
        -- rewrite lookup_insert_ne by congruence. apply Hk.
  - cbn [fst snd]. split; [|exact Hk]. constructor; [now left | constructor].
  - cbn [fst snd]. split; [|exact Hk]. constructor; [now left | constructor].
Qed.

Lemma run_known : forall events seen w,
  timers_known seen w ->
  Forall (id_known (requests_of events ++ seen)) (run toFixed4 w events).
Proof.
  induction events as [|ev events IH]; intros seen w Hk; [constructor|].
  destruct (step_known seen w ev Hk) as [Hout Hk'].
  cbn [run]. destruct (step toFixed4 w ev) as [w' out]. cbn [fst snd] in *.
  assert (Hincl : forall e, In e (requests_of [ev] ++ seen) ->
                            In e (requests_of (ev :: events) ++ seen)).
  { intros e. unfold requests_of. cbn [flat_map]. rewrite app_nil_r, !in_app_iff. tauto. }
  apply List.Forall_app. split.
  - eapply Forall_impl; [exact Hout|]. intros r. now apply id_known_incl.
  - eapply Forall_impl; [exact (IH _ w' Hk')|]. intros r. apply id_known_incl.
    intros e. unfold requests_of. cbn [flat_map]. rewrite app_nil_r, !in_app_iff. tauto.
Qed.

(** ** The interval, to its end *)

Lemma final_timer_alone : forall n w k id duration steps stepDuration c,
  timers w !! k = Some (Interval id duration steps stepDuration c) ->
  0 <= c < last_tick steps ->
  (Z.to_nat (last_tick steps - c) <= n)%nat ->
  final toFixed4 w (repeat (Timer k) n) = Worker (delete k (timers w)) (next_timer w).
Proof.
  induction n as [|n IH]; intros w k id duration steps stepDuration c Hk Hc Hn; [lia|].
  cbn [repeat final step]. rewrite Hk, interval_callback_eq.
  cbn [iv_id iv_duration iv_steps iv_stepDuration iv_currentStep fst].
  destruct (Z.leb_spec steps (c + 1)) as [Hdone|Hmore].
  - clear IH Hn. unfold clearInterval.
    assert (Hm : delete k (timers w) !! k = None) by apply lookup_delete_eq.
    revert Hm. generalize (delete k (timers w)). intros m Hm.
    induction n as [|n IHn]; [reflexivity|].
    cbn [repeat final step timers]. rewrite Hm. exact IHn.
  - erewrite IH.
    + cbn [timers next_timer]. now rewrite delete_insert_eq.
    + cbn [timers]. apply lookup_insert_eq.
    + unfold last_tick in *. lia.
    + unfold last_tick in *. lia.
Qed.

End Events.

(** X17: requests with commands other than simulateWork are answered in
    the order they arrive, each by its own progress messages and terminal
    message before the next one is looked at, and they leave no state
    behind in the worker. *)
Theorem synchronous_requests_in_order (toFixed4 : number -> number) (requests : list request) :
  Forall (fun e => dispatch (req_command e) <> Some SimulateWork) requests ->
  execute toFixed4 (map Message requests) =
    Ready "init" "Worker已初始化，等待任务" supported_commands ::
    flat_map (request_trace toFixed4) requests /\
  final toFixed4 (Worker ∅ 1) (map Message requests) = Worker ∅ 1.
Proof.
  intros H. destruct (run_synchronous toFixed4 requests (Worker ∅ 1) H) as [E1 E2].
  split; [|exact E2]. unfold execute, startup. cbn [app]. now rewrite E1.
Qed.

Lemma synchronous_requests_in_order_witness :
  execute (fun x => x)
    (map Message
       [Request (Some "calculate"%string) (calculate_data "sum" [1; 2]%float) (Some "a"%string);
        Request (Some "bogus"%string) no_data (Some "b"%string)]) =
  Ready "init" "Worker已初始化，等待任务" supported_commands ::
  flat_map (request_trace (fun x => x))
    [Request (Some "calculate"%string) (calculate_data "sum" [1; 2]%float) (Some "a"%string);
     Request (Some "bogus"%string) no_data (Some "b"%string)].
Proof.
  apply (synchronous_requests_in_order (fun x => x)).
  repeat (constructor; [discriminate|]). constructor.
Defined.

(** X18: whatever the events, every response of the worker other than the
    ready message carries the id of a request it has received, or one of
    its own two: [unknown] (the fallback of the listener) and [system] (the
    two last-resort listeners).  What has been emitted stays: the emissions
    after more events extend the emissions so far. *)
Theorem response_ids_from_requests (toFixed4 : number -> number) (events more : list event) :
  Forall (fun r => r = Ready "init" "Worker已初始化，等待任务" supported_commands \/
                   response_id r = Some "system"%string \/
                   response_id r = Some "unknown"%string \/
                   exists e, In (Message e) events /\ response_id r = req_id e)
         (execute toFixed4 events) /\
  execute toFixed4 events `prefix_of` execute toFixed4 (events ++ more).
Proof.
  split.
  - unfold execute, startup. constructor; [now left|]. cbn [app].
    eapply Forall_impl; [apply (run_known toFixed4 events [] (Worker ∅ 1))|].
    + intros k iv. cbn [timers]. now rewrite lookup_empty.
    + intros r [H|[H|(e & He & H)]]; [tauto | tauto |].
      right; right; right. exists e. split; [|exact H].
      rewrite app_nil_r in He. unfold requests_of in He.
      apply in_flat_map in He as (ev & Hev & He).
      destruct ev as [e'| | |]; try contradiction. destruct He as [->|[]]. exact Hev.
  - unfold execute, startup. rewrite run_app. cbn [app].
    apply prefix_cons, prefix_app_r. reflexivity.
Qed.

(** X5: the edge cases of SimulateWork.  With [steps] at most 0 the
    callback runs once: one progress message (whose percentage is computed
    from step 1 of [steps]) and the success.  However many steps, once the
    callback has seen the last one the interval is cleared: the worker
    holds no timer.  With 1 to 1000 steps the last progress message reports
    100. *)
Theorem simulateWork_edge_cases (toFixed4 : number -> number) (e : request) (ticks : nat) :
  let steps := default 100 (data_steps (req_data e)) in
  let duration := default 3000%float (data_duration (req_data e)) in
  dispatch (req_command e) = Some SimulateWork ->
  (steps <= 0 -> (1 <= ticks)%nat ->
   request_run toFixed4 e ticks =
   [Progress (req_id e) (percent 1 steps)
      [("currentStep"%string, 1); ("totalSteps"%string, steps)];
    Success (req_id e) "simulateWork" (SimulateWorkResult "模拟工作完成" duration)]) /\
  ((Z.to_nat (last_tick steps) <= ticks)%nat ->
   timers (final toFixed4 (Worker ∅ 1) (Message e :: repeat (Timer 1) ticks)) = ∅) /\
  (1 <= steps <= 1000 ->
   last (progress_values (request_trace toFixed4 e)) = Some 100%float).
Proof.
  intros steps duration D. split; [|split].
  - intros Hsteps Hticks.
    rewrite (request_run_simulateWork toFixed4 e _ D). fold steps duration.
    replace (last_tick steps) with 1 by (unfold last_tick; lia).
    rewrite Nat.min_r by (simpl; lia).
    unfold interval_trace, tick_output. change (Z.to_nat 1) with 1%nat.
    cbn [range flat_map app]. change (0 + 1) with 1.
    destruct (Z.leb_spec steps 1); [reflexivity | lia].
  - intros Hticks. cbn [final step].
    rewrite (onmessage_simulateWork toFixed4 _ _ D). cbn [fst].
    unfold handleSimulateWork, setInterval. cbn [timers next_timer]. fold steps.
    erewrite final_timer_alone.
    + cbn [timers]. now rewrite delete_insert_eq, delete_empty.
    + cbn [timers]. apply lookup_insert_eq.
    + unfold last_tick. lia.
    + rewrite Z.sub_0_r. exact Hticks.
  - intros Hsteps. unfold request_trace.
    rewrite (request_run_simulateWork toFixed4 e _ D). unfold ticks_needed. rewrite D.
    fold steps duration. rewrite Nat.min_id, interval_trace_complete, progress_values_app.
    cbn [progress_values flat_map]. rewrite app_nil_r, progress_values_reports.
    replace (last_tick steps) with steps by (unfold last_tick; lia).
    replace (Z.to_nat steps) with (Z.to_nat (steps - 1) + 1)%nat by lia.
    rewrite range_app, map_app, last_app. cbn [range map last].
    replace (1 + Z.of_nat (Z.to_nat (steps - 1))) with steps by lia.
    f_equal. destruct (percent_ok_spec steps steps) as [H|(_ & _ & H)]; try lia.
    + exact (forallb_range _ _ _ (forallb_range _ _ _ percent_check steps ltac:(lia))
               steps ltac:(lia)).
    + rewrite H, Z.div_mul by lia. reflexivity.
Qed.

Lemma simulateWork_edge_cases_witness :
  request_run (fun x => x)
    (Request (Some "simulateWork"%string) (simulateWork_data (-5)) (Some "x"%string)) 3 =
  [Progress (Some "x"%string) (percent 1 (-5))
     [("currentStep"%string, 1); ("totalSteps"%string, -5)];
   Success (Some "x"%string) "simulateWork" (SimulateWorkResult "模拟工作完成" 3000%float)] /\
  last (progress_values
          (request_trace (fun x => x)
             (Request (Some "simulateWork"%string) (simulateWork_data 7) (Some "x"%string)))) =
  Some 100%float.
Proof.
  split.
  - apply (simulateWork_edge_cases (fun x => x)
             (Request (Some "simulateWork"%string) (simulateWork_data (-5)) (Some "x"%string)) 3);
      [reflexivity | simpl; lia | lia].
  - apply (simulateWork_edge_cases (fun x => x)
             (Request (Some "simulateWork"%string) (simulateWork_data 7) (Some "x"%string)) 0);
      [reflexivity | simpl; lia].
Defined.

(* ===================================================================== *)
(** * Calculate: the extrema *)
(* ===================================================================== *)

Lemma feq_fle x y : feq x y -> fle x y.
Proof.
  unfold feq, fle. rewrite FloatAxioms.eqb_spec, FloatAxioms.leb_spec. unfold SFeqb, SFleb.
  destruct (SFcompare (Prim2SF x) (Prim2SF y)) as [[]|]; congruence.
Qed.

Lemma zeros_fle x y : is_zero x = true -> is_zero y = true -> fle x y.
Proof.
  unfold is_zero. intros Hx Hy. apply feq_fle.
  assert (Kx : key x = key 0%float) by (apply feq_key; exact Hx).
  assert (Ky : key y = key 0%float) by (apply feq_key; exact Hy).
  apply key_eq_feq; [|congruence].
  exact (proj1 (fle_not_nan _ _ (feq_fle _ _ Hx))).
Qed.

(** Nothing is below -Infinity, nothing above Infinity. *)
Lemma not_above_neg_infinity x :
  not_nan x -> js_lt neg_infinity x = false -> x = neg_infinity.
Proof.
  intros Hx H. apply not_nan_spec in Hx.
  unfold js_lt in H. rewrite FloatAxioms.ltb_spec in H.
  rewrite <- (FloatAxioms.SF2Prim_Prim2SF x).
  change (Prim2SF neg_infinity) with (S754_infinity true) in H.
  destruct (Prim2SF x) as [s|[|]| |s m e]; try reflexivity; try discriminate; try contradiction;
    destruct s; discriminate.
Qed.

Lemma not_below_infinity x :
  not_nan x -> js_lt x infinity = false -> x = infinity.
Proof.
  intros Hx H. apply not_nan_spec in Hx.
  unfold js_lt in H. rewrite FloatAxioms.ltb_spec in H.
  rewrite <- (FloatAxioms.SF2Prim_Prim2SF x).
  change (Prim2SF infinity) with (S754_infinity false) in H.
  destruct (Prim2SF x) as [s|[|]| |s m e]; try reflexivity; try discriminate; try contradiction;
    destruct s; discriminate.
Qed.

Lemma max_step_spec highest x :
  not_nan highest -> not_nan x ->
  let r := max_step highest x in
  (r = highest \/ r = x) /\ fle highest r /\ fle x r.
Proof.
  intros Hh Hx. unfold max_step. rewrite Hh, Hx. cbn [orb].
  destruct (js_lt highest x) eqn:L.
  - split; [now right|]. split; [now apply lt_fle | now apply fle_refl].
  - destruct (is_zero x && is_zero highest && get_sign highest && negb (get_sign x)) eqn:Z.
    + apply andb_true_iff in Z as [Z _]. apply andb_true_iff in Z as [Z _].
      apply andb_true_iff in Z as [Zx Zh].
      split; [now right|]. split; [now apply zeros_fle | now apply fle_refl].
    + split; [now left|]. split; [now apply fle_refl | now apply not_lt_fle].
Qed.

Lemma min_step_spec lowest x :
  not_nan lowest -> not_nan x ->
  let r := min_step lowest x in
  (r = lowest \/ r = x) /\ fle r lowest /\ fle r x.
Proof.
  intros Hl Hx. unfold min_step. rewrite Hl, Hx. cbn [orb].
  destruct (js_lt x lowest) eqn:L.
  - split; [now right|]. split; [now apply lt_fle | now apply fle_refl].
  - destruct (is_zero x && is_zero lowest && get_sign x && negb (get_sign lowest)) eqn:Z.
    + apply andb_true_iff in Z as [Z _]. apply andb_true_iff in Z as [Z _].
      apply andb_true_iff in Z as [Zx Zl].
      split; [now right|]. split; [now apply zeros_fle | now apply fle_refl].
    + split; [now left|]. split; [now apply fle_refl | now apply not_lt_fle].
Qed.

Lemma fold_max_spec : forall numbers highest,
  not_nan highest -> no_nan numbers ->
  let r := fold_left max_step numbers highest in
  (r = highest \/ In r numbers) /\ fle highest r /\ Forall (fun x => fle x r) numbers.
Proof.
  induction numbers as [|x numbers IH]; intros highest Hh Hn; cbn [fold_left].
  - split; [now left|]. split; [now apply fle_refl | constructor].
  - apply List.Forall_cons_iff in Hn as [Hx Hn].
    destruct (max_step_spec highest x Hh Hx) as (Hr & Hhr & Hxr).
    assert (Hnr : not_nan (max_step highest x)) by exact (proj2 (fle_not_nan _ _ Hhr)).
    destruct (IH (max_step highest x) Hnr Hn) as (I1 & I2 & I3).
    split; [|split].
    + destruct I1 as [I1|I1]; [|right; now right].
      rewrite I1. destruct Hr as [->| ->]; [now left | right; now left].
    + now apply fle_trans with (max_step highest x).
    + constructor; [now apply fle_trans with (max_step highest x) | exact I3].
Qed.

Lemma fold_min_spec : forall numbers lowest,
  not_nan lowest -> no_nan numbers ->
  let r := fold_left min_step numbers lowest in
  (r = lowest \/ In r numbers) /\ fle r lowest /\ Forall (fun x => fle r x) numbers.
Proof.
  induction numbers as [|x numbers IH]; intros lowest Hl Hn; cbn [fold_left].
  - split; [now left|]. split; [now apply fle_refl | constructor].
  - apply List.Forall_cons_iff in Hn as [Hx Hn].
    destruct (min_step_spec lowest x Hl Hx) as (Hr & Hrl & Hrx).
    assert (Hnr : not_nan (min_step lowest x)) by exact (proj1 (fle_not_nan _ _ Hrl)).
    destruct (IH (min_step lowest x) Hnr Hn) as (I1 & I2 & I3).
    split; [|split].
    + destruct I1 as [I1|I1]; [|right; now right].
      rewrite I1. destruct Hr as [->| ->]; [now left | right; now left].
    + now apply fle_trans with (min_step lowest x).
    + constructor; [now apply fle_trans with (min_step lowest x) | exact I3].
Qed.

Lemma fold_max_nan : forall numbers, fold_left max_step numbers nan = nan.
Proof. induction numbers as [|x numbers IH]; [reflexivity | exact IH]. Qed.

Lemma fold_min_nan : forall numbers, fold_left min_step numbers nan = nan.
Proof. induction numbers as [|x numbers IH]; [reflexivity | exact IH]. Qed.

Lemma fold_max_absorbs : forall numbers highest,
  Exists (fun x => is_nan x = true) numbers -> fold_left max_step numbers highest = nan.
Proof.
  induction numbers as [|x numbers IH]; intros highest H; [inversion H|]. cbn [fold_left].
  apply List.Exists_cons in H as [H|H]; [|now apply IH].
  unfold max_step at 2. rewrite H, orb_true_r. apply fold_max_nan.
Qed.

Lemma fold_min_absorbs : forall numbers lowest,
  Exists (fun x => is_nan x = true) numbers -> fold_left min_step numbers lowest = nan.
Proof.
  induction numbers as [|x numbers IH]; intros lowest H; [inversion H|]. cbn [fold_left].
  apply List.Exists_cons in H as [H|H]; [|now apply IH].
  unfold min_step at 2. rewrite H, orb_true_r. apply fold_min_nan.
Qed.

(** X2: Calculate with operation [max] over numbers without NaN, at least
    one, answers with one of the numbers, and none of the numbers is
    greater; with [min], with one of the numbers, and none is smaller.  If
    one of the numbers is NaN both results are NaN. *)
Theorem calculate_extremum (toFixed4 : number -> number) (w : worker)
    (numbers : list number) (id : jsid) :
  let answer operation :=
    onmessage toFixed4 w (Request (Some "calculate"%string) (calculate_data operation numbers) id) in
  (numbers <> [] -> no_nan numbers ->
   exists highest lowest,
     answer "max"%string = (w, [Success id "calculate" (CalculateResult highest "max")]) /\
     answer "min"%string = (w, [Success id "calculate" (CalculateResult lowest "min")]) /\
     In highest numbers /\ Forall (fun x => fle x highest) numbers /\
     In lowest numbers /\ Forall (fun x => fle lowest x) numbers) /\
  (Exists (fun x => is_nan x = true) numbers ->
   answer "max"%string = (w, [Success id "calculate" (CalculateResult nan "max")]) /\
   answer "min"%string = (w, [Success id "calculate" (CalculateResult nan "min")])).
Proof.
  intros answer. split.
  - intros Hne Hn. exists (Math_max numbers), (Math_min numbers).
    split; [reflexivity|]. split; [reflexivity|].
    destruct numbers as [|x numbers]; [congruence|].
    pose proof Hn as Hn'. apply List.Forall_cons_iff in Hn' as [Hx _].
    destruct (fold_max_spec (x :: numbers) neg_infinity eq_refl Hn) as (M1 & _ & M3).
    destruct (fold_min_spec (x :: numbers) infinity eq_refl Hn) as (N1 & _ & N3).
    fold (Math_max (x :: numbers)) in M1, M3. fold (Math_min (x :: numbers)) in N1, N3.
    split; [|split; [exact M3 | split; [|exact N3]]].
    + destruct M1 as [M1|M1]; [|exact M1]. left.
      apply List.Forall_inv in M3. rewrite M1 in M3 |- *.
      apply not_above_neg_infinity; [exact Hx|].
      apply (fle_not_gt x neg_infinity M3).
    + destruct N1 as [N1|N1]; [|exact N1]. left.
      apply List.Forall_inv in N3. rewrite N1 in N3 |- *.
      apply not_below_infinity; [exact Hx|].
      apply (fle_not_gt infinity x N3).
  - intros Hnan. unfold answer, onmessage, handleCalculate.
    cbn [req_command req_data req_id dispatch same calculate_data data_operation data_numbers
         String.eqb Ascii.eqb Bool.eqb].
    unfold Math_max, Math_min. rewrite fold_max_absorbs, fold_min_absorbs by exact Hnan.
    split; reflexivity.
Qed.

Lemma calculate_extremum_witness :
  exists highest lowest,
    onmessage (fun x => x) (Worker ∅ 1)
      (Request (Some "calculate"%string) (calculate_data "max" [3; -0; 7; 0]%float) None) =
      (Worker ∅ 1, [Success None "calculate" (CalculateResult highest "max")]) /\
    onmessage (fun x => x) (Worker ∅ 1)
      (Request (Some "calculate"%string) (calculate_data "min" [3; -0; 7; 0]%float) None) =
      (Worker ∅ 1, [Success None "calculate" (CalculateResult lowest "min")]) /\
    In highest [3; -0; 7; 0]%float /\ Forall (fun x => fle x highest) [3; -0; 7; 0]%float /\
    In lowest [3; -0; 7; 0]%float /\ Forall (fun x => fle lowest x) [3; -0; 7; 0]%float.
Proof.
  apply (proj1 (calculate_extremum (fun x => x) (Worker ∅ 1) [3; -0; 7; 0]%float None)).
  - discriminate.
  - repeat (apply List.Forall_cons; [reflexivity|]). apply List.Forall_nil.
Defined.

(* ===================================================================== *)
(** * SortArray: the response *)
(* ===================================================================== *)

Definition sortArray_data (array : list number) (algorithm : option string) : payload :=
  Payload None [] [] None None None None None (Some array) algorithm.

(** X11: a SortArray request for an array without NaN, with algorithm
    [quick] (also when none is given), [merge] or [bubble], is answered by
    one success whose result is the numbers of the array in ascending
    order, and whose originalLength is the length of the array and of the
    result.  A request whose [array] is not an array is answered by one
    error. *)
Theorem sortArray_response_sorted (toFixed4 : number -> number) (w : worker)
    (array : list number) (algorithm : option string) (id : jsid) :
  let name := default "quick"%string algorithm in
  (no_nan array -> In name ["quick"; "merge"; "bubble"]%string ->
   exists sorted,
     onmessage toFixed4 w (Request (Some "sortArray"%string) (sortArray_data array algorithm) id) =
       (w, [Success id "sortArray"
              (SortArrayResult sorted name (Z.of_nat (length sorted)))]) /\
     ascending sorted /\ Permutation sorted array /\ length sorted = length array) /\
  onmessage toFixed4 w
    (Request (Some "sortArray"%string)
       (Payload None [] [] None None None None None None algorithm) id) =
    (w, [Error (Some (id_or_unknown id)) "输入必须是一个数组" None]).
Proof.
  intros name. split; [|reflexivity].
  intros Hn Halg. exists (sort_switch name array).
  assert (Hs : ascending (sort_switch name array) /\ Permutation (sort_switch name array) array).
  { cbn [In] in Halg. destruct Halg as [<-|[<-|[<-|[]]]]; cbn.
    - split; [now apply quickSort_ascending | apply quickSort_perm].
    - split; [now apply mergeSort_ascending | apply mergeSort_perm].
    - split; [now apply bubbleSort_ascending | now apply bubbleSort_perm]. }
  destruct Hs as [Hasc Hperm]. pose proof (Permutation_length Hperm) as Hlen.
  split; [|split; [exact Hasc | split; [exact Hperm | exact Hlen]]].
  rewrite Hlen. unfold onmessage.
  cbn [req_command req_data req_id dispatch same String.eqb Ascii.eqb Bool.eqb].
  reflexivity.
Qed.

Lemma sortArray_response_sorted_witness :
  exists sorted,
    onmessage (fun x => x) (Worker ∅ 1)
      (Request (Some "sortArray"%string) (sortArray_data [3; 1; 2]%float (Some "merge"%string))
         (Some "x"%string)) =
      (Worker ∅ 1,
       [Success (Some "x"%string) "sortArray"
          (SortArrayResult sorted "merge" (Z.of_nat (length sorted)))]) /\
    ascending sorted /\ Permutation sorted [3; 1; 2]%float /\
    length sorted = length [3; 1; 2]%float.
Proof.
  apply (proj1 (sortArray_response_sorted (fun x => x) (Worker ∅ 1) [3; 1; 2]%float
                  (Some "merge"%string) (Some "x"%string))).
  - repeat (apply List.Forall_cons; [reflexivity|]). apply List.Forall_nil.
  - right. left. reflexivity.
Defined.

(* ===================================================================== *)
(** * The array a sort returns *)
(* ===================================================================== *)

Lemma quickSort_in_new : forall fuel arr (h : heap) contents,
  h !! arr = Some contents -> (1 < length contents)%nat -> (0 < fuel)%nat ->
  h !! snd (quickSort_in fuel arr h) = None.
Proof.
  intros [|fuel] arr h contents Harr Hlen Hfuel; [lia|]. cbn [quickSort_in].
  rewrite (contents_of_lookup _ _ _ Harr).
  destruct (Nat.leb_spec (length contents) 1); [lia|].
  destruct (contents !! (length contents / 2)%nat) as [pivot|] eqn:Ep.
  2:{ apply lookup_ge_None in Ep.
      assert (length contents / 2 < length contents)%nat by (apply Nat.div_lt; lia). lia. }
  destruct (partition3 pivot contents) as [[l r] e].
  pose proof (alloc_spec h l) as A1. destruct (alloc h l) as [h1 left_at].
  destruct A1 as (_ & L1 & E1).
  pose proof (alloc_spec h1 r) as A2. destruct (alloc h1 r) as [h2 right_at].
  destruct A2 as (_ & L2 & E2).
  pose proof (alloc_spec h2 e) as A3. destruct (alloc h2 e) as [h3 equal_at].
  destruct A3 as (_ & L3 & E3).
  pose proof (quickSort_in_spec fuel left_at h3 l (E3 _ _ (E2 _ _ L1))) as Q1.
  destruct (quickSort_in fuel left_at h3) as [h4 sorted_left]. destruct Q1 as (S1 & E4 & _).
  pose proof (quickSort_in_spec fuel right_at h4 r (E4 _ _ (E3 _ _ L2))) as Q2.
  destruct (quickSort_in fuel right_at h4) as [h5 sorted_right]. destruct Q2 as (S2 & E5 & _).
  match goal with
  | |- context [alloc h5 ?c] =>
      pose proof (alloc_spec h5 c) as A6; destruct (alloc h5 c) as [h6 result]
  end.
  destruct A6 as (F6 & _ & _). cbn [snd].
  destruct (h !! result) as [c|] eqn:Hr; [|reflexivity].
  apply E1, E2, E3, E4, E5 in Hr. congruence.
Qed.

Lemma mergeSort_in_new : forall fuel arr (h : heap) contents,
  h !! arr = Some contents -> (1 < length contents)%nat -> (0 < fuel)%nat ->
  h !! snd (mergeSort_in fuel arr h) = None.
Proof.
  intros [|fuel] arr h contents Harr Hlen Hfuel; [lia|]. cbn [mergeSort_in].
  rewrite (contents_of_lookup _ _ _ Harr).
  destruct (Nat.leb_spec (length contents) 1); [lia|]. cbv zeta.
  match goal with
  | |- context [alloc h ?c] =>
      pose proof (alloc_spec h c) as A1; destruct (alloc h c) as [h1 left_slice]
  end.
  destruct A1 as (_ & L1 & E1).
  pose proof (mergeSort_in_spec fuel left_slice h1 _ L1) as M1.
  destruct (mergeSort_in fuel left_slice h1) as [h2 left_at]. destruct M1 as (S1 & E2 & _).
  match goal with
  | |- context [alloc h2 ?c] =>
      pose proof (alloc_spec h2 c) as A3; destruct (alloc h2 c) as [h3 right_slice]
  end.
  destruct A3 as (_ & L3 & E3).
  pose proof (mergeSort_in_spec fuel right_slice h3 _ L3) as M2.
  destruct (mergeSort_in fuel right_slice h3) as [h4 right_at]. destruct M2 as (S2 & E4 & _).
  unfold merge_in.
  match goal with
  | |- context [alloc h4 ?c] =>
      pose proof (alloc_spec h4 c) as A5; destruct (alloc h4 c) as [h5 result]
  end.
  destruct A5 as (F5 & _ & _). cbn [snd].
  destruct (h !! result) as [c|] eqn:Hr; [|reflexivity].
  apply E1, E2, E3, E4 in Hr. congruence.
Qed.

(** X16: called on an array of at most one element, quickSort and
    mergeSort return that very array and touch nothing; called on a longer
    array they return a new array, with the sorted contents, and leave the
    argument as it was. *)
Theorem sort_result_alias (arr : nat) (h : heap) (contents : list number) :
  h !! arr = Some contents ->
  let quick := quickSort_in (length contents) arr h in
  let merged := mergeSort_in (length contents) arr h in
  ((length contents <= 1)%nat -> quick = (h, arr) /\ merged = (h, arr)) /\
  ((1 < length contents)%nat ->
   h !! snd quick = None /\ h !! snd merged = None /\
   fst quick !! snd quick = Some (quickSort contents) /\
   fst merged !! snd merged = Some (mergeSort contents) /\
   fst quick !! arr = Some contents /\ fst merged !! arr = Some contents).
Proof.
  intros Harr quick merged. split.
  - intros Hlen. unfold quick, merged.
    destruct contents as [|x [|y rest]]; [| |cbn [length] in Hlen; lia];
      cbn [length quickSort_in mergeSort_in];
      rewrite (contents_of_lookup _ _ _ Harr); split; reflexivity.
  - intros Hlen.
    pose proof (quickSort_in_spec (length contents) arr h contents Harr) as Q.
    pose proof (mergeSort_in_spec (length contents) arr h contents Harr) as M.
    pose proof (quickSort_in_new (length contents) arr h contents Harr Hlen ltac:(lia)) as Qn.
    pose proof (mergeSort_in_new (length contents) arr h contents Harr Hlen ltac:(lia)) as Mn.
    fold quick in Q, Qn. fold merged in M, Mn.
    destruct quick as [hq rq], merged as [hm rm]. cbn [fst snd] in *.
    destruct Q as (Q1 & Q2 & _), M as (M1 & M2 & _).
    repeat split; auto.
Qed.

Lemma sort_result_alias_witness :
  ({[ 4%nat := [2; 1]%float ]} : heap) !!
    snd (quickSort_in (length [2; 1]%float) 4 {[ 4%nat := [2; 1]%float ]}) = None.
Proof.
  refine (proj1 (proj2 (sort_result_alias 4 {[ 4%nat := [2; 1]%float ]} [2; 1]%float _) _)).
  - apply lookup_singleton_eq.
  - simpl. lia.
Defined.

(* ===================================================================== *)
(** * SimulateWork among other requests *)
(* ===================================================================== *)

(** X19: a SimulateWork request among other events.  Whatever requests
    with other ids come before it or between its steps, and whatever they
    do, the emissions that bear its id are one tick of its own sequence for
    each firing of its timer, up to the last step; once the timer has fired
    often enough they are the whole sequence, the same as if the request
    had been alone. *)
Theorem simulateWork_among_requests (toFixed4 : number -> number) (s : string) (e : request)
    (pre post : list event) :
  let steps := default 100 (data_steps (req_data e)) in
  let duration := default 3000%float (data_duration (req_data e)) in
  let handle := next_timer (final toFixed4 (Worker ∅ 1) pre) in
  req_id e = Some s -> usable_id s ->
  dispatch (req_command e) = Some SimulateWork ->
  Forall (foreign s) pre -> Forall (foreign s) post ->
  emitted_for s (execute toFixed4 (pre ++ Message e :: post)) =
    interval_trace (Some s) duration steps 0
      (Nat.min (firings handle post) (Z.to_nat (last_tick steps))) /\
  ((Z.to_nat (last_tick steps) <= firings handle post)%nat ->
   emitted_for s (execute toFixed4 (pre ++ Message e :: post)) = request_trace toFixed4 e).
Proof.
  intros steps duration handle Hid Hs D Hpre Hpost.
  pose proof Hs as (Hne & Hunk & Hsys & Hinit).
  assert (E : emitted_for s (execute toFixed4 (pre ++ Message e :: post)) =
              interval_trace (Some s) duration steps 0
                (Nat.min (firings handle post) (Z.to_nat (last_tick steps)))).
  { unfold execute, startup. rewrite emitted_for_app.
    rewrite (emitted_for_none s [Ready _ _ _])
      by (constructor; [simpl; congruence | constructor]).
    cbn [app]. rewrite run_app, emitted_for_app.
    destruct (quiet_run toFixed4 s Hs pre (Worker ∅ 1)) as (E0 & Hb & Hq); [| |exact Hpre|].
    { intros k iv. cbn [timers]. now rewrite lookup_empty. }
    { intros k iv. cbn [timers]. now rewrite lookup_empty. }
    rewrite E0. cbn [app run step]. fold handle.
    set (w := final toFixed4 (Worker ∅ 1) pre) in *.
    rewrite (onmessage_simulateWork toFixed4 _ _ D). cbn [app].
    unfold handleSimulateWork, setInterval. rewrite Hid. fold steps duration.
    rewrite (flight_run_count toFixed4 s Hs post _ handle duration steps
               (duration / num_of_Z steps)%float 0).
    - now rewrite Z.sub_0_r.
    - unfold timers_below. cbn [timers next_timer]. intros k iv.
      destruct (decide (k = next_timer w)) as [->|Hk]; [intros _; lia|].
      rewrite lookup_insert_ne by congruence. intros H. apply Hb in H. lia.
    - unfold in_flight. cbn [timers]. split; [apply lookup_insert_eq|].
      intros k iv Hk. rewrite lookup_insert_ne by (unfold handle in Hk; congruence). apply Hq.
    - unfold last_tick. lia.
    - exact Hpost. }
  split; [exact E|]. intros Hfired. rewrite E, Nat.min_r by exact Hfired.
  unfold request_trace. rewrite (request_run_simulateWork toFixed4 e _ D).
  unfold ticks_needed. rewrite D, Hid. fold steps duration. now rewrite Nat.min_id.
Qed.

Lemma simulateWork_among_requests_witness :
  emitted_for "x"
    (execute (fun x => x)
       ([Message (Request (Some "simulateWork"%string) (simulateWork_data 5) (Some "y"%string));
         Timer 1]
        ++ Message (Request (Some "simulateWork"%string) (simulateWork_data 2) (Some "x"%string))
        :: [Timer 1; Timer 2;
            Message (Request (Some "fibonacci"%string) (fibonacci_data 12) None);
            Timer 2; Timer 1])) =
  request_trace (fun x => x)
    (Request (Some "simulateWork"%string) (simulateWork_data 2) (Some "x"%string)).
Proof.
  refine (proj2 (simulateWork_among_requests (fun x => x) "x"
                   (Request (Some "simulateWork"%string) (simulateWork_data 2) (Some "x"%string))
                   [Message (Request (Some "simulateWork"%string) (simulateWork_data 5)
                               (Some "y"%string)); Timer 1]
                   [Timer 1; Timer 2;
                    Message (Request (Some "fibonacci"%string) (fibonacci_data 12) None);
                    Timer 2; Timer 1] _ _ _ _ _) _).
  - reflexivity.
  - repeat split; discriminate.
  - reflexivity.
  - repeat constructor. discriminate.
  - repeat constructor. discriminate.
  - vm_compute. lia.
Defined.

(* ===================================================================== *)
(** * ProcessData: the edges of [normalize] *)
(* ===================================================================== *)

Lemma is_zero_spec x : is_zero x = true -> exists sign, Prim2SF x = S754_zero sign.
Proof.
  unfold is_zero. rewrite FloatAxioms.eqb_spec.
  change (Prim2SF 0) with (S754_zero false).
  destruct (Prim2SF x) as [sg|sg| |sg m e]; try discriminate;
    try (destruct sg; discriminate). eauto.
Qed.

Lemma is_nan_spec x : is_nan x = true -> Prim2SF x = S754_nan.
Proof.
  intros H. destruct (Prim2SF x) as [sg|sg| |sg m e] eqn:E; try reflexivity; exfalso;
    (assert (Hn : not_nan x) by (apply not_nan_spec; rewrite E; discriminate));
    unfold not_nan in Hn; congruence.
Qed.

Lemma abs_zero x : is_zero x = true -> Math_abs x = 0%float.
Proof.
  intros H. destruct (is_zero_spec x H) as [sg E]. unfold Math_abs.
  rewrite <- (FloatAxioms.SF2Prim_Prim2SF (abs x)), FloatAxioms.abs_spec, E. reflexivity.
Qed.

Lemma abs_nan x : is_nan x = true -> is_nan (Math_abs x) = true.
Proof.
  intros H. unfold Math_abs.
  rewrite <- (FloatAxioms.SF2Prim_Prim2SF (abs x)), FloatAxioms.abs_spec, (is_nan_spec x H).
  reflexivity.
Qed.

Lemma div_nan x : (x / nan)%float = nan.
Proof.
  rewrite <- (FloatAxioms.SF2Prim_Prim2SF (x / nan)), FloatAxioms.div_spec.
  change (Prim2SF nan) with S754_nan.
  destruct (Prim2SF x) as [sg|sg| |sg m e]; reflexivity.
Qed.

Lemma max_of_zeros : forall zeros,
  Forall (fun x => x = 0%float) zeros ->
  fold_left max_step zeros 0%float = 0%float.
Proof.
  induction 1 as [|x zeros -> _ IH]; [reflexivity|]. cbn [fold_left].
  change (max_step 0%float 0%float) with 0%float. exact IH.
Qed.

(** X20: the edges of the [normalize] transform of ProcessData.  In a
    dataset of zeros (of either sign) every element is turned into 0: the
    division by the zero maximum is not made.  If one element of the
    dataset is NaN, every element is turned into NaN. *)
Theorem normalize_edge_cases (dataset : list number) (value : number) :
  In value dataset ->
  (Forall (fun x => is_zero x = true) dataset ->
   apply_transform (Some "normalize"%string) dataset value = 0%float) /\
  (Exists (fun x => is_nan x = true) dataset ->
   apply_transform (Some "normalize"%string) dataset value = nan).
Proof.
  intros Hin. unfold apply_transform. cbn [same String.eqb Ascii.eqb Bool.eqb]. split.
  - intros Hz.
    assert (Hmax : Math_max (map Math_abs dataset) = 0%float).
    { destruct dataset as [|x dataset]; [contradiction|].
      apply List.Forall_cons_iff in Hz as [Hx Hz].
      unfold Math_max. cbn [map fold_left]. rewrite (abs_zero x Hx).
      change (max_step neg_infinity 0%float) with 0%float.
      apply max_of_zeros. apply List.Forall_forall. intros y Hy.
      apply in_map_iff in Hy as (z & <- & Hzin). apply abs_zero.
      rewrite List.Forall_forall in Hz. now apply Hz. }
    now rewrite Hmax.
  - intros Hn.
    assert (Hmax : Math_max (map Math_abs dataset) = nan).
    { apply fold_max_absorbs. apply List.Exists_exists in Hn as (x & Hx & Hnan).
      apply List.Exists_exists. exists (Math_abs x). split; [now apply in_map | now apply abs_nan]. }
    rewrite Hmax. change (negb (nan =? 0)%float) with true. cbv iota. apply div_nan.
Qed.

Lemma normalize_edge_cases_witness :
  apply_transform (Some "normalize"%string) [0; -0; 0]%float (-0)%float = 0%float /\
  apply_transform (Some "normalize"%string) [1; nan; 3]%float 3%float = nan.
Proof.
  split.
  - apply (proj1 (normalize_edge_cases [0; -0; 0]%float (-0)%float
                    ltac:(right; left; reflexivity))).
    repeat (apply List.Forall_cons; [reflexivity|]). apply List.Forall_nil.
  - apply (proj2 (normalize_edge_cases [1; nan; 3]%float 3%float
                    ltac:(right; right; left; reflexivity))).
    apply List.Exists_cons_tl, List.Exists_cons_hd. reflexivity.
Defined.
